(** * mythyst-admin: ordered lists, daily traffic buckets, CSV import and export

    A shallow embedding of the parts of the admin console that carry logic:

    - the adjacent-swap reordering of forum categories and homepage banners
      ([src/pages/ForumCategories.tsx], [src/pages/HomepageBanners.tsx]);
    - the daily aggregation of login logs ([AdminTrafficStats.fetchStats]);
    - the row mapping of the chapter CSV import ([src/pages/Chapters.tsx]);
    - the CSV serialisation of coin transactions ([AdminCoins.exportToCSV]).

    Conventions.  A JavaScript string whose characters the code looks at is a
    list of UTF-16 code units ([jsstring]); identifiers and messages that are
    only stored or compared are Rocq strings.  An integer-valued JavaScript
    number is a [Z]; what is proved of the text of a number is proved for the
    integers a number holds exactly (below 2^53 in absolute value).  An
    instant is its number of milliseconds since the epoch, and the time zone
    of the browser is a parameter of everything that moves a date by days.  Every request to the backend takes its response as an
    argument: [None] for [error: null] (the request was applied), [Some e] for
    a rejected request (nothing was applied). *)

From stdpp Require Import base list strings gmap sorting pretty.
From Equations Require Import Equations.

Local Open Scope Z_scope.

(** ** JavaScript strings and numbers *)

Abbreviation jsstring := (list N).

(** An ASCII literal as code units. *)
Definition js (s : string) : jsstring := Ascii.N_of_ascii <$> String.list_ascii_of_string s.

(** The error object of a rejected request, by its message. *)
Abbreviation PostgrestError := string (only parsing).

(** WhiteSpace and LineTerminator code points: what [String.prototype.trim]
    strips and what [\s] matches in a regular expression. *)
Definition is_ws (c : N) : bool :=
  ((9 <=? c) && (c <=? 13) || (c =? 32) || (c =? 160) || (c =? 5760)
   || (8192 <=? c) && (c <=? 8202) || (c =? 8232) || (c =? 8233)
   || (c =? 8239) || (c =? 8287) || (c =? 12288) || (c =? 65279))%N.

Fixpoint trimStart (s : jsstring) : jsstring :=
  match s with
  | c :: s' => if is_ws c then trimStart s' else s
  | [] => []
  end.

Fixpoint trimEnd (s : jsstring) : jsstring :=
  match s with
  | [] => []
  | c :: s' =>
      match trimEnd s' with
      | [] => if is_ws c then [] else [c]
      | t => c :: t
      end
  end.

Definition trim (s : jsstring) : jsstring := trimEnd (trimStart s).

(** [s.split(/\s+/)]: the pieces between the maximal runs of white space.
    The empty string gives one empty piece; a leading or trailing run gives an
    empty first or last piece. *)
Fixpoint split_ws (s : jsstring) : list jsstring :=
  match s with
  | [] => [[]]
  | c :: s' =>
      let r := split_ws s' in
      if is_ws c then
        match s' with
        | c' :: _ => if is_ws c' then r else [] :: r
        | [] => [] :: r
        end
      else
        match r with
        | t :: ts => (c :: t) :: ts
        | [] => [[c]]
        end
  end.

(** [Boolean(s)] for a string: the empty string is falsy. *)
Definition truthy (s : jsstring) : bool :=
  match s with [] => false | _ => true end.

(** [toLowerCase], on the ASCII range.  Code units outside it are left as they
    are: no character outside ASCII lower-cases to one of the letters of
    ['true'], the only string the result is compared with. *)
Definition lower_unit (c : N) : N :=
  if ((65 <=? c) && (c <=? 90))%N then (c + 32)%N else c.

Definition toLowerCase (s : jsstring) : jsstring := lower_unit <$> s.

(** [String(n)] and template interpolation of an integer that a number holds
    exactly (below 2^53 in absolute value): its decimal digits, after a minus
    sign when it is negative.  It is used for such integers only; for larger
    numbers JavaScript writes the shortest digits that give the number back,
    or an exponent. *)
Definition String_of_Z (z : Z) : jsstring := js (pretty z).

(** Digits of a radix, as [parseInt] and numeric literals read them. *)
Definition digit_value (radix : Z) (c : N) : option Z :=
  let v :=
    if ((48 <=? c) && (c <=? 57))%N then Some (Z.of_N c - 48)
    else if ((97 <=? c) && (c <=? 122))%N then Some (Z.of_N c - 87)
    else if ((65 <=? c) && (c <=? 90))%N then Some (Z.of_N c - 55)
    else None in
  match v with
  | Some d => if d <? radix then Some d else None
  | None => None
  end.

Definition is_digit (radix : Z) (c : N) : bool :=
  match digit_value radix c with Some _ => true | None => false end.

Fixpoint take_digits (radix : Z) (s : jsstring) : jsstring * jsstring :=
  match s with
  | c :: s' =>
      if is_digit radix c
      then let '(ds, rest) := take_digits radix s' in (c :: ds, rest)
      else ([], s)
  | [] => ([], [])
  end.

Definition digits_value (radix : Z) (ds : jsstring) : Z :=
  foldl (fun acc c => acc * radix + default 0 (digit_value radix c)) 0 ds.

(** A leading [+] or [-]: the sign and the rest. *)
Definition strip_sign (s : jsstring) : Z * jsstring :=
  match s with
  | c :: s' =>
      if (c =? 45)%N then (-1, s')
      else if (c =? 43)%N then (1, s')
      else (1, s)
  | [] => (1, s)
  end.

(** A JavaScript number as far as the code below can produce one: [NaN], an
    integer below 2^53 in absolute value (which a number holds exactly;
    negative zero is not told from zero), or the value of a numeric literal
    that has a fraction, an exponent, [Infinity] or more digits than that,
    which is fixed by the literal and not evaluated. *)
Inductive JSNumber :=
  | NaN
  | Int (z : Z)
  | Lit (literal : jsstring).

(** The number a literal [t] of the integer [z] stands for. *)
Definition number_of (z : Z) (t : jsstring) : JSNumber :=
  if decide (Z.abs z < 2 ^ 53) then Int z else Lit t.

(** The number nearest to an integer, as the literals and [parseInt] round:
    the integer itself below 2^53 in absolute value; above, the nearest
    multiple of the power of two that leaves 53 bits, the even one of two
    that are equally near (for integers below 2^1024; the larger ones are
    infinite). *)
Definition nearest_double (z : Z) : Z :=
  let a := Z.abs z in
  if a <? 2 ^ 53 then z
  else
    let unit := 2 ^ (Z.log2 a - 52) in
    let q := a `div` unit in
    let r := a `mod` unit in
    let q' :=
      if 2 * r <? unit then q
      else if unit <? 2 * r then q + 1
      else if Z.even q then q else q + 1 in
    Z.sgn z * (q' * unit).

(** ExponentPart, or nothing. *)
Definition exponent_opt (s : jsstring) : bool :=
  match s with
  | [] => true
  | c :: s' =>
      if ((c =? 101) || (c =? 69))%N then
        match take_digits 10 (strip_sign s').2 with
        | (_ :: _, []) => true
        | _ => false
        end
      else false
  end.

(** StrUnsignedDecimalLiteral. *)
Definition is_unsigned_decimal (s : jsstring) : bool :=
  if decide (s = js "Infinity") then true else
  match take_digits 10 s with
  | (ds, c :: rest) =>
      if (c =? 46)%N then
        let '(fs, rest') := take_digits 10 rest in
        (truthy ds || truthy fs) && exponent_opt rest'
      else truthy ds && exponent_opt (c :: rest)
  | (ds, []) => truthy ds
  end.

(** The radix a prefix [0x], [0o] or [0b] announces. *)
Definition prefix_radix (s : jsstring) : option (Z * jsstring) :=
  match s with
  | z :: p :: s' =>
      if (z =? 48)%N then
        if ((p =? 120) || (p =? 88))%N then Some (16, s')
        else if ((p =? 111) || (p =? 79))%N then Some (8, s')
        else if ((p =? 98) || (p =? 66))%N then Some (2, s')
        else None
      else None
  | _ => None
  end.

(** NonDecimalIntegerLiteral: the prefix and at least one digit. *)
Definition radix_literal (s : jsstring) : option Z :=
  match prefix_radix s with
  | Some (r, s') =>
      match take_digits r s' with
      | ((_ :: _) as ds, []) => Some (digits_value r ds)
      | _ => None
      end
  | None => None
  end.

(** The value of a text as a numeric literal (StrNumericLiteral), [NaN] for
    a text that is none. *)
Definition literal_value (t : jsstring) : JSNumber :=
  match radix_literal t with
  | Some z => number_of z t
  | None =>
      let '(sign, u) := strip_sign t in
      match take_digits 10 u with
      | ((_ :: _) as ds, []) => number_of (sign * digits_value 10 ds) t
      | _ => if is_unsigned_decimal u then Lit t else NaN
      end
  end.

(** [Number(s)] for a string (StringToNumber): white space around the text is
    dropped; nothing left is 0. *)
Definition StringToNumber (s : jsstring) : JSNumber :=
  match trim s with
  | [] => Int 0
  | t => literal_value t
  end.

(** [Number(v)] for a value that is a string or [undefined]. *)
Definition Number (v : option jsstring) : JSNumber :=
  match v with
  | Some s => StringToNumber s
  | None => NaN
  end.

(** [parseInt(s)] without a radix: [None] is [NaN].  The integer read is
    rounded to the nearest number (ECMAScript lets an engine approximate
    beyond 20 significant digits). *)
Definition parseInt (s : jsstring) : option Z :=
  let '(sign, u) := strip_sign (trimStart s) in
  let '(radix, u') :=
    match prefix_radix u with
    | Some (16, rest) => (16, rest)
    | _ => (10, u)
    end in
  match take_digits radix u' with
  | ((_ :: _) as ds, _) => Some (nearest_double (sign * digits_value radix ds))
  | _ => None
  end.

(** [parseInt(s) || 0]: [NaN] and [0] are falsy. *)
Definition parseInt_or_0 (s : jsstring) : Z := default 0 (parseInt s).

(** ** Ordered collections: forum categories and homepage banners

    [ForumCategories.tsx] and [HomepageBanners.tsx] run the same code on the
    tables [forum_categories] (position column [sort_order]) and
    [homepage_banners] (position column [order]).  The embedding is written
    once, over the type [A] of the remaining columns, with what differs
    between the two pages as parameters; the names follow
    [ForumCategories.tsx]. *)

Section OrderMaintainer.
Context {A : Type}.

(** A row of the table: [id], the position column, the other columns. *)
Record row := Row { id : string; sort_order : Z; fields : A }.

Definition set_sort_order (v : Z) (r : row) : row :=
  {| id := id r; sort_order := v; fields := fields r |}.

(** What the two pages do differently. *)
Record page_kind := {
  (** the values the form is reset to, except the position (0 on both) *)
  empty_fields : A;
  (** the checks of [handleSubmit] before any request: the message of the
      first one that fails *)
  validate : A -> option string;
  (** whether a failed check goes through [catch] and so to the console *)
  validation_logged : bool;
  (** whether opening the form clears the error text (the text belongs to
      the form in [ForumCategories.tsx], to the page in
      [HomepageBanners.tsx]) *)
  open_clears_error : bool;
  (** the text shown when saving fails *)
  save_failed : PostgrestError -> string;
  (** the text [setError] shows when the list cannot be fetched, if any *)
  fetch_failed : option string;
  (** the text [setError] shows when a move fails, if any *)
  reorder_failed : option string
}.

Variable kind : page_kind.

(** The backend table and the state of the page. *)
Record page := Page {
  table : list row;            (** the rows stored by the backend *)
  categories : list row;       (** the rows the page has loaded *)
  modal_open : bool;
  editing : option string;     (** the id being edited; [None]: create *)
  data : A;                    (** the form, but for the position *)
  data_sort_order : Z;         (** the position field of the form *)
  error : string;              (** the error text on screen *)
  console : list string        (** what [console.error] received *)
}.

Definition set_table (t : list row) (p : page) : page :=
  Page t (categories p) (modal_open p) (editing p) (data p)
       (data_sort_order p) (error p) (console p).

Definition set_categories (c : list row) (p : page) : page :=
  Page (table p) c (modal_open p) (editing p) (data p)
       (data_sort_order p) (error p) (console p).

Definition set_modal (open : bool) (ed : option string) (d : A) (o : Z)
    (p : page) : page :=
  Page (table p) (categories p) open ed d o (error p) (console p).

Definition set_error (e : string) (p : page) : page :=
  Page (table p) (categories p) (modal_open p) (editing p) (data p)
       (data_sort_order p) e (console p).

Definition console_error (e : string) (p : page) : page :=
  Page (table p) (categories p) (modal_open p) (editing p) (data p)
       (data_sort_order p) (error p) (e :: console p).

(** [setError(text)] where the page has that call. *)
Definition show (text : option string) (p : page) : page :=
  match text with
  | Some t => set_error t p
  | None => p
  end.

(** *** The backend *)

(** [.update({sort_order: v}).eq('id', i)] *)
Definition update_sort_order (v : Z) (i : string) (t : list row) : list row :=
  (fun r => if decide (id r = i) then set_sort_order v r else r) <$> t.

(** [.update({...all columns...}).eq('id', i)] *)
Definition update_row (d : A) (v : Z) (i : string) (t : list row) : list row :=
  (fun r => if decide (id r = i) then Row i v d else r) <$> t.

(** [.select('*').order('sort_order')]: the rows by ascending position (rows
    of equal position in the order the sort leaves them; the backend promises
    none). *)
Definition by_sort_order (a b : row) : Prop := sort_order a <= sort_order b.

#[local] Instance by_sort_order_dec (a b : row) : Decision (by_sort_order a b).
Proof. unfold by_sort_order. apply _. Defined.

Definition select_ordered (t : list row) : list row :=
  merge_sort by_sort_order t.

(** A request that changes the table, with its response. *)
Definition request (response : option PostgrestError)
    (change : list row -> list row) (p : page) : page :=
  match response with
  | None => set_table (change (table p)) p
  | Some _ => p
  end.

(** *** The page *)

Definition fetchCategories (response : option PostgrestError) (p : page) : page :=
  match response with
  | None => set_categories (select_ordered (table p)) p
  | Some e => show (fetch_failed kind) (console_error e p)
  end.

(** The responses to the requests of one move: the two updates and the
    refetch. *)
Record move_responses := {
  error1 : option PostgrestError;
  error2 : option PostgrestError;
  refetch : option PostgrestError
}.

(** The [catch] block of the two move handlers. *)
Definition catch_move (e : PostgrestError) (p : page) : page :=
  show (reorder_failed kind) (console_error e p).

Definition handleMoveUp (i : string) (currentOrder : Z) (rs : move_responses)
    (p : page) : page :=
  match List.find (fun c => sort_order c =? currentOrder - 1) (categories p) with
  | None => p
  | Some prevCategory =>
      let p := request (error1 rs)
                 (update_sort_order currentOrder (id prevCategory)) p in
      let p := request (error2 rs)
                 (update_sort_order (currentOrder - 1) i) p in
      match error1 rs, error2 rs with
      | Some e, _ => catch_move e p
      | None, Some e => catch_move e p
      | None, None => fetchCategories (refetch rs) p
      end
  end.

Definition handleMoveDown (i : string) (currentOrder : Z) (rs : move_responses)
    (p : page) : page :=
  match List.find (fun c => sort_order c =? currentOrder + 1) (categories p) with
  | None => p
  | Some nextCategory =>
      let p := request (error1 rs)
                 (update_sort_order currentOrder (id nextCategory)) p in
      let p := request (error2 rs)
                 (update_sort_order (currentOrder + 1) i) p in
      match error1 rs, error2 rs with
      | Some e, _ => catch_move e p
      | None, Some e => catch_move e p
      | None, None => fetchCategories (refetch rs) p
      end
  end.

(** The two handlers differ in the direction only: [handleMoveUp] is
    [handleMove (-1)] and [handleMoveDown] is [handleMove 1] (used in the
    proofs to treat both at once). *)
Definition handleMove (direction : Z) (i : string) (currentOrder : Z)
    (rs : move_responses) (p : page) : page :=
  match List.find (fun c => sort_order c =? currentOrder + direction) (categories p) with
  | None => p
  | Some neighbour =>
      let p := request (error1 rs)
                 (update_sort_order currentOrder (id neighbour)) p in
      let p := request (error2 rs)
                 (update_sort_order (currentOrder + direction) i) p in
      match error1 rs, error2 rs with
      | Some e, _ => catch_move e p
      | None, Some e => catch_move e p
      | None, None => fetchCategories (refetch rs) p
      end
  end.

(** The two updates of a move, when both are applied: the positions [v1] and
    [v2] go to the rows with ids [j] and [i]. *)
Definition exchange (i : string) (v2 : Z) (j : string) (v1 : Z) (x : row) : row :=
  if decide (id x = i) then set_sort_order v2 x
  else if decide (id x = j) then set_sort_order v1 x
  else x.

(** The table [t'] is the table [t] with the positions of the rows [r] and
    [q] exchanged: same rows in the same places, every column of every row as
    it was but for the position of these two. *)
Definition positions_exchanged (t t' : list row) (r q : row) : Prop :=
  length t' = length t /\
  forall n x, t !! n = Some x ->
    exists x', t' !! n = Some x' /\ id x' = id x /\ fields x' = fields x
      /\ sort_order x' = (if decide (id x = id r) then sort_order q
                          else if decide (id x = id q) then sort_order r
                          else sort_order x).

(** The arrow buttons of the row of [category] in the rendered table: the
    handler receives the id and the position the page has loaded; a
    disabled button does nothing. *)
Definition clickMoveUp (category : row) (rs : move_responses) (p : page) : page :=
  if sort_order category =? 0 then p
  else handleMoveUp (id category) (sort_order category) rs p.

Definition clickMoveDown (category : row) (rs : move_responses) (p : page) : page :=
  if sort_order category =? Z.of_nat (length (categories p)) - 1 then p
  else handleMoveDown (id category) (sort_order category) rs p.

(** The buttons of the record with id [i], where the page shows one. *)
Definition moveUp (i : string) (rs : move_responses) (p : page) : page :=
  match List.find (fun c => bool_decide (id c = i)) (categories p) with
  | Some category => clickMoveUp category rs p
  | None => p
  end.

Definition moveDown (i : string) (rs : move_responses) (p : page) : page :=
  match List.find (fun c => bool_decide (id c = i)) (categories p) with
  | Some category => clickMoveDown category rs p
  | None => p
  end.

(** The "add" button: the form opens for a new record, its position field
    filled with the number of loaded rows. *)
Definition openCreate (p : page) : page :=
  set_modal true None (empty_fields kind)
    (Z.of_nat (length (categories p)))
    (if open_clears_error kind then set_error "" p else p).

(** The edit button of a row. *)
Definition handleEdit (category : row) (p : page) : page :=
  set_modal true (Some (id category)) (fields category)
    (sort_order category)
    (if open_clears_error kind then set_error "" p else p).

(** What the operator does in the open form: change one of the other
    fields, or type into the position field
    ([sort_order: parseInt(e.target.value) || 0]). *)
Inductive input :=
  | InputField (change : A -> A)
  | InputSortOrder (value : jsstring).

Definition onChange (ev : input) (p : page) : page :=
  match ev with
  | InputField change =>
      set_modal (modal_open p) (editing p) (change (data p))
        (data_sort_order p) p
  | InputSortOrder value =>
      set_modal (modal_open p) (editing p) (data p) (parseInt_or_0 value) p
  end.

(** The inputs of the operator, in the order they are made. *)
Definition fill (evs : list input) (p : page) : page :=
  foldl (fun p ev => onChange ev p) p evs.

(** An input that is not typed into the position field. *)
Definition is_field_input (ev : input) : bool :=
  match ev with
  | InputField _ => true
  | InputSortOrder _ => false
  end.

(** The response to an insert: the error, or the id the backend gave the
    new row. *)
Definition insert_row (response : PostgrestError + string) (d : A) (v : Z)
    (p : page) : page :=
  match response with
  | inr new_id => set_table (table p ++ [Row new_id v d]) p
  | inl _ => p
  end.

Record submit_responses := {
  inserted : PostgrestError + string;   (** used when creating *)
  updated : option PostgrestError;      (** used when editing *)
  refetched : option PostgrestError
}.

Definition catch_save (e : PostgrestError) (p : page) : page :=
  set_error (save_failed kind e) (console_error e p).

(** The end of a successful submit: the form is reset and closed, the list
    is fetched again. *)
Definition saved (response : option PostgrestError) (p : page) : page :=
  fetchCategories response (set_modal false None (empty_fields kind) 0 p).

Definition handleSubmit (rs : submit_responses) (p : page) : page :=
  let p := set_error "" p in
  match validate kind (data p) with
  | Some message =>
      set_error message
        (if validation_logged kind then console_error message p else p)
  | None =>
      match editing p with
      | None =>
          match inserted rs with
          | inl e => catch_save e p
          | inr _ =>
              saved (refetched rs)
                (insert_row (inserted rs) (data p) (data_sort_order p) p)
          end
      | Some i =>
          match updated rs with
          | Some e => catch_save e p
          | None =>
              saved (refetched rs)
                (set_table (update_row (data p) (data_sort_order p) i (table p)) p)
          end
      end
  end.

(** *** The invariant of the position column *)

(** The positions are the numbers 0 .. N-1, each once. *)
Definition dense (t : list row) : Prop :=
  sort_order <$> t ≡ₚ Z.of_nat <$> seq 0 (length t).

(** The page shows the rows the backend holds. *)
Definition loaded (p : page) : Prop := categories p ≡ₚ table p.

End OrderMaintainer.

Arguments row : clear implicits.
Arguments page : clear implicits.
Arguments page_kind : clear implicits.
Arguments input : clear implicits.

(** *** The two pages *)

Module ForumCategories.

(** The columns of [forum_categories] other than [id] and [sort_order]. *)
Record fields := {
  name : jsstring;
  description : jsstring;
  icon : jsstring;
  is_active : bool
}.

Abbreviation ForumCategory := (row fields).

(** [handleSubmit]: the two checks that throw before any request. *)
Definition checks (d : fields) : option string :=
  if negb (truthy (trim (name d))) then Some "分类名称不能为空"
  else if negb (truthy (trim (description d))) then Some "分类描述不能为空"
  else None.

(** [error instanceof Error ? error.message : '保存分类失败']; whether the
    error object of a response is an [Error] depends on the client library. *)
Definition save_message (response_error_is_Error : bool) (e : PostgrestError) : string :=
  if response_error_is_Error then e else "保存分类失败".

Definition kind (response_error_is_Error : bool) : page_kind fields := {|
  empty_fields :=
    {| name := []; description := []; icon := js "message-square";
       is_active := true |};
  validate := checks;
  validation_logged := true;
  open_clears_error := true;
  save_failed := save_message response_error_is_Error;
  fetch_failed := None;
  reorder_failed := None
|}.

End ForumCategories.

Module HomepageBanners.

(** The columns of [homepage_banners] that the page reads or writes, other
    than [id] and [order] ([created_at] is filled in by the backend and never
    used). *)
Record fields := {
  image_url : jsstring;
  title : jsstring;
  link_url : jsstring;
  is_active : bool
}.

Abbreviation Banner := (row fields).

(** [handleSubmit]: the three checks that return before any request. *)
Definition checks (d : fields) : option string :=
  if negb (truthy (image_url d)) then Some "请上传图片"
  else if negb (truthy (trim (title d))) then Some "请输入标题"
  else if negb (truthy (trim (link_url d))) then Some "请输入链接URL"
  else None.

Definition kind : page_kind fields := {|
  empty_fields :=
    {| image_url := []; title := []; link_url := []; is_active := true |};
  validate := checks;
  validation_logged := false;
  open_clears_error := false;
  save_failed := fun _ => "保存轮播图失败";
  fetch_failed := Some "获取轮播图数据失败";
  reorder_failed := Some "重新排序轮播图失败"
|}.

End HomepageBanners.

(** ** Daily traffic statistics ([AdminTrafficStats.fetchStats]) *)

Module TrafficStats.

(** An instant is its number of milliseconds since the epoch
    ([Date.prototype.getTime]). *)
Definition DAY : Z := 86400000.
Definition HOUR : Z := 3600000.

(** [d.setDate(d.getDate() + n)], as ECMAScript defines it over the offset
    [LocalTZA(t, isUTC)] of the time zone of the browser: the local time of
    the instant ([LocalTime]) is moved by [n] days, its time of day kept
    ([MakeDay], [MakeDate]), and read back as an instant ([UTC]). *)
Definition setDate_by (LocalTZA : Z -> bool -> Z) (n t : Z) : Z :=
  let local := t + LocalTZA t true in
  let newDate := local + n * DAY in
  newDate - LocalTZA newDate false.

(** A time zone: its offset from UTC in milliseconds, at an instant ([isUTC]
    true) or at a local time ([isUTC] false).  The offset is taken to change
    by less than 23 hours from one day to the next, so that the same time of
    the next day is at least an hour later. *)
Record TimeZone := {
  LocalTZA : Z -> bool -> Z;
  next_day_later : forall t, t + HOUR <= setDate_by LocalTZA 1 t
}.

Definition setDate_plus (tz : TimeZone) (n t : Z) : Z :=
  setDate_by (LocalTZA tz) n t.

(** A zone at a fixed offset from UTC. *)
Definition fixed (offset : Z) : TimeZone.
Proof.
  refine {| LocalTZA := fun _ _ => offset |}.
  abstract (intros t; unfold setDate_by, HOUR, DAY; lia).
Defined.

Definition utc : TimeZone := fixed 0.

(** America/New_York around the end of daylight saving time in 2023: four
    hours behind UTC until 2023-11-05T06:00Z, five hours from then on.  A
    local time of the repeated hour is read with the earlier offset. *)
Definition new_york_2023 : TimeZone.
Proof.
  refine {| LocalTZA := fun t isUTC =>
              if isUTC
              then (if t <? 1699164000000 then -4 * HOUR else -5 * HOUR)
              else (if t <? 1699149600000 then -4 * HOUR else -5 * HOUR) |}.
  abstract (intros t; unfold setDate_by, HOUR, DAY;
            repeat (match goal with |- context [?a <? ?b] =>
                      destruct (Z.ltb_spec a b) end); lia).
Defined.

(** [d.toISOString().split('T')[0]]: the UTC calendar day of an instant.  The
    text [YYYY-MM-DD] is represented by the number of the day, counted from
    the epoch; for the years 0000 to 9999 [localeCompare] orders the texts as
    [<=] orders the numbers. *)
Definition dateStr (d : Z) : Z := d `div` DAY.

(** A row of [user_login_logs], as selected. *)
Record log := { logged_in_at : Z; user_id : string }.

Record DailyStats := { date : Z; visits : nat; unique_users : nat }.

(** A value of the map [dailyStats]: [{ visits: number; users: Set<string> }]. *)
Record dayStats := { day_visits : nat; users : gset string }.

(** The map [dailyStats] is a [gmap]: the order in which a JavaScript [Map]
    lists its entries plays no role, since the entries have distinct dates and
    are sorted by date before they are used. *)

(** [for (let d = new Date(startDate); d <= endDate; d.setDate(d.getDate() + 1))]
    with the body [dailyStats.set(dateStr, { visits: 0, users: new Set() })]. *)
Equations? init_days (tz : TimeZone) (endDate d : Z) (dailyStats : gmap Z dayStats)
  : gmap Z dayStats by wf (Z.to_nat ((endDate - d) `div` HOUR + 1)) lt :=
  init_days tz endDate d dailyStats with decide (d <= endDate) => {
    | left _ =>
        init_days tz endDate (setDate_plus tz 1 d)
          (<[dateStr d := {| day_visits := 0; users := ∅ |}]> dailyStats);
    | right _ => dailyStats }.
Proof.
  pose proof (next_day_later tz d) as Hnext. unfold setDate_plus.
  assert ((endDate - setDate_by (LocalTZA tz) 1 d) `div` HOUR
          <= (endDate - d + -1 * HOUR) `div` HOUR) as Hle
    by (apply Z.div_le_mono; [done|lia]).
  rewrite Z.div_add in Hle by done.
  assert (0 <= (endDate - d) `div` HOUR) by (apply Z.div_pos; [lia | done]).
  lia.
Qed.

(** The body of [loginLogs.forEach]. *)
Definition count_log (dailyStats : gmap Z dayStats) (l : log) : gmap Z dayStats :=
  let dateStr := dateStr (logged_in_at l) in
  match dailyStats !! dateStr with
  | Some s =>
      <[dateStr := {| day_visits := S (day_visits s);
                      users := {[user_id l]} ∪ users s |}]> dailyStats
  | None => dailyStats
  end.

Definition by_date (a b : DailyStats) : Prop := date a <= date b.

#[global] Instance by_date_dec (a b : DailyStats) : Decision (by_date a b).
Proof. unfold by_date. apply _. Defined.

Definition to_stats (e : Z * dayStats) : DailyStats :=
  {| date := e.1; visits := day_visits e.2; unique_users := size (users e.2) |}.

(** Lines 99 to 122: from the two ends of the range and the selected logs
    ([null] when the response carries no rows) to [processedStats]. *)
Definition processLogs (tz : TimeZone) (startDate endDate : Z)
    (loginLogs : option (list log)) : list DailyStats :=
  let dailyStats := init_days tz endDate startDate ∅ in
  let dailyStats := foldl count_log dailyStats (default [] loginLogs) in
  merge_sort by_date (to_stats <$> map_to_list dailyStats).

(** The response to the select on [user_login_logs]. *)
Record select_response := {
  data : option (list log);
  error : option PostgrestError
}.

(** What [fetchStats] leaves on the page: the statistics or the error text. *)
Inductive outcome :=
  | setStats (processedStats : list DailyStats)
  | setError (message : string).

(** [fetchStats] from the point where [startDate] and [endDate] are known. *)
Definition aggregate (tz : TimeZone) (startDate endDate : Z)
    (response : select_response) : outcome :=
  match error response with
  | Some logsError => setError "加载统计数据失败"
  | None => setStats (processLogs tz startDate endDate (data response))
  end.

Inductive timeRange := range_7d | range_30d.

Definition range_days (r : timeRange) : Z :=
  match r with range_7d => 7 | range_30d => 30 end.

(** [fetchStats]: [now1] and [now2] are the instants read by the two
    [new Date()], in this order ([endDate] first, then [startDate], which
    [startDate.setDate(startDate.getDate() - n)] then moves back). *)
Definition fetchStats (tz : TimeZone) (now1 now2 : Z) (r : timeRange)
    (response : select_response) : outcome :=
  let endDate := now1 in
  let startDate := setDate_plus tz (- range_days r) now2 in
  aggregate tz startDate endDate response.

(** The instants [d] is in the loop over the days, in order. *)
Equations? loop_instants (tz : TimeZone) (endDate d : Z) : list Z
  by wf (Z.to_nat ((endDate - d) `div` HOUR + 1)) lt :=
  loop_instants tz endDate d with decide (d <= endDate) => {
    | left _ => d :: loop_instants tz endDate (setDate_plus tz 1 d);
    | right _ => [] }.
Proof.
  pose proof (next_day_later tz d) as Hnext. unfold setDate_plus.
  assert ((endDate - setDate_by (LocalTZA tz) 1 d) `div` HOUR
          <= (endDate - d + -1 * HOUR) `div` HOUR) as Hle
    by (apply Z.div_le_mono; [done|lia]).
  rewrite Z.div_add in Hle by done.
  assert (0 <= (endDate - d) `div` HOUR) by (apply Z.div_pos; [lia | done]).
  lia.
Qed.

(** The days the loop initialises, each once. *)
Definition init_dates (tz : TimeZone) (startDate endDate : Z) : list Z :=
  remove_dups (dateStr <$> loop_instants tz endDate startDate).

(** The same, said without the loop: the day of the instant reached from
    [startDate] by moving to the next day some number of times without
    passing [endDate]. *)
Definition initialised (tz : TimeZone) (startDate endDate day : Z) : Prop :=
  exists k : nat,
    Nat.iter k (setDate_plus tz 1) startDate <= endDate
    /\ day = dateStr (Nat.iter k (setDate_plus tz 1) startDate).

(** In a zone at a fixed offset the loop moves by 24 hours: the number of
    its rounds and the days it initialises. *)
Definition steps (startDate endDate : Z) : nat :=
  if decide (startDate <= endDate)
  then S (Z.to_nat ((endDate - startDate) `div` DAY))
  else 0%nat.

Definition consecutive_dates (startDate endDate : Z) : list Z :=
  (fun i => dateStr startDate + Z.of_nat i) <$> seq 0 (steps startDate endDate).

(** The number of calendar days from the day of [startDate] to the day of
    [endDate], both included. *)
Definition inclusive_days (startDate endDate : Z) : Z :=
  dateStr endDate - dateStr startDate + 1.

(** The logs of a day, their number and their distinct users. *)
Definition logs_on (day : Z) (logs : list log) : list log :=
  filter (fun l => dateStr (logged_in_at l) = day) logs.

Definition users_on (day : Z) (logs : list log) : gset string :=
  list_to_set (user_id <$> logs_on day logs).

(** The bucket of a day, from the logs. *)
Definition bucket (logs : list log) (day : Z) : DailyStats :=
  {| date := day;
     visits := length (logs_on day logs);
     unique_users := size (users_on day logs) |}.

Definition no_visit : dayStats := {| day_visits := 0; users := ∅ |}.

(** The logs whose day is one of the initialised days. *)
Definition logs_in_range (tz : TimeZone) (startDate endDate : Z)
    (logs : list log) : list log :=
  filter (fun l => dateStr (logged_in_at l) ∈ init_dates tz startDate endDate) logs.

End TrafficStats.

(** ** The chapter CSV import ([handleCSVImport] of [Chapters.tsx]) *)

Module Chapters.

(** A row of [results.data].  With [header: true] the parser returns one
    object per line, keyed by the names of the header line; its values are
    strings, and a field the line does not have is [undefined] ([None]). *)
Record csv_row := {
  row_order : option jsstring;
  row_title : option jsstring;
  row_content : option jsstring;
  row_is_vip : option jsstring;
  row_publish_at : option jsstring
}.

(** A record sent to [chapters]; [publish_at] is [None] for [null]. *)
Record chapter := {
  book_id : string;
  order : JSNumber;
  title : jsstring;
  content : jsstring;
  is_vip : bool;
  publish_at : option jsstring;
  word_count : nat
}.

(** [String(v)] *)
Definition String_ (v : option jsstring) : jsstring :=
  match v with
  | Some s => s
  | None => js "undefined"
  end.

(** [v || d] for a string or [undefined] on the left. *)
Definition or_else {B : Type} (v : option jsstring) (some : jsstring -> B) (d : B) : B :=
  match v with
  | Some s => if truthy s then some s else d
  | None => d
  end.

(** The text [章节]. *)
Definition chapter_prefix : jsstring := [31456; 33410]%N.

(** The callback of [results.data.map]. *)
Definition import_row (selectedBookId : string) (index : nat) (row : csv_row) : chapter :=
  let content := or_else (row_content row) (fun s => s) [] in
  let wordCount := length (List.filter truthy (split_ws (trim content))) in
  {| book_id := selectedBookId;
     order := Number (row_order row);
     title := or_else (trim <$> row_title row) (fun s => s)
                (chapter_prefix ++ js " " ++ String_of_Z (Z.of_nat index + 1));
     content := content;
     is_vip := bool_decide (toLowerCase (String_ (row_is_vip row)) = js "true");
     publish_at := or_else (row_publish_at row) Some None;
     word_count := wordCount |}.

(** [handleCSVImport], up to the insert: the records sent to the backend, or
    nothing when no book is selected. *)
Definition handleCSVImport (selectedBookId : string) (results_data : list csv_row)
  : option (list chapter) :=
  if decide (selectedBookId = "") then None
  else Some (imap (import_row selectedBookId) results_data).

(** The words of a text, as the specification counts them: the maximal runs
    of characters that are not white space. *)
Fixpoint count_tokens (after_ws : bool) (s : jsstring) : nat :=
  match s with
  | [] => 0
  | c :: s' =>
      if is_ws c then count_tokens true s'
      else ((if after_ws then 1 else 0) + count_tokens false s')%nat
  end.

(** Equal to ["true"] up to the case of the letters. *)
Definition is_true_ignoring_case (s : jsstring) : Prop :=
  exists t r u e : N,
    s = [t; r; u; e] /\ (t = 116 \/ t = 84)%N /\ (r = 114 \/ r = 82)%N
    /\ (u = 117 \/ u = 85)%N /\ (e = 101 \/ e = 69)%N.

End Chapters.

(** ** The coin transaction export ([AdminCoins.exportToCSV]) *)

Module Coins.

Record user_profile := { username : jsstring }.

Record CoinTransaction := {
  id : string;
  amount : Z;
  type : jsstring;
  description : jsstring;
  created_at : string;
  user : user_profile
}.

(** [typeLabels]: 充值, 解锁, 打赏, 系统赠送, the four keys the object has of
    its own. *)
Definition typeLabels : gmap jsstring jsstring :=
  list_to_map
    [ (js "recharge", [20805; 20540]%N); (js "unlock", [35299; 38145]%N);
      (js "gift", [25171; 36175]%N);
      (js "system", [31995; 32479; 36192; 36865]%N) ].

(** The values of a [csvData] object: strings, numbers, and what a lookup in
    [typeLabels] can find besides a label, a function or an object, which is
    represented by the text [String] gives for it. *)
Inductive value :=
  | VString (s : jsstring)
  | VNumber (n : Z)
  | VObject (text : jsstring).

(** [typeof value === 'string'] *)
Definition is_string (v : value) : bool :=
  match v with VString _ => true | _ => false end.

(** [Boolean(v)] *)
Definition truthy_value (v : value) : bool :=
  match v with
  | VString s => truthy s
  | VNumber n => negb (n =? 0)
  | VObject _ => true
  end.

(** The conversion [Array.prototype.join] applies to an element. *)
Definition ToString (v : value) : jsstring :=
  match v with
  | VString s => s
  | VNumber n => String_of_Z n
  | VObject text => text
  end.

(** [Array.prototype.join] *)
Fixpoint join (sep : jsstring) (l : list jsstring) : jsstring :=
  match l with
  | [] => []
  | [x] => x
  | x :: l' => x ++ sep ++ join sep l'
  end.

(** The code unit of the double quote. *)
Definition quote : N := 34%N.

(** [s.replace(/Q/g, 'QQ')], where Q is the double quote: every double quote
    is doubled. *)
Definition double_quotes (s : jsstring) : jsstring :=
  flat_map (fun c => if (c =? quote)%N then [quote; quote] else [c]) s.

Section CsvText.

(** [new Date(created_at).toLocaleString()]: set by the locale and the time
    zone of the browser. *)
Variable toLocaleString : string -> jsstring.

(** What [typeLabels] inherits from [Object.prototype] under a name
    ([constructor], [toString], [__proto__] and the like), if anything:
    which names and which values is up to the engine and the page. *)
Variable inherited : jsstring -> option value.

(** [typeLabels[k]]: the label when [k] is one of the four keys, and
    otherwise what the object inherits under that name. *)
Definition typeLabels_at (k : jsstring) : option value :=
  match typeLabels !! k with
  | Some label => Some (VString label)
  | None => inherited k
  end.

(** [typeLabels[transaction.type] || transaction.type] *)
Definition exported_type (transaction : CoinTransaction) : value :=
  match typeLabels_at (type transaction) with
  | Some v => if truthy_value v then v else VString (type transaction)
  | None => VString (type transaction)
  end.

(** An object of [csvData], as the list of its keys and values in the order
    they are written ([Object.keys] and [Object.values] follow it). *)
Definition csv_object (transaction : CoinTransaction) : list (jsstring * value) :=
  [ (js "Username", VString (username (user transaction)));
    (js "Amount", VNumber (amount transaction));
    (js "Type", exported_type transaction);
    (js "Description", VString (description transaction));
    (js "Transaction Date", VString (toLocaleString (created_at transaction))) ].

(** The callback applied to the values of a row: a string has its double
    quotes doubled and is put between double quotes, any other value is kept
    ([typeof value === 'string' ? ... : value]). *)
Definition cell (v : value) : value :=
  match v with
  | VString s => VString ([quote] ++ double_quotes s ++ [quote])
  | _ => v
  end.

(** Lines 176 to 190: from [data] ([None] for [null]) to the text [csv]. *)
Definition to_csv (data : option (list CoinTransaction)) : jsstring :=
  let csvData := fmap csv_object <$> data in
  let headers :=
    join (js ",") (fst <$> default [] (csvData ≫= head)) in
  let rows :=
    fmap (fun row => join (js ",") (ToString ∘ cell <$> (snd <$> row))) <$> csvData in
  join [10%N] (headers :: default [] rows).


End CsvText.

(** *** The format, as the specification describes it *)

(** A text with each of its double quotes doubled. *)
Fixpoint escape (s : jsstring) : jsstring :=
  match s with
  | [] => []
  | c :: s' => if (c =? 34)%N then 34%N :: 34%N :: escape s' else c :: escape s'
  end.

(** A string field: between double quotes, its own double quotes doubled. *)
Definition quoted (s : jsstring) : jsstring := [34%N] ++ escape s ++ [34%N].

(** A field: a string is quoted, any other value is written as it is. *)
Definition field (v : value) : jsstring :=
  match v with
  | VString s => quoted s
  | VNumber n => String_of_Z n
  | VObject text => text
  end.

(** A line: the five fields with commas between them. *)
Definition line (toLocaleString : string -> jsstring)
    (inherited : jsstring -> option value) (t : CoinTransaction) : jsstring :=
  quoted (username (user t)) ++ [44%N] ++ String_of_Z (amount t) ++ [44%N]
  ++ field (exported_type inherited t) ++ [44%N]
  ++ quoted (description t) ++ [44%N]
  ++ quoted (toLocaleString (created_at t)).



End Coins.

(** ** Sample data *)

Module Samples.

Definition category (i : string) (position : Z) : ForumCategories.ForumCategory :=
  Row i position
    {| ForumCategories.name := js "General";
       ForumCategories.description := js "Talk";
       ForumCategories.icon := js "users";
       ForumCategories.is_active := true |}.

Definition banner (i : string) (position : Z) : HomepageBanners.Banner :=
  Row i position
    {| HomepageBanners.image_url := js "https://cdn.example/a.png";
       HomepageBanners.title := js "Spring";
       HomepageBanners.link_url := js "/spring";
       HomepageBanners.is_active := true |}.

(** A page that has just loaded its table, the form closed. *)
Definition loaded_page {A : Type} (rows : list (row A)) (form : A) : page A :=
  Page rows rows false None form 0 "" [].

Definition forum : page ForumCategories.fields :=
  loaded_page [category "a" 0; category "b" 1; category "c" 2]
    (empty_fields (ForumCategories.kind true)).

Definition banners : page HomepageBanners.fields :=
  loaded_page [banner "a" 0; banner "b" 1; banner "c" 2]
    (empty_fields HomepageBanners.kind).

Definition accepted : move_responses :=
  {| error1 := None; error2 := None; refetch := None |}.

Definition first_rejected : move_responses :=
  {| error1 := Some "row is locked"; error2 := None; refetch := None |}.

(** The operator fills in a new category and types 0 into the position
    field. *)
Definition new_category : ForumCategories.fields :=
  {| ForumCategories.name := js "News";
     ForumCategories.description := js "Announcements";
     ForumCategories.icon := js "message-square";
     ForumCategories.is_active := true |}.

Definition typed_first : list (input ForumCategories.fields) :=
  [InputField (fun _ => new_category); InputSortOrder (js "0")].

(** The operator fills in a new banner and leaves the position field. *)
Definition new_banner : HomepageBanners.fields :=
  {| HomepageBanners.image_url := js "https://cdn.example/b.png";
     HomepageBanners.title := js "Summer";
     HomepageBanners.link_url := js "/summer";
     HomepageBanners.is_active := true |}.

Definition typed_fields : list (input HomepageBanners.fields) :=
  [InputField (fun _ => new_banner)].

Definition insert_accepted : submit_responses :=
  {| inserted := inr "d"; updated := None; refetched := None |}.

End Samples.

(** More answers of the backend to the two updates of a move. *)
Module MoveSamples.

Definition second_rejected : move_responses :=
  {| error1 := None; error2 := Some "row is locked"; refetch := None |}.

Definition both_rejected : move_responses :=
  {| error1 := Some "first is locked"; error2 := Some "second is locked";
     refetch := None |}.

End MoveSamples.

(** ** The other actions of the two pages

    Deleting a row and switching it on and off, on the same tables and page
    state as above. *)

Section OrderMaintainerActions.
Context {A : Type}.

(** What these actions need of a page, besides its [page_kind]. *)
Record row_actions := {
  (** the column [is_active] *)
  get_is_active : A -> bool;
  set_is_active : bool -> A -> A;
  (** the text [setError] shows when a delete fails, if any
      ([ForumCategories.tsx] raises an alert instead) *)
  delete_failed : option string;
  (** the text [setError] shows when the switch fails, if any *)
  toggle_failed : option string
}.

Variable kind : page_kind A.
Variable actions : row_actions.

(** [.delete().eq('id', i)] *)
Definition delete_row (i : string) (t : list (row A)) : list (row A) :=
  filter (fun r => id r <> i) t.

(** [.update({is_active: b}).eq('id', i)] *)
Definition update_is_active (b : bool) (i : string) (t : list (row A))
  : list (row A) :=
  (fun r => if decide (id r = i)
            then Row (id r) (sort_order r) (set_is_active actions b (fields r))
            else r) <$> t.

(** [handleDelete], once the operator has confirmed (the dialog of
    [ForumCategories.tsx], the confirmation window of
    [HomepageBanners.tsx]).  The notice of success that
    [HomepageBanners.tsx] shows is not part of the page state here. *)
Definition handleDelete (i : string) (response refetch : option PostgrestError)
    (p : page A) : page A :=
  match response with
  | Some e => show (delete_failed actions) (console_error e p)
  | None => fetchCategories kind refetch (set_table (delete_row i (table p)) p)
  end.

(** The delete button and the answer to the question it asks. *)
Definition clickDelete (confirmed : bool) (i : string)
    (response refetch : option PostgrestError) (p : page A) : page A :=
  if confirmed then handleDelete i response refetch p else p.

Definition handleToggleActive (i : string) (currentStatus : bool)
    (response refetch : option PostgrestError) (p : page A) : page A :=
  match response with
  | Some e => show (toggle_failed actions) (console_error e p)
  | None =>
      fetchCategories kind refetch
        (set_table (update_is_active (negb currentStatus) i (table p)) p)
  end.

(** The switch of the record with id [i], where the page shows one: the
    handler receives the id and the state the page has loaded. *)
Definition toggle (i : string) (response refetch : option PostgrestError)
    (p : page A) : page A :=
  match List.find (fun c => bool_decide (id c = i)) (categories p) with
  | Some category =>
      handleToggleActive (id category) (get_is_active actions (fields category))
        response refetch p
  | None => p
  end.

(** A press on one of the two arrows of a record. *)
Inductive press :=
  | PressUp (i : string) (rs : move_responses)
  | PressDown (i : string) (rs : move_responses).

Definition do_press (pr : press) (p : page A) : page A :=
  match pr with
  | PressUp i rs => moveUp kind i rs p
  | PressDown i rs => moveDown kind i rs p
  end.

Definition responses_of (pr : press) : move_responses :=
  match pr with PressUp _ rs | PressDown _ rs => rs end.

(** The backend accepts the two updates and the refetch. *)
Definition all_accepted (rs : move_responses) : Prop :=
  error1 rs = None /\ error2 rs = None /\ refetch rs = None.

(** The table has distinct ids and positions 0 .. N-1, each once, and the
    page shows its rows. *)
Definition consistent (p : page A) : Prop :=
  NoDup (id <$> table p) /\ dense (table p) /\ loaded p.

(** The rows of a table without their positions. *)
Definition unordered (t : list (row A)) : list (string * A) :=
  (fun x => (id x, fields x)) <$> t.

End OrderMaintainerActions.

Arguments row_actions : clear implicits.

Module ForumCategoriesActions.

Definition actions : row_actions ForumCategories.fields := {|
  get_is_active := ForumCategories.is_active;
  set_is_active := fun b d =>
    {| ForumCategories.name := ForumCategories.name d;
       ForumCategories.description := ForumCategories.description d;
       ForumCategories.icon := ForumCategories.icon d;
       ForumCategories.is_active := b |};
  delete_failed := None;
  toggle_failed := None
|}.

End ForumCategoriesActions.

Module HomepageBannersActions.

Definition actions : row_actions HomepageBanners.fields := {|
  get_is_active := HomepageBanners.is_active;
  set_is_active := fun b d =>
    {| HomepageBanners.image_url := HomepageBanners.image_url d;
       HomepageBanners.title := HomepageBanners.title d;
       HomepageBanners.link_url := HomepageBanners.link_url d;
       HomepageBanners.is_active := b |};
  delete_failed := Some "删除轮播图失败";
  toggle_failed := Some "更新轮播图状态失败"
|}.

End HomepageBannersActions.

(** ** The traffic page around [fetchStats] *)

Module TrafficPage.
Import TrafficStats.

#[global] Instance timeRange_eq_dec : EqDecision timeRange.
Proof. solve_decision. Defined.

(** The two totals above the chart:
    [stats.reduce((sum, stat) => sum + stat.visits, 0)] and the same with
    [unique_users]. *)
Definition totalVisits (stats : list DailyStats) : nat :=
  foldl (fun sum stat => (sum + visits stat)%nat) 0%nat stats.

Definition totalUniqueUsers (stats : list DailyStats) : nat :=
  foldl (fun sum stat => (sum + unique_users stat)%nat) 0%nat stats.

(** The state of the component, with the call of [fetchStats] that awaits
    its response, if any (the two readings of the clock and the range it was
    called with), and the number of calls made so far. *)
Record component := {
  loading : bool;
  error_text : string;
  stats : list DailyStats;
  range : timeRange;
  navigated : option string;
  awaiting : option (Z * Z * timeRange);
  calls : nat
}.

(** The state after the first render: [useState(true)], [useState('')],
    [useState([])], [useState('7d')]. *)
Definition initial : component :=
  {| loading := true; error_text := ""; stats := []; range := range_7d;
     navigated := None; awaiting := None; calls := 0 |}.

(** What [checkAdmin] finds: no user, the profile of the user ([None] when
    there is none) with its role, or an exception. *)
Inductive admin_check :=
  | NoUser
  | Profile (role : option string)
  | CheckThrows.

Definition checkAdmin (found : admin_check) (c : component) : component :=
  match found with
  | NoUser =>
      {| loading := loading c; error_text := error_text c; stats := stats c;
         range := range c; navigated := Some "/login";
         awaiting := awaiting c; calls := calls c |}
  | Profile role =>
      if decide (role = Some "admin") then
        {| loading := false; error_text := error_text c; stats := stats c;
           range := range c; navigated := navigated c;
           awaiting := awaiting c; calls := calls c |}
      else
        {| loading := loading c; error_text := error_text c; stats := stats c;
           range := range c; navigated := Some "/";
           awaiting := awaiting c; calls := calls c |}
  | CheckThrows =>
      {| loading := false; error_text := "无法验证管理员权限"; stats := stats c;
         range := range c; navigated := navigated c;
         awaiting := awaiting c; calls := calls c |}
  end.

(** The start of [fetchStats], up to the [await]: [setLoading(true)],
    [setError('')], the two dates, the request. *)
Definition fetchStats_start (now1 now2 : Z) (c : component) : component :=
  {| loading := true; error_text := ""; stats := stats c; range := range c;
     navigated := navigated c; awaiting := Some (now1, now2, range c);
     calls := S (calls c) |}.

(** The effect on [timeRange]: [if (!loading) fetchStats()]. *)
Definition effect_timeRange (now1 now2 : Z) (c : component) : component :=
  if loading c then c else fetchStats_start now1 now2 c.

(** [setTimeRange(r)]: a state that does not change renders nothing and runs
    no effect; one that changes runs the effect of the new render. *)
Definition setTimeRange (r : timeRange) (now1 now2 : Z) (c : component) : component :=
  if decide (r = range c) then c
  else effect_timeRange now1 now2
         {| loading := loading c; error_text := error_text c; stats := stats c;
            range := r; navigated := navigated c; awaiting := awaiting c;
            calls := calls c |}.

(** The rest of [fetchStats], from the response on. *)
Definition fetchStats_end (tz : TimeZone) (response : select_response)
    (c : component) : component :=
  match awaiting c with
  | None => c
  | Some (now1, now2, r) =>
      match fetchStats tz now1 now2 r response with
      | setStats processedStats =>
          {| loading := false; error_text := error_text c; stats := processedStats;
             range := range c; navigated := navigated c; awaiting := None;
             calls := calls c |}
      | setError message =>
          {| loading := false; error_text := message; stats := stats c;
             range := range c; navigated := navigated c; awaiting := None;
             calls := calls c |}
      end
  end.

(** The range selector is rendered only when the component shows neither
    the spinner ([if (loading) return ...]) nor the error
    ([if (error) return ...]). *)
Definition controls_shown (c : component) : bool :=
  negb (loading c) && bool_decide (error_text c = "").

(** What happens to the mounted component. *)
Inductive event :=
  | AdminChecked (found : admin_check)
  | RangeClicked (r : timeRange) (now1 now2 : Z)
  | LogsAnswered (response : select_response).

Definition step (tz : TimeZone) (c : component) (ev : event) : component :=
  match ev with
  | AdminChecked found => checkAdmin found c
  | RangeClicked r now1 now2 =>
      if controls_shown c then setTimeRange r now1 now2 c else c
  | LogsAnswered response => fetchStats_end tz response c
  end.

(** The component after its mount (the two effects run once: [checkAdmin]
    starts, and the effect on [timeRange] finds [loading] true) and the
    events that follow. *)
Definition run (tz : TimeZone) (evs : list event) : component :=
  foldl (step tz) (effect_timeRange 0 0 initial) evs.

(** A click that changes the range from the first one. *)
Definition changes_range (ev : event) : bool :=
  match ev with
  | RangeClicked range_30d _ _ => true
  | _ => false
  end.

End TrafficPage.

(** ** Sorting and paging of the list pages ([Chapters.tsx], [AdminCoins]) *)

Module ListPage.

Inductive sortOrder := asc | desc.

(** [toggleSort], over the fields a page can sort by. *)
Definition toggleSort {F : Type} `{EqDecision F} (field : F)
    (state : F * sortOrder) : F * sortOrder :=
  let '(sortField, sortOrder) := state in
  if decide (sortField = field)
  then (sortField, match sortOrder with asc => desc | desc => asc end)
  else (field, desc).

Definition itemsPerPage : Z := 10.

(** [Math.ceil((count || 0) / itemsPerPage)], for a count that is a whole
    number or [null]. *)
Definition totalPages (count : option Z) : Z :=
  - ((- default 0 count) `div` itemsPerPage).

(** [.range((currentPage - 1) * itemsPerPage, currentPage * itemsPerPage - 1)]:
    the first and the last index asked for. *)
Definition range_from (currentPage : Z) : Z := (currentPage - 1) * itemsPerPage.
Definition range_to (currentPage : Z) : Z := currentPage * itemsPerPage - 1.

(** The two buttons under the table; each does nothing when disabled. *)
Definition previousPage (currentPage : Z) : Z :=
  if decide (currentPage = 1) then currentPage
  else Z.max 1 (currentPage - 1).

Definition nextPage (total currentPage : Z) : Z :=
  if decide (currentPage = total) then currentPage
  else Z.min total (currentPage + 1).

End ListPage.

(** ** Reading a CSV text

    The usual rules for reading comma-separated values (RFC 4180), used to
    state what a reader finds in the exported text: records end at a line
    feed, fields at a comma; a field that begins with a double quote runs to
    the next double quote that is not doubled, and a doubled one stands for
    one. *)

Module CsvReader.

Definition comma : N := 44%N.
Definition line_feed : N := 10%N.

Inductive mode := FieldStart | InPlain | InQuoted | AfterQuote.

(** The reader, with the field and the record it is in and the records it
    has read; [None] for a text it cannot read. *)
Fixpoint read (m : mode) (field : jsstring) (record : list jsstring)
    (records : list (list jsstring)) (s : jsstring)
  : option (list (list jsstring)) :=
  match s with
  | [] =>
      match m with
      | InQuoted => None
      | _ => Some (records ++ [record ++ [field]])
      end
  | c :: s' =>
      match m with
      | InQuoted =>
          if (c =? Coins.quote)%N then read AfterQuote field record records s'
          else read InQuoted (field ++ [c]) record records s'
      | AfterQuote =>
          if (c =? Coins.quote)%N
          then read InQuoted (field ++ [Coins.quote]) record records s'
          else if (c =? comma)%N
          then read FieldStart [] (record ++ [field]) records s'
          else if (c =? line_feed)%N
          then read FieldStart [] [] (records ++ [record ++ [field]]) s'
          else None
      | FieldStart =>
          if (c =? Coins.quote)%N then read InQuoted [] record records s'
          else if (c =? comma)%N
          then read FieldStart [] (record ++ [field]) records s'
          else if (c =? line_feed)%N
          then read FieldStart [] [] (records ++ [record ++ [field]]) s'
          else read InPlain [c] record records s'
      | InPlain =>
          if (c =? comma)%N
          then read FieldStart [] (record ++ [field]) records s'
          else if (c =? line_feed)%N
          then read FieldStart [] [] (records ++ [record ++ [field]]) s'
          else read InPlain (field ++ [c]) record records s'
      end
  end.

Definition read_csv (s : jsstring) : option (list (list jsstring)) :=
  read FieldStart [] [] [] s.

(** A character that is neither a double quote, a comma nor a line feed. *)
Definition plain (c : N) : Prop :=
  c <> Coins.quote /\ c <> comma /\ c <> line_feed.

End CsvReader.

(** The five values of a transaction, as texts. *)
Definition exported_values (toLocaleString : string -> jsstring)
    (inherited : jsstring -> option Coins.value)
    (t : Coins.CoinTransaction) : list jsstring :=
  [ Coins.username (Coins.user t);
    String_of_Z (Coins.amount t);
    Coins.ToString (Coins.exported_type inherited t);
    Coins.description t;
    toLocaleString (Coins.created_at t) ].

(** Sample data of the export: a locale, an engine whose objects inherit
    [constructor], and two transactions, the second with that type. *)
Module ExportSamples.

Definition toLocaleString (created_at : string) : jsstring :=
  js "1/2/2024, 3:04:05 PM".

Definition inherited (k : jsstring) : option Coins.value :=
  if decide (k = js "constructor")
  then Some (Coins.VObject (js "function Object() { [native code] }"))
  else None.

Definition unlock : Coins.CoinTransaction :=
  {| Coins.id := "t1"; Coins.amount := -50; Coins.type := js "unlock";
     Coins.description := [83; 97; 105; 100; 32; 34; 104; 105; 34]%N;
     Coins.created_at := "2024-01-02T15:04:05Z";
     Coins.user := {| Coins.username := js "bob" |} |}.

Definition odd_type : Coins.CoinTransaction :=
  {| Coins.id := "t2"; Coins.amount := 7; Coins.type := js "constructor";
     Coins.description := js "a, b";
     Coins.created_at := "2024-01-02T15:04:05Z";
     Coins.user := {| Coins.username := js "eve" |} |}.

End ExportSamples.

Definition exported_names : list jsstring :=
  [ js "Username"; js "Amount"; js "Type"; js "Description";
    js "Transaction Date" ].

(** A decimal digit, as a code unit. *)
Definition is_decimal (c : N) : Prop := (48 <= c <= 57)%N.

(** White space only. *)
Definition blank (s : jsstring) : Prop := Forall (fun c => is_ws c = true) s.

(** A text that neither begins nor ends with white space. *)
Definition trimmed (t : jsstring) : Prop :=
  (forall c t', t = c :: t' -> is_ws c = false)
  /\ (forall t' c, t = t' ++ [c] -> is_ws c = false).

(** ** Numeric literals, as ECMAScript writes them (StringNumericLiteral) *)

Module NumericLiteral.

(** DecimalDigits *)
Definition digits (ds : jsstring) : Prop := ds <> [] /\ Forall is_decimal ds.

(** A sign, or none. *)
Definition sign (sg : jsstring) : Prop :=
  sg = [] \/ sg = [43%N] \/ sg = [45%N].

(** ExponentPart: [e] or [E], a sign or none, digits. *)
Definition exponent (x : jsstring) : Prop :=
  exists e sg ds,
    x = e :: sg ++ ds /\ (e = 101 \/ e = 69)%N /\ sign sg /\ digits ds.

(** StrUnsignedDecimalLiteral: [Infinity]; digits, a dot, digits or none, an
    exponent or none; a dot, digits, an exponent or none; digits, an
    exponent or none. *)
Definition unsigned_decimal (u : jsstring) : Prop :=
  u = js "Infinity"
  \/ (exists ds fs x,
        u = ds ++ 46%N :: fs ++ x
        /\ Forall is_decimal ds /\ Forall is_decimal fs
        /\ (ds <> [] \/ fs <> []) /\ (x = [] \/ exponent x))
  \/ (exists ds x, u = ds ++ x /\ digits ds /\ (x = [] \/ exponent x)).

(** A digit of the radix 2, 8 or 16. *)
Definition digit_of (radix : Z) (c : N) : Prop :=
  48 <= Z.of_N c < 48 + Z.min radix 10
  \/ (radix = 16 /\ (97 <= Z.of_N c <= 102 \/ 65 <= Z.of_N c <= 70)).

(** NonDecimalIntegerLiteral: [0x], [0o] or [0b] in either case, and digits
    of the radix. *)
Definition non_decimal (t : jsstring) : Prop :=
  exists p radix ds,
    t = 48%N :: p :: ds
    /\ ((radix = 16 /\ (p = 120 \/ p = 88)%N)
        \/ (radix = 8 /\ (p = 111 \/ p = 79)%N)
        \/ (radix = 2 /\ (p = 98 \/ p = 66)%N))
    /\ ds <> [] /\ Forall (digit_of radix) ds.

(** StrNumericLiteral: a literal of another radix, or a decimal literal
    after a sign or none. *)
Definition numeric (t : jsstring) : Prop :=
  non_decimal t \/ exists sg u, t = sg ++ u /\ sign sg /\ unsigned_decimal u.

End NumericLiteral.

(** A text [parseInt] finds no integer in: white space, then nothing or a
    character that is neither a digit nor a sign. *)
Definition no_integer (s : jsstring) : Prop :=
  exists ws rest,
    s = ws ++ rest /\ Forall (fun c => is_ws c = true) ws
    /\ match rest with
       | [] => True
       | c :: _ => is_ws c = false /\ ~ is_decimal c /\ c <> 43%N /\ c <> 45%N
       end.

(** A text with a character that is not white space. *)
Definition has_text (s : jsstring) : Prop := exists c, c ∈ s /\ is_ws c = false.

(** A row of the import with a title of its own. *)
Definition has_title (row : Chapters.csv_row) : Prop :=
  exists s, Chapters.row_title row = Some s /\ has_text s.

(** * Properties *)

(** ** JavaScript strings and numbers, on examples *)

Example Number_1 : StringToNumber (js "1") = Int 1.
Proof. reflexivity. Qed.

Example Number_x : StringToNumber (js "x") = NaN.
Proof. reflexivity. Qed.

Example Number_forms :
  StringToNumber (js " 42 ") = Int 42 /\ StringToNumber (js "") = Int 0
  /\ StringToNumber (js "-7") = Int (-7) /\ StringToNumber (js "0x1F") = Int 31
  /\ StringToNumber (js "1.5e3") = Lit (js "1.5e3")
  /\ StringToNumber (js "1.5e") = NaN /\ StringToNumber (js "12px") = NaN
  /\ StringToNumber (js "-0x10") = NaN /\ StringToNumber (js ".") = NaN.
Proof. repeat split; reflexivity. Qed.

Example parseInt_forms :
  parseInt (js "12px") = Some 12 /\ parseInt (js "  -3.9") = Some (-3)
  /\ parseInt (js "") = None /\ parseInt (js "0x1f") = Some 31
  /\ parseInt_or_0 (js "abc") = 0.
Proof. repeat split; reflexivity. Qed.

Example split_ws_forms :
  split_ws (js " a  b ") = [ []; js "a"; js "b"; [] ]
  /\ split_ws [] = [ [] ] /\ split_ws (js "  ") = [ []; [] ]
  /\ trim (js "  a b  ") = js "a b".
Proof. repeat split; reflexivity. Qed.

(** ** Ordered collections *)

Section OrderFacts.
Context {A : Type} (kind : page_kind A).
Implicit Types (p : page A) (r q x : row A) (t : list (row A)).

Lemma handleMoveUp_direction i k rs p :
  handleMoveUp kind i k rs p = handleMove kind (-1) i k rs p.
Proof. reflexivity. Qed.

Lemma handleMoveDown_direction i k rs p :
  handleMoveDown kind i k rs p = handleMove kind 1 i k rs p.
Proof. reflexivity. Qed.

Lemma set_sort_order_same r : set_sort_order (sort_order r) r = r.
Proof. by destruct r. Qed.

(** Requests other than the updates leave the table alone. *)
Lemma table_show text p : table (show text p) = table p.
Proof. by destruct text. Qed.

Lemma table_fetchCategories response p :
  table (fetchCategories kind response p) = table p.
Proof. destruct response; simpl; [by destruct (fetch_failed kind) | done]. Qed.

Lemma table_catch_move e p : table (catch_move kind e p) = table p.
Proof. unfold catch_move. by destruct (reorder_failed kind). Qed.

Lemma categories_show text p : categories (show text p) = categories p.
Proof. by destruct text. Qed.

Lemma console_show text p : console (show text p) = console p.
Proof. by destruct text. Qed.

(** A row is known by its id. *)
Lemma same_id t x y :
  NoDup (id <$> t) -> x ∈ t -> y ∈ t -> id x = id y -> x = y.
Proof.
  induction t as [|z t IH]; intros Hnd Hx Hy Hid; [by apply not_elem_of_nil in Hx|].
  rewrite fmap_cons in Hnd. apply NoDup_cons in Hnd as [Hz Hnd].
  apply elem_of_cons in Hx as [->|Hx], Hy as [->|Hy]; try done.
  - exfalso. apply Hz. rewrite Hid. by apply list_elem_of_fmap_2.
  - exfalso. apply Hz. rewrite <- Hid. by apply list_elem_of_fmap_2.
  - by apply IH.
Qed.

Lemma updates_exchange t i v2 j v1 :
  update_sort_order v2 i (update_sort_order v1 j t) = exchange i v2 j v1 <$> t.
Proof.
  unfold update_sort_order. rewrite <- list_fmap_compose.
  apply list_fmap_ext. intros _ x _. unfold exchange, compose.
  destruct (decide (id x = j)); simpl; by repeat case_decide.
Qed.

Lemma id_exchange i v2 j v1 x : id (exchange i v2 j v1 x) = id x.
Proof. unfold exchange. by repeat case_decide. Qed.

Lemma fields_exchange i v2 j v1 x : fields (exchange i v2 j v1 x) = fields x.
Proof. unfold exchange. by repeat case_decide. Qed.

Lemma ids_exchange t i v2 j v1 : id <$> (exchange i v2 j v1 <$> t) = id <$> t.
Proof.
  rewrite <- list_fmap_compose. apply list_fmap_ext. intros _ x _.
  apply id_exchange.
Qed.

(** Two rows of the table and the rest. *)
Lemma two_rows t r q :
  r ∈ t -> q ∈ t -> r <> q -> exists rest, t ≡ₚ r :: q :: rest.
Proof.
  intros Hr Hq Hne. apply elem_of_Permutation in Hr as [t1 Ht1].
  rewrite Ht1 in Hq. apply elem_of_cons in Hq as [->|Hq]; [done|].
  apply elem_of_Permutation in Hq as [rest Hrest].
  exists rest. by rewrite Ht1, Hrest.
Qed.

(** Exchanging the positions of two rows permutes the positions. *)
Lemma exchange_positions t r q :
  NoDup (id <$> t) -> r ∈ t -> q ∈ t -> id r <> id q ->
  sort_order <$> (exchange (id r) (sort_order q) (id q) (sort_order r) <$> t)
  ≡ₚ sort_order <$> t.
Proof.
  intros Hnd Hr Hq Hne.
  destruct (two_rows t r q) as [rest Hrest]; [done|done|congruence|].
  rewrite Hrest in Hnd |- *. rewrite !fmap_cons in Hnd. rewrite !fmap_cons.
  apply NoDup_cons in Hnd as [Hr' Hnd]. apply NoDup_cons in Hnd as [Hq' _].
  assert (exchange (id r) (sort_order q) (id q) (sort_order r) <$> rest = rest) as ->.
  { rewrite <- (list_fmap_id rest) at 2. apply list_fmap_ext. intros n x Hx.
    apply list_elem_of_lookup_2 in Hx. unfold exchange.
    case_decide as E1.
    - exfalso. apply Hr'. rewrite <- E1. apply elem_of_cons. right.
      by apply list_elem_of_fmap_2.
    - case_decide as E2; [|done].
      exfalso. apply Hq'. rewrite <- E2. by apply list_elem_of_fmap_2. }
  unfold exchange at 1 2. rewrite !decide_True by done.
  rewrite decide_False by congruence. rewrite decide_True by done. simpl.
  apply perm_swap.
Qed.

(** Consequences of the invariant. *)
Lemma dense_NoDup t : dense t -> NoDup (sort_order <$> t).
Proof.
  intros H. rewrite H. apply NoDup_fmap_2; [apply _|]. apply NoDup_seq.
Qed.

Lemma dense_range t x : dense t -> x ∈ t -> 0 <= sort_order x < Z.of_nat (length t).
Proof.
  intros H Hx. apply (list_elem_of_fmap_2 sort_order) in Hx. rewrite H in Hx.
  apply list_elem_of_fmap in Hx as (n & -> & Hn). apply elem_of_seq in Hn. lia.
Qed.

Lemma dense_position t v :
  dense t -> 0 <= v < Z.of_nat (length t) -> exists x, x ∈ t /\ sort_order x = v.
Proof.
  intros H Hv.
  assert (v ∈ sort_order <$> t) as Hin.
  { rewrite H. apply list_elem_of_fmap. exists (Z.to_nat v).
    split; [lia|]. apply elem_of_seq. lia. }
  apply list_elem_of_fmap in Hin as (x & -> & Hx). eauto.
Qed.

Lemma dense_same_position t x y :
  dense t -> x ∈ t -> y ∈ t -> sort_order x = sort_order y -> x = y.
Proof.
  intros H%dense_NoDup. revert H.
  induction t as [|z t IH]; intros Hnd Hx Hy Heq; [by apply not_elem_of_nil in Hx|].
  rewrite fmap_cons in Hnd. apply NoDup_cons in Hnd as [Hz Hnd].
  apply elem_of_cons in Hx as [->|Hx], Hy as [->|Hy]; try done.
  - exfalso. apply Hz. rewrite Heq. by apply list_elem_of_fmap_2.
  - exfalso. apply Hz. rewrite <- Heq. by apply list_elem_of_fmap_2.
  - by apply IH.
Qed.

Lemma dense_Permutation t t' : t ≡ₚ t' -> dense t -> dense t'.
Proof. unfold dense. intros H. by rewrite H. Qed.

Lemma loaded_dense p : loaded p -> dense (table p) -> dense (categories p).
Proof. intros H. apply dense_Permutation. by symmetry. Qed.

(** What [find] says about the loaded rows. *)
Lemma find_position_Some p v q :
  List.find (fun c => sort_order c =? v) (categories p) = Some q ->
  q ∈ categories p /\ sort_order q = v.
Proof.
  intros [Hin Heq]%find_some. split; [by apply list_elem_of_In|lia].
Qed.

Lemma find_position_None p v x :
  List.find (fun c => sort_order c =? v) (categories p) = None ->
  x ∈ categories p -> sort_order x <> v.
Proof.
  intros H Hx%list_elem_of_In. pose proof (find_none _ _ H x Hx). simpl in *. lia.
Qed.

Lemma find_position_exists p v :
  dense (categories p) -> 0 <= v < Z.of_nat (length (categories p)) ->
  exists q, List.find (fun c => sort_order c =? v) (categories p) = Some q.
Proof.
  intros Hd Hv. destruct (List.find _ _) as [q|] eqn:E; [eauto|].
  destruct (dense_position _ v Hd Hv) as (x & Hx & Hv').
  by destruct (find_position_None p v x E Hx).
Qed.

(** The table after a move that found its neighbour: the second update is
    sent whatever the response to the first. *)
Lemma table_handleMove d i k rs p q :
  List.find (fun c => sort_order c =? k + d) (categories p) = Some q ->
  table (handleMove kind d i k rs p)
  = table (request (error2 rs) (update_sort_order (k + d) i)
             (request (error1 rs) (update_sort_order k (id q)) p)).
Proof.
  intros H. unfold handleMove. rewrite H.
  destruct (error1 rs), (error2 rs); simpl;
    by rewrite ?table_catch_move, ?table_fetchCategories.
Qed.

Lemma neighbour_facts d p r q :
  d <> 0 -> NoDup (id <$> table p) -> loaded p -> r ∈ categories p ->
  List.find (fun c => sort_order c =? sort_order r + d) (categories p) = Some q ->
  r ∈ table p /\ q ∈ table p /\ sort_order q = sort_order r + d /\ id r <> id q.
Proof.
  intros Hd Hnd Hl Hr [Hq Hv]%find_position_Some.
  rewrite Hl in Hr, Hq. repeat split; [done..|].
  intros Hid. apply (same_id _ _ _ Hnd Hr Hq) in Hid. subst q. lia.
Qed.

Lemma handleMove_exchange d p r q rs :
  d <> 0 -> NoDup (id <$> table p) -> loaded p -> r ∈ categories p ->
  List.find (fun c => sort_order c =? sort_order r + d) (categories p) = Some q ->
  error1 rs = None -> error2 rs = None ->
  table (handleMove kind d (id r) (sort_order r) rs p)
  = exchange (id r) (sort_order q) (id q) (sort_order r) <$> table p.
Proof.
  intros Hd Hnd Hl Hr Hf E1 E2.
  destruct (neighbour_facts d p r q) as (_ & _ & Hv & _); [done..|].
  rewrite (table_handleMove _ _ _ _ _ _ Hf), E1, E2. simpl.
  rewrite updates_exchange. by rewrite Hv.
Qed.

Lemma exchange_positions_exchanged t r q :
  positions_exchanged t
    (exchange (id r) (sort_order q) (id q) (sort_order r) <$> t) r q.
Proof.
  split; [by rewrite length_fmap|].
  intros n x Hx. rewrite list_lookup_fmap, Hx. simpl. eexists. split; [done|].
  unfold exchange. by repeat case_decide.
Qed.

(** What the exchange of the positions of [r] and [q] leaves of a row. *)
Lemma positions_exchanged_row t t' r q x :
  positions_exchanged t t' r q -> x ∈ t ->
  exists x', x' ∈ t' /\ id x' = id x /\ fields x' = fields x
    /\ sort_order x' = (if decide (id x = id r) then sort_order q
                        else if decide (id x = id q) then sort_order r
                        else sort_order x).
Proof.
  intros [_ H] (n & Hn)%list_elem_of_lookup.
  destruct (H n x Hn) as (x' & Hx' & ?). exists x'. split; [|done].
  by apply list_elem_of_lookup_2 in Hx'.
Qed.

Lemma exchange_dense t r q :
  NoDup (id <$> t) -> r ∈ t -> q ∈ t -> id r <> id q -> dense t ->
  dense (exchange (id r) (sort_order q) (id q) (sort_order r) <$> t).
Proof.
  intros Hnd Hr Hq Hne Hd. unfold dense.
  rewrite exchange_positions by done. by rewrite length_fmap.
Qed.

(** A move in either direction, both updates applied. *)
Lemma handleMove_spec d p r q rs :
  d <> 0 -> NoDup (id <$> table p) -> dense (table p) -> loaded p ->
  r ∈ categories p ->
  List.find (fun c => sort_order c =? sort_order r + d) (categories p) = Some q ->
  error1 rs = None -> error2 rs = None ->
  let p' := handleMove kind d (id r) (sort_order r) rs p in
  dense (table p') /\ sort_order q = sort_order r + d /\ id q <> id r
  /\ positions_exchanged (table p) (table p') r q
  /\ (exists r', r' ∈ table p' /\ id r' = id r /\ fields r' = fields r
        /\ sort_order r' = sort_order r + d)
  /\ (exists q', q' ∈ table p' /\ id q' = id q /\ fields q' = fields q
        /\ sort_order q' = sort_order r)
  /\ (forall x, x ∈ table p -> id x <> id r -> id x <> id q -> x ∈ table p').
Proof.
  intros Hd Hnd Hden Hl Hr Hf E1 E2 p'. unfold p'.
  destruct (neighbour_facts d p r q) as (Hr' & Hq' & Hv & Hne); [done..|].
  rewrite (handleMove_exchange d p r q rs) by done.
  pose proof (exchange_positions_exchanged (table p) r q) as Hex.
  split; [by apply exchange_dense|]. split; [done|]. split; [congruence|].
  split; [done|]. split; [|split].
  - destruct (positions_exchanged_row _ _ r q r Hex Hr') as (r' & ? & ? & ? & Hs).
    destruct (decide (id r = id r)); [|done]. exists r'.
    split_and!; [done..|]. by rewrite Hs.
  - destruct (positions_exchanged_row _ _ r q q Hex Hq') as (q' & ? & ? & ? & Hs).
    destruct (decide (id q = id r)); [congruence|].
    destruct (decide (id q = id q)); [|done]. exists q'. by split_and!.
  - intros x Hx Hxr Hxq.
    destruct (positions_exchanged_row _ _ r q x Hex Hx) as (x' & Hin & Hi & Hf' & Hs).
    destruct (decide (id x = id r)); [done|].
    destruct (decide (id x = id q)); [done|].
    replace x with x'; [done|]. destruct x, x'. simpl in *. congruence.
Qed.

(** C1.  Let the table have distinct ids and positions 0 .. N-1, each once,
    and let the page show its rows.  When [handleMoveUp], called for a shown
    row [r] with its position k, finds the row [q] at k-1 and both updates
    are applied, the positions of the table are again 0 .. N-1, each once,
    [r] is at k-1 and [q] at k, and every other row, and every other column
    of [r] and [q], is as before.  The same holds for [handleMoveDown] and
    the row at k+1. *)
Theorem move_exchanges_adjacent_positions p r rs :
  NoDup (id <$> table p) -> dense (table p) -> loaded p ->
  r ∈ categories p -> error1 rs = None -> error2 rs = None ->
  (forall q,
     List.find (fun c => sort_order c =? sort_order r - 1) (categories p) = Some q ->
     let p' := handleMoveUp kind (id r) (sort_order r) rs p in
     dense (table p') /\ sort_order q = sort_order r - 1 /\ id q <> id r
     /\ positions_exchanged (table p) (table p') r q
     /\ (exists r', r' ∈ table p' /\ id r' = id r /\ fields r' = fields r
           /\ sort_order r' = sort_order r - 1)
     /\ (exists q', q' ∈ table p' /\ id q' = id q /\ fields q' = fields q
           /\ sort_order q' = sort_order r)
     /\ (forall x, x ∈ table p -> id x <> id r -> id x <> id q -> x ∈ table p'))
  /\
  (forall q,
     List.find (fun c => sort_order c =? sort_order r + 1) (categories p) = Some q ->
     let p' := handleMoveDown kind (id r) (sort_order r) rs p in
     dense (table p') /\ sort_order q = sort_order r + 1 /\ id q <> id r
     /\ positions_exchanged (table p) (table p') r q
     /\ (exists r', r' ∈ table p' /\ id r' = id r /\ fields r' = fields r
           /\ sort_order r' = sort_order r + 1)
     /\ (exists q', q' ∈ table p' /\ id q' = id q /\ fields q' = fields q
           /\ sort_order q' = sort_order r)
     /\ (forall x, x ∈ table p -> id x <> id r -> id x <> id q -> x ∈ table p')).
Proof.
  intros Hnd Hden Hl Hr E1 E2. split; intros q Hf.
  - rewrite handleMoveUp_direction. by apply (handleMove_spec (-1)).
  - rewrite handleMoveDown_direction. by apply (handleMove_spec 1).
Qed.

(** No loaded row has a position outside 0 .. N-1. *)
Lemma find_outside p v :
  dense (table p) -> loaded p ->
  v < 0 \/ Z.of_nat (length (table p)) <= v ->
  List.find (fun c => sort_order c =? v) (categories p) = None.
Proof.
  intros Hd Hl Hv. destruct (List.find _ _) as [q|] eqn:E; [|done].
  apply find_position_Some in E as [Hq Hqv]. rewrite Hl in Hq.
  pose proof (dense_range _ _ Hd Hq). lia.
Qed.

(** C3.  Let the table have positions 0 .. N-1, each once, and let the page
    show its rows.  For a shown row at position 0, [handleMoveUp] returns
    the page and the table as they are: no request, no error on screen,
    nothing on the console; its button is disabled as well.  The same holds
    for [handleMoveDown] and the row at position N-1. *)
Theorem move_past_the_ends_is_noop p r rs :
  dense (table p) -> loaded p -> r ∈ categories p ->
  (sort_order r = 0 ->
     handleMoveUp kind (id r) (sort_order r) rs p = p
     /\ clickMoveUp kind r rs p = p)
  /\
  (sort_order r = Z.of_nat (length (table p)) - 1 ->
     handleMoveDown kind (id r) (sort_order r) rs p = p
     /\ clickMoveDown kind r rs p = p).
Proof.
  intros Hd Hl Hr. split; intros Hv.
  - assert (handleMoveUp kind (id r) (sort_order r) rs p = p) as H.
    { unfold handleMoveUp. rewrite find_outside; [done..|lia]. }
    split; [done|]. unfold clickMoveUp. by rewrite H, Tauto.if_same.
  - assert (handleMoveDown kind (id r) (sort_order r) rs p = p) as H.
    { unfold handleMoveDown. rewrite find_outside; [done..|lia]. }
    split; [done|]. unfold clickMoveDown. by rewrite H, Tauto.if_same.
Qed.

(** A move whose first update is rejected and whose second is applied. *)
Lemma handleMove_first_fails d p r q rs e :
  d <> 0 -> NoDup (id <$> table p) -> dense (table p) -> loaded p ->
  r ∈ categories p ->
  List.find (fun c => sort_order c =? sort_order r + d) (categories p) = Some q ->
  error1 rs = Some e -> error2 rs = None ->
  let p' := handleMove kind d (id r) (sort_order r) rs p in
  table p' = update_sort_order (sort_order r + d) (id r) (table p)
  /\ set_sort_order (sort_order r + d) r ∈ table p' /\ q ∈ table p'
  /\ sort_order q = sort_order r + d /\ id q <> id r
  /\ ~ NoDup (sort_order <$> table p') /\ ~ dense (table p')
  /\ console p' = e :: console p /\ categories p' = categories p.
Proof.
  intros Hd Hnd Hden Hl Hr Hf E1 E2 p'.
  destruct (neighbour_facts d p r q) as (Hr' & Hq' & Hv & Hne); [done..|].
  assert (table p' = update_sort_order (sort_order r + d) (id r) (table p)) as Ht.
  { unfold p'. by rewrite (table_handleMove _ _ _ _ _ _ Hf), E1, E2. }
  assert (set_sort_order (sort_order r + d) r ∈ table p') as Hr1.
  { rewrite Ht. unfold update_sort_order. apply list_elem_of_fmap.
    exists r. by rewrite decide_True. }
  assert (q ∈ table p') as Hq1.
  { rewrite Ht. unfold update_sort_order. apply list_elem_of_fmap.
    exists q. by rewrite decide_False by congruence. }
  assert (~ NoDup (sort_order <$> table p')) as Hdup.
  { intros Hnd'.
    apply elem_of_Permutation in Hr1 as [t1 Ht1].
    rewrite Ht1 in Hq1, Hnd'. apply elem_of_cons in Hq1 as [Hq1|Hq1].
    - apply Hne. by rewrite Hq1.
    - rewrite fmap_cons in Hnd'. apply NoDup_cons in Hnd' as [Hnot _].
      apply Hnot. simpl. rewrite <- Hv. by apply list_elem_of_fmap_2. }
  repeat split; try done; try congruence.
  - intros Hd'. by apply Hdup, dense_NoDup.
  - unfold p', handleMove. rewrite Hf, E1, E2. unfold catch_move.
    by rewrite console_show.
  - unfold p', handleMove. rewrite Hf, E1, E2. unfold catch_move.
    by rewrite categories_show.
Qed.

(** C10.  In [handleMoveUp] the second update is sent whatever the response to
    the first: the table after the handler is the table after both requests,
    each applied or not by its own response.  So when the first update (of
    the neighbour [q]) is rejected and the second (of the moved row [r]) is
    applied, [r] is at k-1 and [q] still at k-1, the positions hold a
    duplicate and are no longer 0 .. N-1, each once, the first error goes to
    the console and the page keeps the rows it had loaded.  The same holds
    for [handleMoveDown] with k+1. *)
Theorem first_update_failure_duplicates_position p r rs :
  NoDup (id <$> table p) -> dense (table p) -> loaded p -> r ∈ categories p ->
  (forall q,
     List.find (fun c => sort_order c =? sort_order r - 1) (categories p) = Some q ->
     let p' := handleMoveUp kind (id r) (sort_order r) rs p in
     table p'
     = table (request (error2 rs) (update_sort_order (sort_order r - 1) (id r))
                (request (error1 rs) (update_sort_order (sort_order r) (id q)) p))
     /\ forall e, error1 rs = Some e -> error2 rs = None ->
        set_sort_order (sort_order r - 1) r ∈ table p' /\ q ∈ table p'
        /\ sort_order q = sort_order r - 1 /\ id q <> id r
        /\ ~ NoDup (sort_order <$> table p') /\ ~ dense (table p')
        /\ console p' = e :: console p /\ categories p' = categories p)
  /\
  (forall q,
     List.find (fun c => sort_order c =? sort_order r + 1) (categories p) = Some q ->
     let p' := handleMoveDown kind (id r) (sort_order r) rs p in
     table p'
     = table (request (error2 rs) (update_sort_order (sort_order r + 1) (id r))
                (request (error1 rs) (update_sort_order (sort_order r) (id q)) p))
     /\ forall e, error1 rs = Some e -> error2 rs = None ->
        set_sort_order (sort_order r + 1) r ∈ table p' /\ q ∈ table p'
        /\ sort_order q = sort_order r + 1 /\ id q <> id r
        /\ ~ NoDup (sort_order <$> table p') /\ ~ dense (table p')
        /\ console p' = e :: console p /\ categories p' = categories p).
Proof.
  intros Hnd Hden Hl Hr. split; intros q Hf p'; (split; [|intros e E1 E2]).
  - apply (table_handleMove (-1)), Hf.
  - by apply (handleMove_first_fails (-1) p r q rs e).
  - apply (table_handleMove 1), Hf.
  - by apply (handleMove_first_fails 1 p r q rs e).
Qed.

(** The buttons of an id are those of the row with that id. *)
Lemma find_id p r :
  NoDup (id <$> table p) -> loaded p -> r ∈ categories p ->
  List.find (fun c => bool_decide (id c = id r)) (categories p) = Some r.
Proof.
  intros Hnd Hl Hr. destruct (List.find _ _) as [c|] eqn:E.
  - apply find_some in E as [Hc Hid]. apply list_elem_of_In in Hc.
    apply bool_decide_eq_true in Hid. f_equal.
    rewrite Hl in Hc, Hr. by apply (same_id (table p)).
  - apply list_elem_of_In in Hr. pose proof (find_none _ _ E r Hr) as H.
    simpl in H. by rewrite bool_decide_true in H.
Qed.

(** After a move with all three requests accepted the page shows the table. *)
Lemma categories_handleMove d i k rs p q :
  List.find (fun c => sort_order c =? k + d) (categories p) = Some q ->
  error1 rs = None -> error2 rs = None -> refetch rs = None ->
  loaded (handleMove kind d i k rs p).
Proof.
  intros Hf E1 E2 E3. unfold loaded, handleMove. rewrite Hf, E1, E2, E3.
  simpl. apply merge_sort_Permutation.
Qed.

(** Exchanging twice gives the table back. *)
Lemma exchange_twice t r q :
  NoDup (id <$> t) -> r ∈ t -> q ∈ t -> id r <> id q ->
  exchange (id r) (sort_order r) (id q) (sort_order q)
    <$> (exchange (id r) (sort_order q) (id q) (sort_order r) <$> t) = t.
Proof.
  intros Hnd Hr Hq Hne. rewrite <- list_fmap_compose.
  rewrite <- (list_fmap_id t) at 2. apply list_fmap_ext. intros n x Hx.
  apply list_elem_of_lookup_2 in Hx. unfold compose, exchange at 2.
  case_decide as E1.
  - apply (same_id t) in E1; [|done..]. subst x.
    unfold exchange. simpl. rewrite decide_True by done.
    by destruct r.
  - case_decide as E2.
    + apply (same_id t) in E2; [|done..]. subst x.
      unfold exchange. simpl. rewrite decide_False by congruence.
      rewrite decide_True by done. by destruct q.
    + unfold exchange. by rewrite !decide_False by done.
Qed.

(** C2.  Let the table have distinct ids and positions 0 .. N-1, each once,
    and let the page show its rows.  For a shown row [r] not at position 0,
    pressing its up arrow (both updates and the refetch accepted) puts it one
    position up, and pressing then the down arrow of the same id on the page
    as it is now (both updates accepted) gives back the table as it was:
    every row has its first position again. *)
Theorem moveUp_then_moveDown_restores p r rs1 rs2 :
  NoDup (id <$> table p) -> dense (table p) -> loaded p ->
  r ∈ categories p -> 0 < sort_order r ->
  error1 rs1 = None -> error2 rs1 = None -> refetch rs1 = None ->
  error1 rs2 = None -> error2 rs2 = None ->
  let p1 := moveUp kind (id r) rs1 p in
  set_sort_order (sort_order r - 1) r ∈ table p1
  /\ table (moveDown kind (id r) rs2 p1) = table p.
Proof.
  intros Hnd Hden Hl Hr Hpos E1 E2 E3 E1' E2' p1.
  assert (r ∈ table p) as Hr' by (by rewrite <- Hl).
  pose proof (dense_range _ _ Hden Hr') as Hrange.
  (* the first press *)
  destruct (find_position_exists p (sort_order r + -1)) as [q Hq].
  { by apply loaded_dense. }
  { rewrite Hl. lia. }
  destruct (neighbour_facts (-1) p r q) as (_ & Hq' & Hqv & Hne); [done..|].
  assert (p1 = handleMove kind (-1) (id r) (sort_order r) rs1 p) as Hp1.
  { unfold p1, moveUp. rewrite find_id by done. unfold clickMoveUp.
    destruct (Z.eqb_spec (sort_order r) 0); [lia|done]. }
  assert (table p1
          = exchange (id r) (sort_order q) (id q) (sort_order r) <$> table p) as Ht1.
  { rewrite Hp1. by apply handleMove_exchange. }
  assert (loaded p1) as Hl1.
  { rewrite Hp1. by apply (categories_handleMove _ _ _ _ _ q). }
  assert (NoDup (id <$> table p1)) as Hnd1 by (by rewrite Ht1, ids_exchange).
  assert (dense (table p1)) as Hden1 by (rewrite Ht1; by apply exchange_dense).
  set (r1 := set_sort_order (sort_order q) r).
  set (q1 := set_sort_order (sort_order r) q).
  assert (r1 ∈ table p1) as Hr1.
  { rewrite Ht1. apply list_elem_of_fmap. exists r. split; [|done].
    unfold exchange. by rewrite decide_True. }
  assert (q1 ∈ table p1) as Hq1.
  { rewrite Ht1. apply list_elem_of_fmap. exists q. split; [|done].
    unfold exchange. rewrite decide_False by congruence. by rewrite decide_True. }
  split; [by replace (sort_order r - 1) with (sort_order q) by lia|].
  (* the second press *)
  assert (length (table p1) = length (table p)) as Hlen
    by (by rewrite Ht1, length_fmap).
  destruct (find_position_exists p1 (sort_order r1 + 1)) as [c Hc].
  { by apply loaded_dense. }
  { rewrite Hl1, Hlen. simpl. lia. }
  destruct (neighbour_facts 1 p1 r1 c) as (_ & Hc' & Hcv & _);
    [done|done|done|by rewrite Hl1|done|].
  assert (c = q1) as ->.
  { apply (dense_same_position (table p1)); [done..|]. rewrite Hcv. simpl. lia. }
  assert (moveDown kind (id r) rs2 p1
          = handleMove kind 1 (id r1) (sort_order r1) rs2 p1) as ->.
  { assert (r1 ∈ categories p1) as Hr1c by (by rewrite Hl1).
    pose proof (find_id p1 r1 Hnd1 Hl1 Hr1c) as Hfind.
    unfold moveDown. change (id r1) with (id r) in Hfind. rewrite Hfind.
    unfold clickMoveDown.
    destruct (Z.eqb_spec (sort_order r1) (Z.of_nat (length (categories p1)) - 1)) as [E|];
      [|done].
    rewrite Hl1, Hlen in E. simpl in E. lia. }
  rewrite (handleMove_exchange 1 p1 r1 q1 rs2); [|done|done|done|by rewrite Hl1|done..].
  rewrite Ht1. exact (exchange_twice (table p) r q Hnd Hr' Hq' Hne).
Qed.

(** Inputs outside the position field keep the position field, and no input
    touches the table, the loaded rows or the mode of the form. *)
Lemma fill_keeps evs p :
  table (fill evs p) = table p /\ categories (fill evs p) = categories p
  /\ editing (fill evs p) = editing p
  /\ (Forall (fun ev => is_field_input ev = true) evs ->
      data_sort_order (fill evs p) = data_sort_order p).
Proof.
  revert p. induction evs as [|ev evs IH]; intros p; [done|].
  destruct (IH (onChange ev p)) as (Ht & Hc & He & Hs). simpl.
  rewrite Ht, Hc, He. destruct ev; (repeat split; [done..|]).
  - intros [_ H]%Forall_cons. by rewrite Hs.
  - by intros [? _]%Forall_cons.
Qed.

(** The table after a submit that creates: the new row is added with the
    position the form holds. *)
Lemma handleSubmit_insert rs p new_id :
  editing p = None -> validate kind (data p) = None -> inserted rs = inr new_id ->
  table (handleSubmit kind rs p)
  = table p ++ [Row new_id (data_sort_order p) (data p)].
Proof.
  intros He Hv Hi. unfold handleSubmit. simpl. rewrite Hv, He, Hi.
  unfold saved. by rewrite table_fetchCategories.
Qed.

Lemma openCreate_form p :
  table (openCreate kind p) = table p /\ editing (openCreate kind p) = None
  /\ data_sort_order (openCreate kind p) = Z.of_nat (length (categories p)).
Proof. unfold openCreate. by destruct (open_clears_error kind). Qed.

End OrderFacts.

(** *** The two pages, on sample data *)

(** The side conditions of the theorems, on a concrete page. *)
Ltac on_sample :=
  lazymatch goal with
  | |- NoDup _ => apply (bool_decide_unpack _); vm_compute; exact I
  | |- dense _ => unfold dense; simpl; reflexivity
  | |- loaded _ => unfold loaded; simpl; reflexivity
  | |- _ ∈ _ =>
      simpl; repeat first [apply list_elem_of_here | apply list_elem_of_further]
  | |- Forall _ _ => repeat constructor
  | |- _ => first [reflexivity | simpl; lia]
  end.

(** C1 on the three forum categories: the middle one, moved up or down. *)
Lemma move_exchanges_adjacent_positions_witness :
  let p := Samples.forum in
  let r := Samples.category "b" 1 in
  let kind := ForumCategories.kind true in
  (forall q,
     List.find (fun c => sort_order c =? sort_order r - 1) (categories p) = Some q ->
     let p' := handleMoveUp kind (id r) (sort_order r) Samples.accepted p in
     dense (table p') /\ sort_order q = sort_order r - 1 /\ id q <> id r
     /\ positions_exchanged (table p) (table p') r q
     /\ (exists r', r' ∈ table p' /\ id r' = id r /\ fields r' = fields r
           /\ sort_order r' = sort_order r - 1)
     /\ (exists q', q' ∈ table p' /\ id q' = id q /\ fields q' = fields q
           /\ sort_order q' = sort_order r)
     /\ (forall x, x ∈ table p -> id x <> id r -> id x <> id q -> x ∈ table p'))
  /\
  (forall q,
     List.find (fun c => sort_order c =? sort_order r + 1) (categories p) = Some q ->
     let p' := handleMoveDown kind (id r) (sort_order r) Samples.accepted p in
     dense (table p') /\ sort_order q = sort_order r + 1 /\ id q <> id r
     /\ positions_exchanged (table p) (table p') r q
     /\ (exists r', r' ∈ table p' /\ id r' = id r /\ fields r' = fields r
           /\ sort_order r' = sort_order r + 1)
     /\ (exists q', q' ∈ table p' /\ id q' = id q /\ fields q' = fields q
           /\ sort_order q' = sort_order r)
     /\ (forall x, x ∈ table p -> id x <> id r -> id x <> id q -> x ∈ table p')).
Proof.
  apply (move_exchanges_adjacent_positions (ForumCategories.kind true)
           Samples.forum (Samples.category "b" 1) Samples.accepted).
  all: on_sample.
Defined.

Example moveUp_scenario :
  sort_order <$> table (moveUp HomepageBanners.kind "c" Samples.accepted Samples.banners)
  = [0; 2; 1]
  /\ id <$> categories (moveUp HomepageBanners.kind "c" Samples.accepted Samples.banners)
     = ["a"; "c"; "b"].
Proof. split; vm_compute; reflexivity. Qed.

(** C2 on the three banners: the last one, up and down again. *)
Lemma moveUp_then_moveDown_restores_witness :
  let p := Samples.banners in
  let r := Samples.banner "c" 2 in
  let p1 := moveUp HomepageBanners.kind (id r) Samples.accepted p in
  set_sort_order (sort_order r - 1) r ∈ table p1
  /\ table (moveDown HomepageBanners.kind (id r) Samples.accepted p1) = table p.
Proof.
  apply (moveUp_then_moveDown_restores HomepageBanners.kind Samples.banners
           (Samples.banner "c" 2) Samples.accepted Samples.accepted).
  all: on_sample.
Defined.

(** C3 on the three forum categories: the first one up, the last one down,
    whatever the backend would have answered. *)
Lemma move_past_the_ends_is_noop_witness :
  let p := Samples.forum in
  let kind := ForumCategories.kind false in
  (handleMoveUp kind "a" 0 Samples.first_rejected p = p
   /\ clickMoveUp kind (Samples.category "a" 0) Samples.first_rejected p = p)
  /\ (handleMoveDown kind "c" 2 Samples.first_rejected p = p
      /\ clickMoveDown kind (Samples.category "c" 2) Samples.first_rejected p = p).
Proof.
  split.
  - apply (move_past_the_ends_is_noop (ForumCategories.kind false) Samples.forum
             (Samples.category "a" 0) Samples.first_rejected); on_sample.
  - apply (move_past_the_ends_is_noop (ForumCategories.kind false) Samples.forum
             (Samples.category "c" 2) Samples.first_rejected); on_sample.
Defined.

(** C10 on the three banners: the middle one moved up, the update of its
    neighbour rejected. *)
Lemma first_update_failure_duplicates_position_witness :
  let p := Samples.banners in
  let r := Samples.banner "b" 1 in
  let p' := handleMoveUp HomepageBanners.kind (id r) (sort_order r)
              Samples.first_rejected p in
  sort_order <$> table p' = [0; 0; 2]
  /\ ~ dense (table p')
  /\ console p' = ["row is locked"]
  /\ error p' = "重新排序轮播图失败"
  /\ categories p' = categories p.
Proof.
  destruct (first_update_failure_duplicates_position HomepageBanners.kind
              Samples.banners (Samples.banner "b" 1) Samples.first_rejected)
    as [Hup _]; [on_sample..|].
  destruct (Hup (Samples.banner "a" 0)) as [_ H]; [reflexivity|].
  destruct (H "row is locked") as (_ & _ & _ & _ & _ & Hd & Hc & Hv);
    [reflexivity..|].
  split; [reflexivity|]. split; [exact Hd|]. split; [exact Hc|].
  split; [reflexivity|exact Hv].
Defined.

(** C7, as stated, does not hold: the position field of the form can be
    typed into.  With three categories loaded, the operator opens the form,
    fills it in and types 0 into the position field; the new row is stored at
    position 0, not 3. *)
Lemma create_with_typed_position :
  let p := Samples.forum in
  let kind := ForumCategories.kind true in
  let p' := handleSubmit kind Samples.insert_accepted
              (fill Samples.typed_first (openCreate kind p)) in
  length (table p) = 3%nat
  /\ table p' = table p ++ [Row "d" 0 Samples.new_category]
  /\ ~ (forall x, x ∈ table p' -> id x = "d" ->
          sort_order x = Z.of_nat (length (table p))).
Proof.
  split; [reflexivity|]. split; [reflexivity|].
  intros H. specialize (H (Row "d" 0 Samples.new_category)).
  discriminate H; [|reflexivity].
  vm_compute. do 3 apply list_elem_of_further. apply list_elem_of_here.
Qed.

(** ** Daily traffic statistics *)

Section TrafficFacts.
Import TrafficStats.
Implicit Types (logs : list log) (m : gmap Z dayStats) (tz : TimeZone).

(** *** The loop over the days *)

Lemma next_later tz d : d < setDate_plus tz 1 d.
Proof. pose proof (next_day_later tz d). unfold setDate_plus, HOUR in *. lia. Qed.

Lemma loop_instants_step tz e d :
  d <= e -> loop_instants tz e d = d :: loop_instants tz e (setDate_plus tz 1 d).
Proof.
  intros H. rewrite (loop_instants_equation_1 tz e d).
  destruct (decide (d <= e)); [done|lia].
Qed.

Lemma loop_instants_stop tz e d : e < d -> loop_instants tz e d = [].
Proof.
  intros H. rewrite (loop_instants_equation_1 tz e d).
  destruct (decide (d <= e)); [lia|done].
Qed.

Lemma init_days_step tz e d m :
  d <= e ->
  init_days tz e d m
  = init_days tz e (setDate_plus tz 1 d) (<[dateStr d := no_visit]> m).
Proof.
  intros H. rewrite (init_days_equation_1 tz e d m).
  destruct (decide (d <= e)); [done|lia].
Qed.

Lemma init_days_stop tz e d m : e < d -> init_days tz e d m = m.
Proof.
  intros H. rewrite (init_days_equation_1 tz e d m).
  destruct (decide (d <= e)); [lia|done].
Qed.

(** The loop sets the days of its instants, whatever they held. *)
Lemma init_days_instants tz e d m :
  init_days tz e d m
  = foldl (fun m d => <[dateStr d := no_visit]> m) m (loop_instants tz e d).
Proof.
  funelim (loop_instants tz e d).
  - rewrite init_days_step by done. simpl. apply H.
  - by rewrite init_days_stop by lia.
Qed.

(** The instants of the loop strictly ascend from [d] and do not pass
    [endDate]. *)
Lemma loop_instants_sorted tz e d :
  StronglySorted Z.lt (loop_instants tz e d)
  /\ Forall (fun t => d <= t <= e) (loop_instants tz e d).
Proof.
  funelim (loop_instants tz e d); [|by split; constructor].
  destruct H as [Hs Hb]. pose proof (next_later tz d) as Hn. split.
  - constructor; [done|]. eapply Forall_impl; [exact Hb|]. simpl. lia.
  - constructor; [lia|]. eapply Forall_impl; [exact Hb|]. simpl. lia.
Qed.

Lemma iter_next tz k d :
  Nat.iter k (setDate_plus tz 1) (setDate_plus tz 1 d)
  = Nat.iter (S k) (setDate_plus tz 1) d.
Proof. induction k as [|k IH]; [done|]. simpl in *. by rewrite IH. Qed.

Lemma iter_later tz k d : d <= Nat.iter k (setDate_plus tz 1) d.
Proof.
  induction k as [|k IH]; simpl; [lia|].
  pose proof (next_later tz (Nat.iter k (setDate_plus tz 1) d)). lia.
Qed.

(** The instants of the loop are those reached from [d] by moving to the
    next day, as long as [endDate] is not passed. *)
Lemma elem_of_loop_instants tz e d t :
  t ∈ loop_instants tz e d
  <-> exists k : nat, t = Nat.iter k (setDate_plus tz 1) d /\ t <= e.
Proof.
  funelim (loop_instants tz e d).
  - rewrite elem_of_cons, H. clear H Heq. split.
    + intros [->|(k & -> & Hk)]; [by exists 0%nat|].
      exists (S k). by rewrite <- iter_next.
    + intros ([|k] & -> & Hk); [by left|]. right.
      exists k. by rewrite iter_next.
  - split; [by intros ?%elem_of_nil|].
    intros (k & -> & Hk). pose proof (iter_later tz k d). lia.
Qed.

Lemma elem_of_init_dates tz s e day :
  day ∈ init_dates tz s e <-> initialised tz s e day.
Proof.
  unfold init_dates, initialised. rewrite elem_of_remove_dups, list_elem_of_fmap.
  split.
  - intros (t & -> & (k & -> & Hk)%elem_of_loop_instants). by exists k.
  - intros (k & Hk & ->). eexists. split; [done|].
    apply elem_of_loop_instants. by exists k.
Qed.

Lemma remove_dups_sorted (l : list Z) :
  StronglySorted Z.le l -> StronglySorted Z.lt (remove_dups l).
Proof.
  induction 1 as [|x l Hs IH Hx]; simpl; [constructor|].
  case_decide as Hin; [done|]. constructor; [done|].
  apply Forall_forall. intros y Hy.
  apply (proj1 (elem_of_remove_dups _ _)) in Hy.
  rewrite Forall_forall in Hx. specialize (Hx y Hy).
  assert (x <> y) by (by intros ->). lia.
Qed.

Lemma remove_dups_NoDup_id (l : list Z) : NoDup l -> remove_dups l = l.
Proof.
  induction 1 as [|x l Hx Hnd IH]; simpl; [done|].
  case_decide; [done|]. by rewrite IH.
Qed.

Lemma dateStr_mono a b : a <= b -> dateStr a <= dateStr b.
Proof. intros H. unfold dateStr. by apply Z.div_le_mono. Qed.

Lemma init_dates_sorted tz s e : StronglySorted Z.lt (init_dates tz s e).
Proof.
  apply remove_dups_sorted.
  destruct (loop_instants_sorted tz e s) as [Hs _].
  induction Hs as [|t l Hs IH Ht]; simpl; constructor; [done|].
  apply Forall_fmap. eapply Forall_impl; [exact Ht|].
  intros u Hu. simpl. apply dateStr_mono. lia.
Qed.

Lemma init_dates_NoDup tz s e : NoDup (init_dates tz s e).
Proof. apply NoDup_remove_dups. Qed.

Lemma init_dates_stop tz s e : e < s -> init_dates tz s e = [].
Proof. intros H. unfold init_dates. by rewrite loop_instants_stop. Qed.

Lemma lookup_init_days tz e d m k :
  init_days tz e d m !! k
  = if decide (k ∈ init_dates tz d e) then Some no_visit else m !! k.
Proof.
  rewrite init_days_instants. unfold init_dates.
  generalize (loop_instants tz e d). intros l. revert m.
  induction l as [|t l IH]; intros m.
  - case_decide as Hin; [|done]. by apply elem_of_remove_dups, elem_of_nil in Hin.
  - cbn [foldl]. rewrite IH. clear IH. rewrite fmap_cons.
    assert (k ∈ remove_dups (dateStr t :: (dateStr <$> l))
            <-> k = dateStr t \/ k ∈ remove_dups (dateStr <$> l)) as Hk
      by (by rewrite !elem_of_remove_dups, elem_of_cons).
    destruct (decide (k ∈ remove_dups (dateStr <$> l))) as [Hin|Hnin].
    + by rewrite decide_True by (apply Hk; by right).
    + destruct (decide (k = dateStr t)) as [->|Hne].
      * rewrite lookup_insert_eq. by rewrite decide_True by (apply Hk; by left).
      * rewrite lookup_insert_ne by done. rewrite decide_False; [done|].
        by intros [?|?]%Hk.
Qed.

(** In a zone at a fixed offset the loop moves by 24 hours. *)
Lemma setDate_plus_fixed offset n d : setDate_plus (fixed offset) n d = d + n * DAY.
Proof. unfold setDate_plus, setDate_by. simpl. lia. Qed.

Lemma steps_step s e : s <= e -> steps s e = S (steps (s + DAY) e).
Proof.
  intros H. unfold steps. rewrite decide_True by done.
  case_decide as H'; f_equal.
  - replace (e - s) with (e - (s + DAY) + 1 * DAY) by lia.
    rewrite Z.div_add by done.
    assert (0 <= (e - (s + DAY)) `div` DAY) by (apply Z.div_pos; [lia|done]).
    lia.
  - rewrite Z.div_small; [done|]. unfold DAY in *. lia.
Qed.

Lemma steps_stop s e : e < s -> steps s e = 0%nat.
Proof. intros H. unfold steps. by rewrite decide_False by lia. Qed.

Lemma dateStr_next d : dateStr (d + DAY) = dateStr d + 1.
Proof.
  unfold dateStr. replace (d + DAY) with (d + 1 * DAY) by lia.
  by rewrite Z.div_add.
Qed.

Lemma consecutive_dates_step s e :
  s <= e -> consecutive_dates s e = dateStr s :: consecutive_dates (s + DAY) e.
Proof.
  intros H. unfold consecutive_dates. rewrite (steps_step s e H). simpl.
  f_equal; [lia|]. rewrite <- fmap_S_seq, <- list_fmap_compose.
  apply list_fmap_ext. intros _ i _. simpl. rewrite dateStr_next. lia.
Qed.

Lemma consecutive_dates_NoDup s e : NoDup (consecutive_dates s e).
Proof.
  unfold consecutive_dates. apply NoDup_fmap_2; [|apply NoDup_seq].
  intros i j H. lia.
Qed.

Lemma init_dates_fixed offset s e :
  init_dates (fixed offset) s e = consecutive_dates s e.
Proof.
  unfold init_dates.
  assert (dateStr <$> loop_instants (fixed offset) e s = consecutive_dates s e)
    as ->; [|apply remove_dups_NoDup_id, consecutive_dates_NoDup].
  remember (steps s e) as n eqn:Hn. revert s Hn.
  induction n as [|n IH]; intros s Hn.
  - assert (e < s) as Hlt.
    { unfold steps in Hn. case_decide; [done|lia]. }
    rewrite loop_instants_stop by done.
    unfold consecutive_dates. by rewrite <- Hn.
  - assert (s <= e) as Hle.
    { unfold steps in Hn. case_decide; [done|discriminate]. }
    rewrite loop_instants_step, consecutive_dates_step by done.
    rewrite fmap_cons, setDate_plus_fixed. f_equal.
    replace (s + 1 * DAY) with (s + DAY) by lia. apply IH.
    rewrite (steps_step s e Hle) in Hn. by injection Hn.
Qed.

(** *** The loop over the logs *)

Lemma logs_on_cons day l logs :
  logs_on day (l :: logs)
  = if decide (dateStr (logged_in_at l) = day) then l :: logs_on day logs
    else logs_on day logs.
Proof. unfold logs_on. by rewrite filter_cons. Qed.

Lemma lookup_count_logs logs m k :
  foldl count_log m logs !! k
  = (fun s => {| day_visits := day_visits s + length (logs_on k logs);
                 users := users s ∪ users_on k logs |}) <$> m !! k.
Proof.
  revert m. induction logs as [|l logs IH]; intros m; simpl.
  - destruct (m !! k) as [[v u]|]; simpl; [|done].
    do 2 f_equal; [lia|]. unfold users_on. simpl. by rewrite (right_id_L ∅ (∪)).
  - rewrite IH. unfold count_log, users_on. rewrite logs_on_cons.
    destruct (decide (dateStr (logged_in_at l) = k)) as [Hk|Hne].
    + rewrite Hk. destruct (m !! k) as [[v u]|] eqn:E.
      * rewrite lookup_insert_eq. simpl. do 2 f_equal; [lia|].
        rewrite (assoc_L (∪) u). by rewrite (comm_L (∪) u).
      * by rewrite E.
    + destruct (m !! dateStr (logged_in_at l)) as [[v u]|] eqn:E; [|done].
      by rewrite lookup_insert_ne.
Qed.

(** The map after both loops. *)
Lemma lookup_dailyStats tz s e logs k :
  foldl count_log (init_days tz e s ∅) logs !! k
  = if decide (k ∈ init_dates tz s e)
    then Some {| day_visits := length (logs_on k logs); users := users_on k logs |}
    else None.
Proof.
  rewrite lookup_count_logs, lookup_init_days. case_decide; simpl.
  - do 2 f_equal. apply (left_id_L ∅ (∪)).
  - by rewrite lookup_empty.
Qed.

Lemma dailyStats_entries tz s e logs :
  to_stats <$> map_to_list (foldl count_log (init_days tz e s ∅) logs)
  ≡ₚ bucket logs <$> init_dates tz s e.
Proof.
  set (entry := fun k : Z =>
    (k, {| day_visits := length (logs_on k logs); users := users_on k logs |})).
  assert ((entry <$> init_dates tz s e).*1 = init_dates tz s e) as Hkeys.
  { rewrite <- list_fmap_compose. rewrite <- (list_fmap_id (init_dates tz s e)) at 2.
    by apply list_fmap_ext. }
  assert (foldl count_log (init_days tz e s ∅) logs
          = list_to_map (entry <$> init_dates tz s e)) as ->.
  { apply map_eq. intros k. rewrite lookup_dailyStats. case_decide as Hk.
    - symmetry. apply elem_of_list_to_map_1.
      + rewrite Hkeys. apply init_dates_NoDup.
      + apply list_elem_of_fmap. by exists k.
    - symmetry. apply not_elem_of_list_to_map_1. by rewrite Hkeys. }
  rewrite map_to_list_to_map by (rewrite Hkeys; apply init_dates_NoDup).
  rewrite <- list_fmap_compose. done.
Qed.

#[local] Instance by_date_trans : Transitive by_date.
Proof. unfold by_date. intros a b c. lia. Qed.

#[local] Instance by_date_total : Total by_date.
Proof. unfold by_date. intros a b. lia. Qed.

Lemma buckets_sorted logs ks :
  StronglySorted Z.lt ks -> StronglySorted by_date (bucket logs <$> ks).
Proof.
  induction 1 as [|k ks Hs IH Hk]; simpl; constructor; [done|].
  apply Forall_fmap. eapply Forall_impl; [exact Hk|].
  intros j Hj. unfold by_date. simpl. lia.
Qed.

(** The statistics, in full: one bucket for each initialised day, in the order
    of the days, with the number of the logs of the day and the number of
    their distinct users. *)
Lemma processLogs_spec tz s e logs :
  processLogs tz s e (Some logs) = bucket logs <$> init_dates tz s e.
Proof.
  unfold processLogs. simpl.
  assert (merge_sort by_date
            (to_stats <$> map_to_list (foldl count_log (init_days tz e s ∅) logs))
          ≡ₚ bucket logs <$> init_dates tz s e) as Hperm.
  { rewrite merge_sort_Permutation. apply dailyStats_entries. }
  apply (StronglySorted_unique_strong by_date);
    [| |by apply buckets_sorted, init_dates_sorted|done].
  - intros x1 x2 H1 H2 Hle Hge. rewrite Hperm in H1.
    apply list_elem_of_fmap in H1 as (k1 & -> & _).
    apply list_elem_of_fmap in H2 as (k2 & -> & _).
    unfold by_date in *. simpl in *. f_equal. lia.
  - apply StronglySorted_merge_sort; apply _.
Qed.

Lemma processLogs_null tz s e : processLogs tz s e None = processLogs tz s e (Some []).
Proof. reflexivity. Qed.

Lemma processLogs_dates tz s e logs :
  date <$> processLogs tz s e (Some logs) = init_dates tz s e.
Proof.
  rewrite processLogs_spec, <- list_fmap_compose.
  rewrite <- (list_fmap_id (init_dates tz s e)) at 2. by apply list_fmap_ext.
Qed.

Lemma processLogs_fixed offset s e logs :
  processLogs (fixed offset) s e (Some logs) = bucket logs <$> consecutive_dates s e.
Proof. by rewrite processLogs_spec, init_dates_fixed. Qed.

Lemma processLogs_reversed tz s e loginLogs :
  e < s -> processLogs tz s e loginLogs = [].
Proof.
  intros H. destruct loginLogs as [logs|]; [|rewrite processLogs_null];
    by rewrite processLogs_spec, init_dates_stop.
Qed.

(** The logs of a list of distinct days. *)
Lemma logs_on_days (ks : list Z) logs :
  NoDup ks ->
  sum_list ((fun k => length (logs_on k logs)) <$> ks)
  = length (filter (fun l => dateStr (logged_in_at l) ∈ ks) logs).
Proof.
  induction 1 as [|k ks Hk Hnd IH].
  - simpl. induction logs as [|l logs IHl]; [done|].
    rewrite filter_cons. by rewrite decide_False by apply not_elem_of_nil.
  - rewrite fmap_cons. cbn [sum_list sum_list_with]. rewrite IH. clear IH.
    unfold logs_on, Datatypes.id.
    induction logs as [|l logs IHl]; [done|].
    rewrite !filter_cons.
    destruct (decide (dateStr (logged_in_at l) = k)) as [Heq|Hne].
    + rewrite (decide_True (P := _ ∈ _ :: _)) by (rewrite Heq; apply list_elem_of_here).
      rewrite (decide_False (P := _ ∈ ks)) by (by rewrite Heq).
      simpl. lia.
    + destruct (decide (dateStr (logged_in_at l) ∈ ks)) as [Hin|Hnin].
      * rewrite (decide_True (P := _ ∈ _ :: _)) by (by apply list_elem_of_further).
        simpl. lia.
      * rewrite (decide_False (P := _ ∈ _ :: _)); [done|].
        by intros [?|?]%elem_of_cons.
Qed.

(** C5.  In every time zone, for every range and every list of selected
    logs, [fetchStats] ends with the statistics, not with an error, and in
    them: the dates strictly ascend and are the days the loop initialises
    (the days of the instants reached from [startDate] by moving to the next
    day without passing [endDate]); the bucket of a day counts the logs whose
    instant falls on that day (UTC) and the distinct users among them; the
    counts of all buckets add up to the number of logs whose day has a
    bucket.  Logs of other days are in no bucket.  In a zone at a fixed
    offset the days are consecutive. *)
Theorem buckets_count_the_logs_of_their_day tz s e logs :
  let out := processLogs tz s e (Some logs) in
  aggregate tz s e {| data := Some logs; error := None |} = setStats out
  /\ StronglySorted Z.lt (date <$> out)
  /\ (forall day, day ∈ date <$> out <-> initialised tz s e day)
  /\ (forall b, b ∈ out ->
        visits b = length (logs_on (date b) logs)
        /\ unique_users b = size (users_on (date b) logs))
  /\ sum_list (visits <$> out)
     = length (filter (fun l => dateStr (logged_in_at l) ∈ date <$> out) logs)
  /\ (forall offset,
        date <$> processLogs (fixed offset) s e (Some logs)
        = (fun i => dateStr s + Z.of_nat i) <$> seq 0 (steps s e)).
Proof.
  intros out. unfold out, aggregate. simpl. rewrite processLogs_dates.
  split; [done|]. split; [apply init_dates_sorted|].
  split; [intros day; apply elem_of_init_dates|]. split; [|split].
  - rewrite processLogs_spec. by intros b (k & -> & _)%list_elem_of_fmap.
  - rewrite processLogs_spec, <- list_fmap_compose.
    apply logs_on_days, init_dates_NoDup.
  - intros offset. by rewrite processLogs_dates, init_dates_fixed.
Qed.

(** The scenario of the specification: two logs of user A and one of user B
    on the first day, one of user A on the third. *)
Example three_days :
  processLogs utc 0 (2 * DAY)
    (Some [ {| logged_in_at := 5; user_id := "A" |};
            {| logged_in_at := DAY - 1; user_id := "A" |};
            {| logged_in_at := 0; user_id := "B" |};
            {| logged_in_at := 2 * DAY; user_id := "A" |} ])
  = [ {| date := 0; visits := 3; unique_users := 2 |};
      {| date := 1; visits := 0; unique_users := 0 |};
      {| date := 2; visits := 1; unique_users := 1 |} ].
Proof. vm_compute. reflexivity. Qed.

(** Without logs every bucket is empty. *)
Lemma processLogs_no_logs tz s e :
  processLogs tz s e (Some [])
  = (fun day => {| date := day; visits := 0; unique_users := 0 |}) <$> init_dates tz s e.
Proof. rewrite processLogs_spec. by apply list_fmap_ext. Qed.

(** The dates of the buckets strictly ascend. *)
Lemma processLogs_ascending tz s e logs :
  StronglySorted Z.lt (date <$> processLogs tz s e (Some logs)).
Proof. rewrite processLogs_dates. apply init_dates_sorted. Qed.

(** *** The number of buckets *)

Lemma processLogs_length offset s e logs :
  length (processLogs (fixed offset) s e (Some logs)) = steps s e.
Proof.
  rewrite processLogs_fixed. unfold consecutive_dates.
  by rewrite !length_fmap, length_seq.
Qed.

(** The steps of 24 hours reach the day of [endDate] exactly when
    [startDate] is not later in its day than [endDate] is in its own. *)
Lemma steps_inclusive_days s e :
  s <= e ->
  Z.of_nat (steps s e)
  = inclusive_days s e - (if decide (e `mod` DAY < s `mod` DAY) then 1 else 0).
Proof.
  intros H. unfold steps, inclusive_days, dateStr. rewrite decide_True by done.
  assert (0 <= (e - s) `div` DAY) by (apply Z.div_pos; [lia|done]).
  rewrite Nat2Z.inj_succ, Z2Nat.id by done.
  pose proof (Z.div_mod s DAY ltac:(done)) as Hs.
  pose proof (Z.div_mod e DAY ltac:(done)) as He.
  pose proof (Z.mod_pos_bound s DAY ltac:(done)) as Hsm.
  pose proof (Z.mod_pos_bound e DAY ltac:(done)) as Hem.
  case_decide as Hlt.
  - assert ((e - s) `div` DAY = e `div` DAY - s `div` DAY - 1) as ->; [|lia].
    symmetry. apply (Z.div_unique _ _ _ (e `mod` DAY - s `mod` DAY + DAY)); lia.
  - assert ((e - s) `div` DAY = e `div` DAY - s `div` DAY) as ->; [|lia].
    symmetry. apply (Z.div_unique _ _ _ (e `mod` DAY - s `mod` DAY)); lia.
Qed.

(** C4, on the code.  [fetchStats] reads the clock twice, first for
    [endDate], then for [startDate].  When the second reading is one
    millisecond later than the first (here 2023-11-14T22:13:20.000Z and
    .001Z) and the range is 7 days, then in every zone at a fixed offset
    from UTC the range spans 8 calendar days, the statistics have 7 buckets,
    and the day of [endDate] has none: the login selected for that day is
    dropped. *)
Theorem fetchStats_skips_the_last_day :
  let now1 := 1700000000000 in
  let now2 := now1 + 1 in
  let startDate := now2 - 7 * DAY in
  let today := {| logged_in_at := now1 - 1000; user_id := "A" |} in
  startDate <= logged_in_at today <= now1
  /\ inclusive_days startDate now1 = 8
  /\ dateStr now1 = 19675
  /\ forall offset,
       setDate_plus (fixed offset) (- range_days range_7d) now2 = startDate
       /\ fetchStats (fixed offset) now1 now2 range_7d
            {| data := Some [today]; error := None |}
          = setStats ((fun day => {| date := day; visits := 0; unique_users := 0 |})
                        <$> [19668; 19669; 19670; 19671; 19672; 19673; 19674]).
Proof.
  split; [by vm_compute|]. split; [by vm_compute|]. split; [by vm_compute|].
  intros offset. split; [by rewrite setDate_plus_fixed|].
  unfold fetchStats, aggregate. cbn [error data].
  rewrite setDate_plus_fixed, processLogs_fixed. by vm_compute.
Qed.

(** With the two readings equal the same range has its 8 buckets. *)
Example fetchStats_same_instant :
  let now := 1700000000000 in
  fetchStats utc now now range_7d {| data := Some []; error := None |}
  = setStats ((fun day => {| date := day; visits := 0; unique_users := 0 |})
                <$> [19668; 19669; 19670; 19671; 19672; 19673; 19674; 19675]).
Proof. vm_compute. reflexivity. Qed.

(** C6, as stated, does not hold: with [startDate] after [endDate] the
    loop over the days does not run, the statistics are empty and no error is
    set. *)
Lemma aggregate_reversed_range :
  let response := {| data := Some [ {| logged_in_at := 0; user_id := "A" |} ];
                     error := None |} in
  0 < 1 /\ (forall tz, aggregate tz 1 0 response = setStats [])
  /\ ~ (exists tz message, aggregate tz 1 0 response = setError message).
Proof.
  split; [done|]. split; [|by intros (tz & message & H)].
  intros tz. unfold aggregate. cbn [error data].
  by rewrite processLogs_reversed.
Qed.

(** C6, as the code has it.  With [startDate] after [endDate] and a select
    that did not fail, [fetchStats] ends with empty statistics; the only
    error it ever sets is the one of a failed select. *)
Theorem aggregate_reversed_range_is_empty tz s e response :
  e < s ->
  (error response = None -> aggregate tz s e response = setStats [])
  /\ (forall message, aggregate tz s e response = setError message ->
        is_Some (error response) /\ message = "加载统计数据失败").
Proof.
  intros H. unfold aggregate. destruct (error response) as [err|].
  - split; [done|]. intros message [= <-]. split; [by exists err|done].
  - split; [|done]. intros _. f_equal. by apply processLogs_reversed.
Qed.

End TrafficFacts.

(** C6 on a range that ends before it starts. *)
Lemma aggregate_reversed_range_is_empty_witness :
  TrafficStats.aggregate TrafficStats.utc 5 2
    {| TrafficStats.data := None; TrafficStats.error := None |}
  = TrafficStats.setStats [].
Proof.
  apply (aggregate_reversed_range_is_empty TrafficStats.utc 5 2
           {| TrafficStats.data := None; TrafficStats.error := None |});
    [simpl; lia|reflexivity].
Defined.

(** ** The chapter CSV import *)

Section ImportFacts.
Import Chapters.

(** *** Counting words *)

Lemma split_ws_tokens s :
  length (List.filter truthy (split_ws s)) = count_tokens true s
  /\ length (List.filter truthy (tail (split_ws s))) = count_tokens false s
  /\ exists t ts, split_ws s = t :: ts
       /\ (forall c s', s = c :: s' -> is_ws c = true -> t = []).
Proof.
  induction s as [|c s (IHt & IHf & t & ts & Hs & Hhead)]; simpl.
  - repeat split. exists [], []. split; [done|]. by intros c s' [=].
  - rewrite Hs in IHt, IHf |- *. simpl in IHf.
    destruct (is_ws c) eqn:Hc.
    + destruct s as [|c' s'].
      * simpl in *. injection Hs as <- <-. repeat split.
        exists [], [[]]. by split.
      * destruct (is_ws c') eqn:Hc'.
        -- rewrite (Hhead c' s' eq_refl Hc') in *. simpl in IHt.
           repeat split; [done..|]. exists [], ts. by split.
        -- repeat split; [done..|]. exists [], (t :: ts). by split.
    + simpl. repeat split; [by rewrite IHf..|].
      exists (c :: t), ts. split; [done|]. intros ? ? [= <- <-]. congruence.
Qed.

Lemma trimStart_tokens s : count_tokens true (trimStart s) = count_tokens true s.
Proof.
  induction s as [|c s IH]; simpl; [done|].
  destruct (is_ws c) eqn:Hc; [done|]. simpl. by rewrite Hc.
Qed.

Lemma trimEnd_tokens b s : count_tokens b (trimEnd s) = count_tokens b s.
Proof.
  revert b. induction s as [|c s IH]; intros b; simpl; [done|].
  destruct (trimEnd s) as [|c' t] eqn:E.
  - destruct (is_ws c) eqn:Hc; simpl; rewrite ?Hc, <- IH; done.
  - cbn [count_tokens]. destruct (is_ws c); by rewrite <- IH.
Qed.

(** The words of a text as the code counts them: the non-empty pieces of the
    trimmed text between runs of white space are its maximal runs of other
    characters. *)
Lemma wordCount_tokens s :
  length (List.filter truthy (split_ws (trim s))) = count_tokens true s.
Proof.
  destruct (split_ws_tokens (trim s)) as [-> _].
  unfold trim. by rewrite trimEnd_tokens, trimStart_tokens.
Qed.

(** *** The comparison with ['true'] *)

Lemma lower_unit_inv c v :
  lower_unit c = v -> c = v \/ (v = c + 32 /\ 65 <= c <= 90)%N.
Proof.
  unfold lower_unit.
  destruct (N.leb_spec 65 c), (N.leb_spec c 90); simpl; intros <-; auto.
Qed.

Lemma toLowerCase_true s :
  toLowerCase s = js "true" <-> is_true_ignoring_case s.
Proof.
  change (js "true") with [116; 114; 117; 101]%N. split.
  - destruct s as [|t [|r [|u [|e [|? ?]]]]]; try done.
    intros [= Ht Hr Hu He]. exists t, r, u, e. split; [done|].
    apply lower_unit_inv in Ht, Hr, Hu, He. lia.
  - intros (t & r & u & e & -> & [-> | ->] & [-> | ->] & [-> | ->] & [-> | ->]);
      reflexivity.
Qed.

(** The title of a row without one is made of its index. *)
Example import_row_untitled :
  title (import_row "book" 4
           {| row_order := Some (js "5"); row_title := Some (js "  ");
              row_content := Some (js " one two  three "); row_is_vip := None;
              row_publish_at := Some (js "2024-01-01") |})
  = [31456; 33410; 32; 53]%N
  /\ word_count (import_row "book" 4
           {| row_order := Some (js "5"); row_title := Some (js "  ");
              row_content := Some (js " one two  three "); row_is_vip := None;
              row_publish_at := Some (js "2024-01-01") |}) = 3%nat.
Proof. split; reflexivity. Qed.

End ImportFacts.

(** ** The coin transaction export *)

Section ExportFacts.
Import Coins.
Variable toLocaleString : string -> jsstring.
Variable inherited : jsstring -> option value.

(** *** Doubling the quotes *)

Lemma double_quotes_cons c s :
  double_quotes (c :: s)
  = (if (c =? quote)%N then [quote; quote] else [c]) ++ double_quotes s.
Proof. reflexivity. Qed.

Lemma double_quotes_escape s : double_quotes s = escape s.
Proof.
  induction s as [|c s IH]; [done|].
  rewrite double_quotes_cons, IH. simpl. unfold quote.
  by destruct (c =? 34)%N.
Qed.




(** *** The lines *)

(** Every label of [typeLabels] is a non-empty text, so the fallback to the
    type is not taken for the four keys. *)
Lemma typeLabels_truthy ty label : typeLabels !! ty = Some label -> truthy label = true.
Proof.
  unfold typeLabels. intros H%elem_of_list_to_map_2.
  repeat (apply elem_of_cons in H as [[= -> ->]|H]; [done|]).
  by apply not_elem_of_nil in H.
Qed.

Lemma exported_type_label t label :
  typeLabels !! type t = Some label -> exported_type inherited t = VString label.
Proof.
  intros E. unfold exported_type, typeLabels_at. rewrite E. simpl.
  by rewrite (typeLabels_truthy _ _ E).
Qed.

Lemma exported_type_other t :
  typeLabels !! type t = None -> inherited (type t) = None ->
  exported_type inherited t = VString (type t).
Proof. intros E E'. unfold exported_type, typeLabels_at. by rewrite E, E'. Qed.

Lemma cell_field v : ToString (cell v) = field v.
Proof. destruct v; [|done..]. simpl. unfold quoted. by rewrite double_quotes_escape. Qed.

Lemma row_line t :
  join (js ",") (ToString ∘ cell <$> (snd <$> csv_object toLocaleString inherited t))
  = line toLocaleString inherited t.
Proof.
  unfold line. cbn [csv_object fmap list_fmap snd join compose].
  rewrite !cell_field. reflexivity.
Qed.

(** The text of a list of lines under a header. *)
Lemma join_lines header (lines : list jsstring) :
  lines <> [] ->
  join [10%N] (header :: lines) = header ++ concat ((fun l => 10%N :: l) <$> lines).
Proof.
  intros Hne. revert header. induction lines as [|l lines IH]; intros header; [done|].
  destruct lines as [|l' lines].
  - simpl. by rewrite app_nil_r.
  - change (join [10%N] (header :: l :: l' :: lines))
      with (header ++ [10%N] ++ join [10%N] (l :: l' :: lines)).
    rewrite IH by done. reflexivity.
Qed.

Lemma to_csv_text (txs : list CoinTransaction) :
  txs <> [] ->
  to_csv toLocaleString inherited (Some txs)
  = js "Username,Amount,Type,Description,Transaction Date"
    ++ concat ((fun t => 10%N :: line toLocaleString inherited t) <$> txs).
Proof.
  intros Hne.
  change (to_csv toLocaleString inherited (Some txs))
    with (join [10%N]
            (join (js ",")
               (fst <$> default [] (head (csv_object toLocaleString inherited <$> txs)))
             :: ((fun row => join (js ",") (ToString ∘ cell <$> (snd <$> row)))
                   <$> (csv_object toLocaleString inherited <$> txs)))).
  rewrite <- list_fmap_compose.
  assert ((fun row => join (js ",") (ToString ∘ cell <$> (snd <$> row)))
            ∘ csv_object toLocaleString inherited <$> txs
          = line toLocaleString inherited <$> txs) as ->
    by (apply list_fmap_ext; intros _ t _; apply row_line).
  rewrite join_lines by (by destruct txs).
  rewrite <- list_fmap_compose. by destruct txs.
Qed.


End ExportFacts.


Example to_csv_sample :
  Coins.to_csv ExportSamples.toLocaleString ExportSamples.inherited
    (Some [ExportSamples.unlock; ExportSamples.odd_type])
  = js "Username,Amount,Type,Description,Transaction Date" ++ [10%N]
    ++ [34%N] ++ js "bob" ++ [34%N] ++ js ",-50," ++ [34; 35299; 38145; 34]%N
    ++ js "," ++ [34%N] ++ js "Said " ++ [34; 34]%N ++ js "hi" ++ [34; 34; 34]%N
    ++ js "," ++ [34%N] ++ js "1/2/2024, 3:04:05 PM" ++ [34%N] ++ [10%N]
    ++ [34%N] ++ js "eve" ++ [34%N] ++ js ",7,"
    ++ js "function Object() { [native code] }"
    ++ js "," ++ [34%N] ++ js "a, b" ++ [34%N]
    ++ js "," ++ [34%N] ++ js "1/2/2024, 3:04:05 PM" ++ [34%N].
Proof. vm_compute. reflexivity. Qed.

(** ** The other actions of the two pages *)

Section OrderActionsFacts.
Context {A : Type} (kind : page_kind A) (actions : row_actions A).
Implicit Types (p : page A) (r q c x : row A) (t : list (row A)).

Lemma unordered_exchange t i v2 j v1 :
  unordered (exchange i v2 j v1 <$> t) = unordered t.
Proof.
  unfold unordered. rewrite <- list_fmap_compose. apply list_fmap_ext.
  intros _ x _. simpl. by rewrite id_exchange, fields_exchange.
Qed.

Lemma handleMove_not_found d i k rs p :
  List.find (fun c => sort_order c =? k + d) (categories p) = None ->
  handleMove kind d i k rs p = p.
Proof. intros H. unfold handleMove. by rewrite H. Qed.

(** One move in either direction, its requests accepted. *)
Lemma handleMove_consistent d c rs p :
  d <> 0 -> consistent p -> all_accepted rs -> c ∈ categories p ->
  consistent (handleMove kind d (id c) (sort_order c) rs p)
  /\ unordered (table (handleMove kind d (id c) (sort_order c) rs p))
     = unordered (table p).
Proof.
  intros Hd (Hnd & Hden & Hl) (E1 & E2 & E3) Hc.
  destruct (List.find (fun x => sort_order x =? sort_order c + d) (categories p))
    as [q|] eqn:Hf.
  - destruct (neighbour_facts d p c q) as (Hc' & Hq' & _ & Hne); [done..|].
    pose proof (handleMove_exchange kind d p c q rs Hd Hnd Hl Hc Hf E1 E2) as Ht.
    unfold consistent. rewrite Ht.
    split; [|apply unordered_exchange]. split; [|split].
    + by rewrite ids_exchange.
    + by apply exchange_dense.
    + by apply (categories_handleMove kind d _ _ rs p q).
  - by rewrite handleMove_not_found.
Qed.

Lemma do_press_consistent pr p :
  consistent p -> all_accepted (responses_of pr) ->
  consistent (do_press kind pr p)
  /\ unordered (table (do_press kind pr p)) = unordered (table p).
Proof.
  intros Hp Hrs. destruct pr as [i rs|i rs]; simpl in *.
  - unfold moveUp.
    destruct (List.find _ (categories p)) as [c|] eqn:Hf; [|done].
    apply find_some in Hf as [Hc%list_elem_of_In _]. unfold clickMoveUp.
    destruct (sort_order c =? 0); [done|].
    rewrite handleMoveUp_direction. by apply handleMove_consistent.
  - unfold moveDown.
    destruct (List.find _ (categories p)) as [c|] eqn:Hf; [|done].
    apply find_some in Hf as [Hc%list_elem_of_In _]. unfold clickMoveDown.
    destruct (sort_order c =? _); [done|].
    rewrite handleMoveDown_direction. by apply handleMove_consistent.
Qed.

(** X1.  Presses on the arrows, in any number and any order, on any ids, keep
    the table in order as long as the backend accepts their requests: the
    ids stay distinct, the positions stay 0 .. N-1, each once, the page
    shows the rows of the table, and no row is added, removed or changed in
    another column. *)
Theorem presses_keep_the_order_dense (presses : list press) p :
  consistent p -> Forall (fun pr => all_accepted (responses_of pr)) presses ->
  let p' := foldl (fun p pr => do_press kind pr p) p presses in
  consistent p' /\ unordered (table p') = unordered (table p).
Proof.
  revert p. induction presses as [|pr presses IH]; intros p Hp Hall; [done|].
  apply Forall_cons in Hall as [Hpr Hall]. simpl.
  destruct (do_press_consistent pr p Hp Hpr) as [Hp1 Hu1].
  destruct (IH (do_press kind pr p) Hp1 Hall) as [Hp' Hu'].
  split; [done|]. by rewrite Hu'.
Qed.

(** A move whose first update is applied and whose second is rejected. *)
Lemma handleMove_second_fails d p r q rs e :
  d <> 0 -> NoDup (id <$> table p) -> dense (table p) -> loaded p ->
  r ∈ categories p ->
  List.find (fun c => sort_order c =? sort_order r + d) (categories p) = Some q ->
  error1 rs = None -> error2 rs = Some e ->
  let p' := handleMove kind d (id r) (sort_order r) rs p in
  table p' = update_sort_order (sort_order r) (id q) (table p)
  /\ r ∈ table p' /\ set_sort_order (sort_order r) q ∈ table p'
  /\ id q <> id r
  /\ ~ NoDup (sort_order <$> table p') /\ ~ dense (table p')
  /\ console p' = e :: console p /\ categories p' = categories p.
Proof.
  intros Hd Hnd Hden Hl Hr Hf E1 E2 p'.
  destruct (neighbour_facts d p r q) as (Hr' & Hq' & Hv & Hne); [done..|].
  assert (table p' = update_sort_order (sort_order r) (id q) (table p)) as Ht.
  { unfold p'. by rewrite (table_handleMove kind _ _ _ _ _ _ Hf), E1, E2. }
  assert (r ∈ table p') as Hr1.
  { rewrite Ht. unfold update_sort_order. apply list_elem_of_fmap.
    exists r. by rewrite decide_False. }
  assert (set_sort_order (sort_order r) q ∈ table p') as Hq1.
  { rewrite Ht. unfold update_sort_order. apply list_elem_of_fmap.
    exists q. by rewrite decide_True. }
  assert (~ NoDup (sort_order <$> table p')) as Hdup.
  { intros Hnd'.
    apply elem_of_Permutation in Hr1 as [t1 Ht1].
    rewrite Ht1 in Hq1, Hnd'. apply elem_of_cons in Hq1 as [Hq1|Hq1].
    - apply Hne. by rewrite <- Hq1.
    - rewrite fmap_cons in Hnd'. apply NoDup_cons in Hnd' as [Hnot _].
      apply Hnot. by apply (list_elem_of_fmap_2 sort_order) in Hq1. }
  split; [done|]. split; [done|]. split; [done|]. split; [congruence|].
  split; [done|]. split; [intros Hd'; by apply Hdup, dense_NoDup|].
  unfold p', handleMove. rewrite Hf, E1, E2. unfold catch_move.
  by rewrite console_show, categories_show.
Qed.

(** X2.  When the update of the neighbour [q] is applied and the update of
    the moved row [r] is rejected, [r] stays at k and [q] is at k as well:
    the positions hold a duplicate, the error of the second update goes to
    the console and the page keeps the rows it had loaded.  For
    [handleMoveUp] and for [handleMoveDown]. *)
Theorem second_update_failure_duplicates_position p r rs e :
  NoDup (id <$> table p) -> dense (table p) -> loaded p -> r ∈ categories p ->
  error1 rs = None -> error2 rs = Some e ->
  (forall q,
     List.find (fun c => sort_order c =? sort_order r - 1) (categories p) = Some q ->
     let p' := handleMoveUp kind (id r) (sort_order r) rs p in
     r ∈ table p' /\ set_sort_order (sort_order r) q ∈ table p' /\ id q <> id r
     /\ ~ NoDup (sort_order <$> table p') /\ ~ dense (table p')
     /\ console p' = e :: console p /\ categories p' = categories p)
  /\
  (forall q,
     List.find (fun c => sort_order c =? sort_order r + 1) (categories p) = Some q ->
     let p' := handleMoveDown kind (id r) (sort_order r) rs p in
     r ∈ table p' /\ set_sort_order (sort_order r) q ∈ table p' /\ id q <> id r
     /\ ~ NoDup (sort_order <$> table p') /\ ~ dense (table p')
     /\ console p' = e :: console p /\ categories p' = categories p).
Proof.
  intros Hnd Hden Hl Hr E1 E2. split; intros q Hf p'.
  - by destruct (handleMove_second_fails (-1) p r q rs e) as (_ & H).
  - by destruct (handleMove_second_fails 1 p r q rs e) as (_ & H).
Qed.

(** X3.  When both updates are rejected the table is as before, the page
    keeps its rows, and only the error of the first update is reported: the
    second one is lost.  For both handlers, whatever the page and the
    arguments. *)
Theorem both_updates_rejected_reports_the_first i k rs p e1 e2 :
  error1 rs = Some e1 -> error2 rs = Some e2 ->
  (forall q,
     List.find (fun c => sort_order c =? k - 1) (categories p) = Some q ->
     let p' := handleMoveUp kind i k rs p in
     table p' = table p /\ categories p' = categories p
     /\ console p' = e1 :: console p)
  /\
  (forall q,
     List.find (fun c => sort_order c =? k + 1) (categories p) = Some q ->
     let p' := handleMoveDown kind i k rs p in
     table p' = table p /\ categories p' = categories p
     /\ console p' = e1 :: console p).
Proof.
  intros E1 E2. split; intros q Hf p'; unfold p'.
  - unfold handleMoveUp. rewrite Hf, E1, E2. unfold catch_move. simpl.
    by rewrite table_show, categories_show, console_show.
  - unfold handleMoveDown. rewrite Hf, E1, E2. unfold catch_move. simpl.
    by rewrite table_show, categories_show, console_show.
Qed.

#[local] Instance by_sort_order_trans : Transitive (@by_sort_order A).
Proof. unfold by_sort_order. intros a b c. lia. Qed.

#[local] Instance by_sort_order_total : Total (@by_sort_order A).
Proof. unfold by_sort_order. intros a b. lia. Qed.

Lemma positions_sorted n : StronglySorted Z.le (Z.of_nat <$> seq 0 n).
Proof.
  generalize 0%nat as a. induction n as [|n IH]; intros a; simpl; constructor.
  - apply IH.
  - apply Forall_forall. intros k (j & -> & Hj%elem_of_seq)%list_elem_of_fmap. lia.
Qed.

(** X4.  A fetch that succeeds shows the rows of the table, each once, by
    ascending position.  When the positions of the table are 0 .. N-1, each
    once, the row shown in place n (from 0) is the row at position n: the
    first row shown is the one whose up arrow is disabled, the last one the
    one whose down arrow is. *)
Theorem fetch_shows_rows_by_position p :
  let p' := fetchCategories kind None p in
  categories p' ≡ₚ table p
  /\ StronglySorted Z.le (sort_order <$> categories p')
  /\ (dense (table p) ->
      sort_order <$> categories p' = Z.of_nat <$> seq 0 (length (table p))).
Proof.
  intros p'. unfold p'. simpl.
  assert (StronglySorted Z.le (sort_order <$> select_ordered (table p))) as Hs.
  { apply (StronglySorted_fmap _ by_sort_order); [done|].
    apply StronglySorted_merge_sort; apply _. }
  split; [apply merge_sort_Permutation|]. split; [done|].
  intros Hd. apply (StronglySorted_unique Z.le); [done|apply positions_sorted|].
  unfold select_ordered. by rewrite merge_sort_Permutation.
Qed.

Lemma delete_row_others i t :
  Forall (fun x => id x <> i) t -> delete_row i t = t.
Proof.
  unfold delete_row. induction 1 as [|x t Hx _ IH]; [done|].
  rewrite filter_cons_True by done. by rewrite IH.
Qed.

(** Deleting by id removes the row with that id and no other. *)
Lemma delete_row_Permutation t r rest :
  NoDup (id <$> t) -> t ≡ₚ r :: rest -> delete_row (id r) t ≡ₚ rest.
Proof.
  intros Hnd Ht. unfold delete_row. rewrite Ht in Hnd |- *.
  rewrite fmap_cons in Hnd. apply NoDup_cons in Hnd as [Hr _].
  rewrite filter_cons_False by (by intros H; apply H).
  fold (delete_row (id r) rest). rewrite delete_row_others; [done|].
  apply Forall_forall. intros x Hx Heq. apply Hr. rewrite <- Heq.
  by apply list_elem_of_fmap_2.
Qed.

(** X5.  Deleting a row closes no gap: with positions 0 .. N-1, each once,
    before, the positions after an accepted delete are again dense exactly
    when the deleted row was the last one (position N-1).  The ids stay
    distinct and the other rows are as they were. *)
Theorem delete_keeps_dense_only_at_the_end p r refetch :
  NoDup (id <$> table p) -> dense (table p) -> r ∈ table p ->
  let p' := handleDelete kind actions (id r) None refetch p in
  table p' = delete_row (id r) (table p)
  /\ r :: table p' ≡ₚ table p
  /\ NoDup (id <$> table p')
  /\ (dense (table p') <-> sort_order r = Z.of_nat (length (table p)) - 1).
Proof.
  intros Hnd Hden Hr p'.
  assert (table p' = delete_row (id r) (table p)) as Ht.
  { unfold p', handleDelete. by rewrite table_fetchCategories. }
  apply elem_of_Permutation in Hr as [rest Hrest].
  pose proof (delete_row_Permutation _ _ _ Hnd Hrest) as Hdel.
  rewrite Ht. split; [done|]. split; [by rewrite Hdel, Hrest|].
  split.
  { rewrite Hdel. rewrite Hrest, fmap_cons in Hnd.
    by apply NoDup_cons in Hnd as [_ ?]. }
  pose proof (dense_NoDup _ Hden) as Hnds.
  assert (length (table p) = S (length rest)) as Hlen by (by rewrite Hrest).
  assert (length (delete_row (id r) (table p)) = length rest) as Hlen'
    by (by rewrite Hdel).
  assert (sort_order <$> delete_row (id r) (table p) ≡ₚ sort_order <$> rest)
    as Hpos by (by rewrite Hdel).
  assert (sort_order r :: (sort_order <$> rest)
          ≡ₚ (Z.of_nat <$> seq 0 (length rest)) ++ [Z.of_nat (length rest)])
    as Hall.
  { unfold dense in Hden. rewrite Hlen, seq_S, fmap_app in Hden. simpl in Hden.
    rewrite <- Hden. by rewrite Hrest. }
  assert (NoDup (sort_order r :: (sort_order <$> rest))) as Hnd'
    by (by rewrite Hrest in Hnds).
  unfold dense. rewrite Hlen, Hlen', Hpos. split.
  - intros Hrest'. rewrite Hrest' in Hall, Hnd'.
    apply NoDup_cons in Hnd' as [Hnot _].
    assert (sort_order r ∈ (Z.of_nat <$> seq 0 (length rest)) ++ [Z.of_nat (length rest)])
      as Hin by (rewrite <- Hall; apply list_elem_of_here).
    apply elem_of_app in Hin as [Hin|Hin]; [done|].
    apply list_elem_of_singleton in Hin. lia.
  - intros Hv.
    replace (sort_order r) with (Z.of_nat (length rest)) in Hall by lia.
    rewrite <- Permutation_cons_append in Hall.
    by apply Permutation_cons_inv in Hall.
Qed.

(** X6.  A delete followed by a create repeats a position.  With positions
    0 .. N-1 before, after the accepted delete of a row that is not the last
    and the refetch, the form for a new record opens with N-1 in its
    position field, the position of the row that was and still is the last;
    submitted with that field untouched, it leaves two rows at N-1. *)
Theorem create_after_delete_repeats_a_position p r evs rs new_id :
  NoDup (id <$> table p) -> dense (table p) -> r ∈ table p ->
  sort_order r < Z.of_nat (length (table p)) - 1 ->
  Forall (fun ev => is_field_input ev = true) evs ->
  let p1 := handleDelete kind actions (id r) None None p in
  let form := fill evs (openCreate kind p1) in
  validate kind (data form) = None -> inserted rs = inr new_id ->
  let p2 := handleSubmit kind rs form in
  data_sort_order form = Z.of_nat (length (table p)) - 1
  /\ (exists last, last ∈ table p /\ last ∈ table p2 /\ id last <> id r
       /\ sort_order last = Z.of_nat (length (table p)) - 1)
  /\ Row new_id (Z.of_nat (length (table p)) - 1) (data form) ∈ table p2
  /\ ~ NoDup (sort_order <$> table p2).
Proof.
  intros Hnd Hden Hr Hlt Hevs p1 form Hv Hi p2.
  pose proof (dense_range _ _ Hden Hr) as Hrange.
  destruct (dense_position _ (Z.of_nat (length (table p)) - 1) Hden)
    as (last & Hlast & Hlastv); [lia|].
  assert (id last <> id r) as Hne.
  { intros Heq. apply (same_id _ _ _ Hnd Hlast Hr) in Heq. subst. lia. }
  assert (table p1 = delete_row (id r) (table p)) as Ht1 by done.
  assert (categories p1 = select_ordered (table p1)) as Hc1 by done.
  assert (length (table p1) = Nat.pred (length (table p))) as Hlen.
  { rewrite Ht1. apply elem_of_Permutation in Hr as [rest Hrest].
    rewrite (delete_row_Permutation _ _ _ Hnd Hrest). by rewrite Hrest. }
  assert (last ∈ table p1) as Hlast1.
  { rewrite Ht1. unfold delete_row. by apply list_elem_of_filter. }
  destruct (openCreate_form kind p1) as (Ht0 & He0 & Hs0).
  destruct (fill_keeps evs (openCreate kind p1)) as (Ht & _ & He & Hs).
  assert (data_sort_order form = Z.of_nat (length (table p)) - 1) as Hform.
  { unfold form. rewrite Hs, Hs0, Hc1 by done. unfold select_ordered.
    rewrite merge_sort_Permutation, Hlen. lia. }
  assert (table p2 = table p1 ++ [Row new_id (data_sort_order form) (data form)])
    as Ht2.
  { unfold p2. rewrite (handleSubmit_insert kind rs form new_id);
      [|by unfold form; rewrite He|done..].
    unfold form. by rewrite Ht, Ht0. }
  split; [done|]. split; [|split].
  - exists last. repeat split; try done. rewrite Ht2. apply elem_of_app. by left.
  - rewrite Ht2, Hform. apply elem_of_app. right. apply list_elem_of_here.
  - rewrite Ht2, fmap_app. simpl. intros Hnd2.
    apply NoDup_app in Hnd2 as (_ & Hdisj & _).
    apply (Hdisj (sort_order last)); [by apply list_elem_of_fmap_2|].
    rewrite Hform, Hlastv. apply list_elem_of_here.
Qed.

(** X7.  Opening a row for editing and submitting the form as it opened
    changes nothing in the table, whatever the backend answers and whether
    the checks pass or not. *)
Theorem edit_without_input_keeps_the_table p c rs :
  NoDup (id <$> table p) -> c ∈ table p ->
  table (handleSubmit kind rs (handleEdit kind c p)) = table p.
Proof.
  intros Hnd Hc. unfold handleSubmit, handleEdit. simpl.
  assert (forall q : page A,
            table q = table p -> update_row (fields c) (sort_order c) (id c) (table q)
                                 = table p) as Hsame.
  { intros q ->. unfold update_row. rewrite <- (list_fmap_id (table p)) at 2.
    apply list_fmap_ext. intros n x Hx%list_elem_of_lookup_2.
    case_decide as E; [|done].
    apply (same_id _ _ _ Hnd Hx Hc) in E. subst x. by destruct c. }
  destruct (open_clears_error kind); simpl;
    (destruct (validate kind (fields c)); simpl;
     [by destruct (validation_logged kind)|]);
    (destruct (updated rs); simpl;
     [done| unfold saved; rewrite table_fetchCategories; simpl; by apply Hsame]).
Qed.

Lemma update_is_active_ids b i t :
  id <$> update_is_active actions b i t = id <$> t.
Proof.
  unfold update_is_active. rewrite <- list_fmap_compose.
  apply list_fmap_ext. intros _ x _. simpl. by case_decide.
Qed.

Lemma update_is_active_positions b i t :
  sort_order <$> update_is_active actions b i t = sort_order <$> t.
Proof.
  unfold update_is_active. rewrite <- list_fmap_compose.
  apply list_fmap_ext. intros _ x _. simpl. by case_decide.
Qed.

(** The switch pressed twice, for a column [is_active] that is read and
    written as a field of a record is. *)
Lemma toggle_twice p c refetch2 :
  (forall b a, get_is_active actions (set_is_active actions b a) = b) ->
  (forall b b' a,
     set_is_active actions b (set_is_active actions b' a) = set_is_active actions b a) ->
  (forall a, set_is_active actions (get_is_active actions a) a = a) ->
  NoDup (id <$> table p) -> loaded p -> c ∈ categories p ->
  let p1 := toggle kind actions (id c) None None p in
  Row (id c) (sort_order c)
    (set_is_active actions (negb (get_is_active actions (fields c))) (fields c))
    ∈ table p1
  /\ sort_order <$> table p1 = sort_order <$> table p
  /\ table (toggle kind actions (id c) None refetch2 p1) = table p.
Proof.
  intros Hget Hset Hid Hnd Hl Hc p1.
  set (b := get_is_active actions (fields c)).
  set (c1 := Row (id c) (sort_order c) (set_is_active actions (negb b) (fields c))).
  assert (c ∈ table p) as Hc' by (by rewrite <- Hl).
  assert (table p1 = update_is_active actions (negb b) (id c) (table p)) as Ht1.
  { unfold p1, toggle. by rewrite find_id. }
  assert (loaded p1) as Hl1.
  { unfold loaded, p1, toggle. rewrite find_id by done. simpl.
    apply merge_sort_Permutation. }
  assert (c1 ∈ table p1) as Hc1.
  { rewrite Ht1. unfold update_is_active. apply list_elem_of_fmap.
    exists c. by rewrite decide_True. }
  assert (NoDup (id <$> table p1)) as Hnd1 by (by rewrite Ht1, update_is_active_ids).
  split; [done|]. split; [by rewrite Ht1, update_is_active_positions|].
  assert (c1 ∈ categories p1) as Hc1c by (by rewrite Hl1).
  pose proof (find_id p1 c1 Hnd1 Hl1 Hc1c) as Hfind.
  unfold toggle. change (id c1) with (id c) in Hfind. rewrite Hfind.
  unfold handleToggleActive. rewrite table_fetchCategories. simpl.
  rewrite Hget, negb_involutive, Ht1. unfold update_is_active.
  rewrite <- list_fmap_compose. rewrite <- (list_fmap_id (table p)) at 2.
  apply list_fmap_ext. intros n x Hx%list_elem_of_lookup_2. unfold compose.
  destruct (decide (id x = id c)) as [E|E]; simpl.
  - rewrite decide_True by done. simpl.
    apply (same_id _ _ _ Hnd Hx Hc') in E. subst x.
    rewrite Hset. fold b. unfold b. rewrite Hid. by destruct c.
  - by rewrite decide_False.
Qed.

End OrderActionsFacts.

(** X8.  On both pages, with distinct ids and the page showing the table: the
    switch of a shown row, pressed once (request and refetch accepted),
    flips the [is_active] of that row and leaves every position as it was;
    pressed once more (request accepted) it gives back the table. *)
Theorem toggle_twice_restores :
  (forall e (p : page ForumCategories.fields) c refetch2,
     NoDup (id <$> table p) -> loaded p -> c ∈ categories p ->
     let p1 := toggle (ForumCategories.kind e) ForumCategoriesActions.actions
                 (id c) None None p in
     (exists c1, c1 ∈ table p1 /\ id c1 = id c
        /\ ForumCategories.is_active (fields c1)
           = negb (ForumCategories.is_active (fields c)))
     /\ sort_order <$> table p1 = sort_order <$> table p
     /\ table (toggle (ForumCategories.kind e) ForumCategoriesActions.actions
                 (id c) None refetch2 p1) = table p)
  /\
  (forall (p : page HomepageBanners.fields) c refetch2,
     NoDup (id <$> table p) -> loaded p -> c ∈ categories p ->
     let p1 := toggle HomepageBanners.kind HomepageBannersActions.actions
                 (id c) None None p in
     (exists c1, c1 ∈ table p1 /\ id c1 = id c
        /\ HomepageBanners.is_active (fields c1)
           = negb (HomepageBanners.is_active (fields c)))
     /\ sort_order <$> table p1 = sort_order <$> table p
     /\ table (toggle HomepageBanners.kind HomepageBannersActions.actions
                 (id c) None refetch2 p1) = table p).
Proof.
  split.
  - intros e p c refetch2 Hnd Hl Hc p1.
    destruct (toggle_twice (ForumCategories.kind e) ForumCategoriesActions.actions
                p c refetch2) as (H1 & H2 & H3); [done|done|by intros []|done..|].
    split; [|done]. eexists. split; [exact H1|]. done.
  - intros p c refetch2 Hnd Hl Hc p1.
    destruct (toggle_twice HomepageBanners.kind HomepageBannersActions.actions
                p c refetch2) as (H1 & H2 & H3); [done|done|by intros []|done..|].
    split; [|done]. eexists. split; [exact H1|]. done.
Qed.

(** *** The checks of the two forms *)

Lemma trimStart_has_text s : has_text (trimStart s) <-> has_text s.
Proof.
  induction s as [|c s IH]; simpl; [done|].
  destruct (is_ws c) eqn:Hc; [|done]. rewrite IH. split.
  - intros (x & Hx & Hw). exists x. split; [by apply list_elem_of_further|done].
  - intros (x & [->|Hx]%elem_of_cons & Hw); [congruence|]. by exists x.
Qed.

Lemma trimEnd_truthy s : truthy (trimEnd s) = true <-> has_text s.
Proof.
  induction s as [|c s IH]; simpl.
  - split; [done|]. by intros (x & Hx%not_elem_of_nil & _).
  - destruct (trimEnd s) as [|c' t] eqn:E.
    + destruct (is_ws c) eqn:Hc; simpl.
      * split; [done|]. intros (x & [->|Hx]%elem_of_cons & Hw); [congruence|].
        apply IH. by exists x.
      * split; [|done]. intros _. exists c. split; [apply list_elem_of_here|done].
    + simpl. split; [|done]. intros _.
      destruct (proj1 IH eq_refl) as (x & Hx & Hw).
      exists x. split; [by apply list_elem_of_further|done].
Qed.

Lemma trim_truthy s : truthy (trim s) = true <-> has_text s.
Proof. unfold trim. by rewrite trimEnd_truthy, trimStart_has_text. Qed.

Lemma trim_blank s : negb (truthy (trim s)) = true <-> ~ has_text s.
Proof.
  rewrite <- trim_truthy. by destruct (truthy (trim s)).
Qed.

Lemma handleSubmit_rejected {A} (kind : page_kind A) rs (p : page A) message :
  validate kind (data p) = Some message ->
  let p' := handleSubmit kind rs p in
  table p' = table p /\ categories p' = categories p /\ data p' = data p
  /\ data_sort_order p' = data_sort_order p /\ modal_open p' = modal_open p
  /\ error p' = message.
Proof.
  intros H. unfold handleSubmit. simpl. rewrite H.
  by destruct (validation_logged kind).
Qed.

(** X9.  A category goes to the backend only with a name and a description
    that each have a character other than white space; a banner only with an
    image, and a title and a link that each have such a character.  A form
    that fails this makes no request: the table and the loaded rows are as
    before, the form stays open with what was typed, and the message of the
    first check that failed is shown. *)
Theorem blank_forms_are_not_sent :
  (forall d,
     ForumCategories.checks d = None
     <-> has_text (ForumCategories.name d) /\ has_text (ForumCategories.description d))
  /\ (forall d,
     HomepageBanners.checks d = None
     <-> HomepageBanners.image_url d <> []
         /\ has_text (HomepageBanners.title d)
         /\ has_text (HomepageBanners.link_url d))
  /\ (forall e rs (p : page ForumCategories.fields),
     ForumCategories.checks (data p) <> None ->
     let p' := handleSubmit (ForumCategories.kind e) rs p in
     table p' = table p /\ categories p' = categories p /\ data p' = data p
     /\ data_sort_order p' = data_sort_order p /\ modal_open p' = modal_open p
     /\ ForumCategories.checks (data p) = Some (error p'))
  /\ (forall rs (p : page HomepageBanners.fields),
     HomepageBanners.checks (data p) <> None ->
     let p' := handleSubmit HomepageBanners.kind rs p in
     table p' = table p /\ categories p' = categories p /\ data p' = data p
     /\ data_sort_order p' = data_sort_order p /\ modal_open p' = modal_open p
     /\ HomepageBanners.checks (data p) = Some (error p')).
Proof.
  split; [|split; [|split]].
  - intros d. unfold ForumCategories.checks.
    destruct (negb (truthy (trim (ForumCategories.name d)))) eqn:E1.
    { apply trim_blank in E1. split; [done|]. by intros [? _]. }
    destruct (negb (truthy (trim (ForumCategories.description d)))) eqn:E2.
    { apply trim_blank in E2. split; [done|]. by intros [_ ?]. }
    apply negb_false_iff, trim_truthy in E1, E2. done.
  - intros d. unfold HomepageBanners.checks.
    destruct (HomepageBanners.image_url d) as [|ch u] eqn:E0; simpl.
    { split; [done|]. by intros [? _]. }
    destruct (negb (truthy (trim (HomepageBanners.title d)))) eqn:E1.
    { apply trim_blank in E1. split; [done|]. by intros (_ & ? & _). }
    destruct (negb (truthy (trim (HomepageBanners.link_url d)))) eqn:E2.
    { apply trim_blank in E2. split; [done|]. by intros (_ & _ & ?). }
    apply negb_false_iff, trim_truthy in E1, E2. done.
  - intros e rs p Hch p'.
    destruct (ForumCategories.checks (data p)) as [message|] eqn:E; [|done].
    destruct (handleSubmit_rejected (ForumCategories.kind e) rs p message E)
      as (? & ? & ? & ? & ? & ?).
    unfold p'. by repeat split; try congruence.
  - intros rs p Hch p'.
    destruct (HomepageBanners.checks (data p)) as [message|] eqn:E; [|done].
    destruct (handleSubmit_rejected HomepageBanners.kind rs p message E)
      as (? & ? & ? & ? & ? & ?).
    unfold p'. by repeat split; try congruence.
Qed.


(** ** The traffic page *)

Section TrafficPageFacts.
Import TrafficStats TrafficPage.
Variable tz : TimeZone.

(** A click that does not change the range, [checkAdmin] and a stray
    response start no call. *)
Lemma step_without_change c ev :
  changes_range ev = false ->
  calls c = 0%nat -> stats c = [] -> range c = range_7d -> awaiting c = None ->
  let c' := step tz c ev in
  calls c' = 0%nat /\ stats c' = [] /\ range c' = range_7d /\ awaiting c' = None.
Proof.
  intros Hev Hc Hs Hr Ha. destruct ev as [found|r now1 now2|response]; simpl.
  - destruct found as [|role|]; simpl; [done| |done].
    by destruct (decide (role = Some "admin")).
  - destruct (controls_shown c); [|done].
    destruct r; [|done]. unfold setTimeRange. by rewrite Hr, decide_True.
  - unfold fetchStats_end. by rewrite Ha.
Qed.

(** X10.  After the mount no statistics are requested until the range
    selector changes value: whatever [checkAdmin] finds, however often the
    selected range is clicked again and whatever responses arrive,
    [fetchStats] has not been called and the statistics are the empty list
    of the first render.  The first click on the other range, once the
    range selector is shown, makes the first call, and the selector is
    hidden while the call is pending. *)
Theorem no_statistics_before_the_range_changes (evs : list event) :
  Forall (fun ev => changes_range ev = false) evs ->
  calls (run tz evs) = 0%nat /\ stats (run tz evs) = []
  /\ range (run tz evs) = range_7d /\ awaiting (run tz evs) = None
  /\ forall now1 now2,
       controls_shown (run tz evs) = true ->
       let c := step tz (run tz evs) (RangeClicked range_30d now1 now2) in
       calls c = 1%nat /\ awaiting c = Some (now1, now2, range_30d)
       /\ controls_shown c = false.
Proof.
  intros Hall. unfold run.
  assert (forall c0,
            calls c0 = 0%nat -> stats c0 = [] -> range c0 = range_7d ->
            awaiting c0 = None ->
            calls (foldl (step tz) c0 evs) = 0%nat /\ stats (foldl (step tz) c0 evs) = []
            /\ range (foldl (step tz) c0 evs) = range_7d
            /\ awaiting (foldl (step tz) c0 evs) = None) as Hinv.
  { induction Hall as [|ev evs Hev Hall IH]; intros c0 Hc Hs Hr Ha; [done|].
    simpl. destruct (step_without_change c0 ev Hev Hc Hs Hr Ha) as (? & ? & ? & ?).
    by apply IH. }
  destruct (Hinv (effect_timeRange 0 0 initial)) as (Hc & Hs & Hr & Ha); [done..|].
  set (c := foldl (step tz) (effect_timeRange 0 0 initial) evs) in *.
  split; [done|]. split; [done|]. split; [done|]. split; [done|].
  intros now1 now2 Hshown. unfold step. rewrite Hshown.
  apply andb_prop in Hshown as [Hl _]. apply negb_true_iff in Hl.
  unfold setTimeRange. rewrite Hr.
  rewrite decide_False by done. unfold effect_timeRange. cbn [loading].
  rewrite Hl. unfold fetchStats_start, controls_shown.
  cbn [calls awaiting loading range]. by rewrite Hc.
Qed.

(** While the error is shown and no call is pending, no event starts a
    call or changes the statistics. *)
Lemma step_on_error c ev :
  error_text c <> "" -> awaiting c = None ->
  let c' := step tz c ev in
  error_text c' <> "" /\ awaiting c' = None /\ calls c' = calls c
  /\ stats c' = stats c.
Proof.
  intros He Ha. destruct ev as [found|r now1 now2|response]; simpl.
  - destruct found as [|role|]; simpl; [done| |done].
    by destruct (decide (role = Some "admin")).
  - unfold controls_shown. rewrite bool_decide_eq_false_2 by done.
    by rewrite andb_false_r.
  - unfold fetchStats_end. by rewrite Ha.
Qed.

(** X11.  A load that fails cannot be tried again.  When the select of a
    pending call is rejected the component shows the error text in place of
    the page, range selector included, and keeps the statistics it had; from
    then on no event starts a call, and the statistics never change. *)
Theorem failed_load_cannot_be_retried c m1 m2 r0 response e (evs : list event) :
  awaiting c = Some (m1, m2, r0) -> error response = Some e ->
  let c1 := fetchStats_end tz response c in
  let c' := foldl (step tz) c1 evs in
  error_text c1 = "加载统计数据失败" /\ loading c1 = false /\ stats c1 = stats c
  /\ controls_shown c' = false /\ calls c' = calls c /\ stats c' = stats c
  /\ awaiting c' = None.
Proof.
  intros Ha He c1.
  assert (error_text c1 = "加载统计数据失败" /\ loading c1 = false
          /\ stats c1 = stats c /\ awaiting c1 = None /\ calls c1 = calls c)
    as (Ht & Hl & Hs & Ha1 & Hc).
  { unfold c1, fetchStats_end. rewrite Ha. unfold fetchStats, aggregate.
    by rewrite He. }
  assert (error_text c1 <> "") as Hne by (by rewrite Ht).
  clearbody c1. intros c'. split; [done|]. split; [done|]. split; [done|].
  rewrite <- Hs, <- Hc. clear Ht Hl Hs Hc Ha He. subst c'.
  revert c1 Hne Ha1. induction evs as [|ev evs IH]; intros c1 Hne Ha1.
  - simpl. unfold controls_shown. rewrite bool_decide_eq_false_2 by done.
    by rewrite andb_false_r.
  - simpl. destruct (step_on_error c1 ev Hne Ha1) as (Hne' & Ha' & Hc' & Hs').
    rewrite <- Hc', <- Hs'. by apply IH.
Qed.

(** *** The number of buckets of a call *)

(** X12.  In a time zone at a fixed offset from UTC, [fetchStats] reads
    the clock for [endDate], then for [startDate].  When the two readings
    are the same instant, the statistics of the range of n days have n + 1
    buckets; when the second reading is later, by less than a day, they
    have n.  The buckets are those of consecutive days, from the day of the
    second reading less n days. *)
Theorem fetchStats_buckets offset now1 now2 r response :
  now1 <= now2 < now1 + DAY -> error response = None ->
  exists processedStats,
    fetchStats (fixed offset) now1 now2 r response = setStats processedStats
    /\ Z.of_nat (length processedStats)
       = range_days r + (if decide (now2 = now1) then 1 else 0)
    /\ date <$> processedStats
       = (fun i => dateStr (now2 - range_days r * DAY) + Z.of_nat i)
           <$> seq 0 (length processedStats).
Proof.
  intros Hnow He. unfold fetchStats, aggregate. rewrite He.
  eexists. split; [done|]. rewrite setDate_plus_fixed.
  replace (now2 + - range_days r * DAY) with (now2 - range_days r * DAY) by lia.
  assert (processLogs (fixed offset) (now2 - range_days r * DAY) now1 (data response)
          = processLogs (fixed offset) (now2 - range_days r * DAY) now1
              (Some (default [] (data response)))) as ->
    by (by destruct (data response)).
  rewrite processLogs_length.
  split.
  - unfold steps. assert (0 < range_days r) by (by destruct r).
    assert (0 < DAY) by done.
    rewrite decide_True by nia.
    rewrite Nat2Z.inj_succ.
    rewrite Z2Nat.id by (apply Z.div_pos; [nia|done]).
    case_decide as E.
    + subst now2. replace (now1 - (now1 - range_days r * DAY))
        with (0 + range_days r * DAY) by lia.
      rewrite Z.div_add by done. by rewrite Z.div_small by done.
    + assert ((now1 - (now2 - range_days r * DAY)) `div` DAY = range_days r - 1)
        as ->; [|lia].
      symmetry. apply (Z.div_unique _ _ _ (DAY - (now2 - now1))); lia.
  - rewrite processLogs_fixed. unfold consecutive_dates.
    rewrite <- !list_fmap_compose. by apply list_fmap_ext.
Qed.

(** *** The two totals *)

Lemma foldl_sum {B} (f : B -> nat) (l : list B) (a : nat) :
  foldl (fun sum x => (sum + f x)%nat) a l = (a + sum_list (f <$> l))%nat.
Proof.
  revert a. induction l as [|x l IH]; intros a; [simpl; lia|].
  cbn [foldl]. rewrite IH, fmap_cons. cbn [sum_list sum_list_with].
  unfold Datatypes.id. lia.
Qed.

Lemma size_list_to_set_le (l : list string) :
  (size (list_to_set l : gset string) <= length l)%nat.
Proof.
  induction l as [|x l IH].
  { rewrite list_to_set_nil, size_empty. done. }
  rewrite list_to_set_cons. cbn [length].
  rewrite size_union_alt, size_singleton.
  assert (list_to_set l ∖ {[x]} ⊆ (list_to_set l : gset string)) as Hsub
    by (by intros u [? _]%elem_of_difference).
  apply subseteq_size in Hsub. lia.
Qed.

Lemma users_of_days (ks : list Z) (logs : list log) :
  (size (list_to_set
           (user_id <$> filter (fun l => dateStr (logged_in_at l) ∈ ks) logs)
         : gset string)
   <= sum_list ((fun k => size (users_on k logs)) <$> ks))%nat.
Proof.
  induction ks as [|k ks IH].
  - assert (filter (fun l => dateStr (logged_in_at l) ∈ []) logs = []) as ->.
    { induction logs as [|l logs IHl]; [done|].
      by rewrite filter_cons_False by apply not_elem_of_nil. }
    rewrite fmap_nil, list_to_set_nil, size_empty. done.
  - rewrite fmap_cons. cbn [sum_list sum_list_with]. unfold Datatypes.id.
    etrans; [|apply Nat.add_le_mono_l, IH].
    etrans; [apply (subseteq_size _ (users_on k logs ∪
      (list_to_set (user_id <$> filter (fun l => dateStr (logged_in_at l) ∈ ks) logs))))|].
    + intros u (l & -> & [Hin Hl]%list_elem_of_filter)%elem_of_list_to_set%list_elem_of_fmap.
      apply elem_of_union. apply elem_of_cons in Hin as [Hk|Hin].
      * left. unfold users_on, logs_on. apply elem_of_list_to_set, list_elem_of_fmap.
        exists l. split; [done|]. by apply list_elem_of_filter.
      * right. apply elem_of_list_to_set, list_elem_of_fmap.
        exists l. split; [done|]. by apply list_elem_of_filter.
    + rewrite size_union_alt.
      apply Nat.add_le_mono_l, subseteq_size.
      by intros u [? _]%elem_of_difference.
Qed.

(** X13.  Of the two totals above the chart, the first is the number of the
    selected logs whose day has a bucket, that is, whose day the loop over
    the days has initialised.  The second, called the number of unique users
    there, adds up the unique users of each day: it is at least the number
    of distinct users of those logs and at most their number, and a user
    seen on several days is counted once for each. *)
Theorem totals_of_the_statistics s e logs :
  let stats := processLogs tz s e (Some logs) in
  totalVisits stats = length (logs_in_range tz s e logs)
  /\ (forall l, l ∈ logs_in_range tz s e logs
        <-> l ∈ logs /\ initialised tz s e (dateStr (logged_in_at l)))
  /\ (size (list_to_set (user_id <$> logs_in_range tz s e logs) : gset string)
      <= totalUniqueUsers stats <= totalVisits stats)%nat
  /\ totalUniqueUsers
       (processLogs utc 0 DAY
          (Some [ {| logged_in_at := 0; user_id := "A" |};
                  {| logged_in_at := DAY; user_id := "A" |} ])) = 2%nat.
Proof.
  intros stats. unfold stats, totalVisits, totalUniqueUsers.
  rewrite !foldl_sum, !Nat.add_0_l.
  split; [|split; [|split; [|by vm_compute]]].
  - rewrite processLogs_spec, <- list_fmap_compose.
    apply logs_on_days, init_dates_NoDup.
  - intros l. unfold logs_in_range. rewrite list_elem_of_filter, elem_of_init_dates.
    tauto.
  - rewrite processLogs_spec, <- !list_fmap_compose. split.
    + apply users_of_days.
    + generalize (init_dates tz s e). intros ks.
      induction ks as [|k ks IH]; [done|].
      rewrite !fmap_cons. cbn [sum_list sum_list_with]. unfold Datatypes.id.
      apply Nat.add_le_mono; [|exact IH]. simpl. unfold users_on.
      etrans; [apply size_list_to_set_le|]. by rewrite length_fmap.
Qed.

(** *** A day that is longer than 24 hours *)

Lemma iter_mono (k1 k2 : nat) d :
  (k1 <= k2)%nat ->
  Nat.iter k1 (setDate_plus tz 1) d <= Nat.iter k2 (setDate_plus tz 1) d.
Proof.
  induction 1 as [|k2 _ IH]; [lia|]. simpl.
  pose proof (next_later tz (Nat.iter k2 (setDate_plus tz 1) d)). lia.
Qed.

Lemma filters_apart {B} (P Q : B -> Prop) `{!forall x, Decision (P x)}
    `{!forall x, Decision (Q x)} (l : list B) :
  (forall x, P x -> Q x -> False) ->
  (length (filter P l) + length (filter Q l) <= length l)%nat.
Proof.
  intros Hapart. induction l as [|x l IH]; [done|].
  rewrite !filter_cons. destruct (decide (P x)), (decide (Q x)); simpl; try lia.
  by destruct (Hapart x).
Qed.

(** X21.  Where the clock is set back (the end of daylight saving time), the
    next day at the same local time is 25 hours later.  When the loop over
    the days makes such a step from an instant in the last hour of its UTC
    day, it passes the whole of the following UTC day: that day gets no
    bucket, although the days before and after it have one and all its
    instants lie between [startDate] and [endDate], and the logs of that day
    are counted nowhere. *)
Theorem longer_day_leaves_a_day_without_bucket s e (k : nat) logs :
  let d := Nat.iter k (setDate_plus tz 1) s in
  setDate_plus tz 1 d <= e ->
  dateStr (setDate_plus tz 1 d) = dateStr d + 2 ->
  let out := processLogs tz s e (Some logs) in
  dateStr d ∈ (date <$> out) /\ (dateStr d + 2) ∈ (date <$> out)
  /\ ((dateStr d + 1) ∉ (date <$> out))
  /\ (forall t, dateStr t = dateStr d + 1 -> s <= t <= e)
  /\ (sum_list (visits <$> out) + length (logs_on (dateStr d + 1) logs)
      <= length logs)%nat.
Proof.
  intros d Hle Hskip out. unfold out. rewrite processLogs_dates.
  pose proof (next_later tz d) as Hlater.
  assert (~ initialised tz s e (dateStr d + 1)) as Hnot.
  { intros (k' & _ & Hk'). destruct (decide (k' <= k)%nat) as [Hk|Hk].
    - pose proof (dateStr_mono _ _ (iter_mono k' k s Hk)). fold d in H. lia.
    - assert (S k <= k')%nat as Hk2 by lia.
      pose proof (dateStr_mono _ _ (iter_mono (S k) k' s Hk2)) as H.
      simpl in H. fold d in H. lia. }
  split; [|split; [|split; [|split]]].
  - apply elem_of_init_dates. exists k. fold d. split; [lia|done].
  - apply elem_of_init_dates. exists (S k). simpl. fold d. by rewrite Hskip.
  - by rewrite elem_of_init_dates.
  - intros t Ht. pose proof (iter_later tz k s) as Hs. fold d in Hs.
    unfold dateStr in *.
    pose proof (Z.div_mod t DAY ltac:(done)).
    pose proof (Z.mod_pos_bound t DAY ltac:(done)).
    pose proof (Z.div_mod d DAY ltac:(done)).
    pose proof (Z.mod_pos_bound d DAY ltac:(done)).
    pose proof (Z.div_mod (setDate_plus tz 1 d) DAY ltac:(done)).
    pose proof (Z.mod_pos_bound (setDate_plus tz 1 d) DAY ltac:(done)).
    unfold DAY in *. lia.
  - rewrite processLogs_spec, <- list_fmap_compose.
    assert (sum_list (visits ∘ bucket logs <$> init_dates tz s e)
            = length (filter (fun l => dateStr (logged_in_at l) ∈ init_dates tz s e)
                        logs)) as ->
      by apply logs_on_days, init_dates_NoDup.
    unfold logs_on. apply filters_apart.
    intros l Hin Hl. apply Hnot. apply elem_of_init_dates. by rewrite <- Hl.
Qed.

End TrafficPageFacts.

(** ** Sorting and paging of the list pages *)

Section ListPageFacts.
Import ListPage.

(** X14.  A click on a column header always sorts by that column.  On another
    column than the current one it sorts descending; on the current one it
    turns the order round, so that two clicks on it give back the state.
    Ascending order is only ever reached by a click on the column that is
    already sorted descending. *)
Theorem toggleSort_cycles {F : Type} `{EqDecision F} (field : F)
    (state : F * sortOrder) :
  (toggleSort field state).1 = field
  /\ (state.1 <> field -> toggleSort field state = (field, desc))
  /\ (state.1 = field -> toggleSort field (toggleSort field state) = state)
  /\ ((toggleSort field state).2 = asc -> state = (field, desc)).
Proof.
  destruct state as [sortField order]. unfold toggleSort. simpl.
  destruct (decide (sortField = field)) as [->|Hne]; simpl.
  - split; [done|]. split; [done|]. split.
    + intros _. rewrite decide_True by done. by destruct order.
    + by destruct order.
  - done.
Qed.

Lemma totalPages_bounds count :
  0 <= count ->
  (totalPages (Some count) - 1) * itemsPerPage < count
  <= totalPages (Some count) * itemsPerPage.
Proof.
  intros H. unfold totalPages, itemsPerPage. simpl.
  pose proof (Z.div_mod (- count) 10 ltac:(done)).
  pose proof (Z.mod_pos_bound (- count) 10 ltac:(done)). lia.
Qed.

(** X15.  The pages cut the rows into windows of ten: with [count] rows,
    the row of index i (from 0) is asked for by page i / 10 + 1, which is
    one of the pages 1 .. [totalPages], and by no other page; [totalPages]
    is the least number of pages of ten that hold [count] rows. *)
Theorem pages_cover_every_row count i :
  0 <= i < count ->
  let p := i `div` itemsPerPage + 1 in
  1 <= p <= totalPages (Some count)
  /\ range_from p <= i <= range_to p
  /\ (forall p', range_from p' <= i <= range_to p' -> p' = p)
  /\ (totalPages (Some count) - 1) * itemsPerPage < count
     <= totalPages (Some count) * itemsPerPage.
Proof.
  intros Hi p. pose proof (totalPages_bounds count ltac:(lia)) as Ht.
  unfold p, range_from, range_to, itemsPerPage in *.
  pose proof (Z.div_mod i 10 ltac:(done)).
  pose proof (Z.mod_pos_bound i 10 ltac:(done)).
  repeat split; lia.
Qed.

(** X16.  On a page between 1 and [totalPages] the two buttons stay between
    1 and [totalPages], one page back or forth, and stand still at the ends.
    With no page at all ([totalPages] is 0 for a count of 0 and for a
    response without a count) the next button is not disabled on page 1 and
    leads to page 0, which asks for the rows -10 to -1. *)
Theorem paging_stays_in_range_unless_empty :
  (forall total currentPage,
     1 <= currentPage <= total ->
     previousPage currentPage = Z.max 1 (currentPage - 1)
     /\ nextPage total currentPage = Z.min total (currentPage + 1)
     /\ 1 <= previousPage currentPage <= total
     /\ 1 <= nextPage total currentPage <= total)
  /\ totalPages None = 0 /\ totalPages (Some 0) = 0
  /\ (forall currentPage,
        1 <= currentPage ->
        nextPage 0 currentPage = 0 /\ range_from 0 = -10 /\ range_to 0 = -1
        /\ previousPage 0 = 1).
Proof.
  split; [|split; [done|split; [done|]]].
  - intros total currentPage H. unfold previousPage, nextPage.
    repeat case_decide; lia.
  - intros currentPage H. unfold nextPage, previousPage.
    rewrite !decide_False by lia. repeat split; lia.
Qed.

End ListPageFacts.

Lemma pages_cover_every_row_witness :
  let p := 25 `div` ListPage.itemsPerPage + 1 in
  1 <= p <= ListPage.totalPages (Some 31)
  /\ ListPage.range_from p <= 25 <= ListPage.range_to p
  /\ (forall p', ListPage.range_from p' <= 25 <= ListPage.range_to p' -> p' = p)
  /\ (ListPage.totalPages (Some 31) - 1) * ListPage.itemsPerPage < 31
     <= ListPage.totalPages (Some 31) * ListPage.itemsPerPage.
Proof. apply (pages_cover_every_row 31 25). lia. Defined.

(** ** More on the chapter CSV import *)

Section ImportMoreFacts.
Import Chapters.

Lemma count_tokens_blank s : count_tokens true s = 0%nat <-> ~ has_text s.
Proof.
  induction s as [|c s IH]; simpl.
  - split; [|done]. by intros _ (x & Hx%not_elem_of_nil & _).
  - destruct (is_ws c) eqn:Hc.
    + rewrite IH. split; intros Hn (x & Hx & Hw); apply Hn.
      * apply elem_of_cons in Hx as [->|Hx]; [congruence|]. by exists x.
      * exists x. split; [by apply list_elem_of_further|done].
    + split; [done|]. intros Hn. exfalso. apply Hn.
      exists c. split; [apply list_elem_of_here|done].
Qed.

Lemma count_tokens_unbroken s :
  Forall (fun ch => is_ws ch = false) s -> count_tokens false s = 0%nat.
Proof. induction 1 as [|c s Hc _ IH]; simpl; [done|]. by rewrite Hc. Qed.

Lemma count_tokens_app b a w s :
  is_ws w = true ->
  count_tokens b (a ++ w :: s) = (count_tokens b a + count_tokens true s)%nat.
Proof.
  intros Hw. revert b. induction a as [|c a IH]; intros b; simpl.
  - by rewrite Hw.
  - destruct (is_ws c); rewrite IH; lia.
Qed.

(** X17.  The word count of an imported chapter is 0 exactly when its content
    has no character other than white space; it is 1 for any other content
    without white space, however long (a text written without spaces counts
    as one word); and the count of a content cut at a white space character
    is the sum of the counts of the two parts. *)
Theorem word_count_of_content selectedBookId index row :
  let c := import_row selectedBookId index row in
  (word_count c = 0%nat <-> ~ has_text (content c))
  /\ (content c <> [] -> Forall (fun ch => is_ws ch = false) (content c) ->
      word_count c = 1%nat)
  /\ (forall a w b,
        content c = a ++ w :: b -> is_ws w = true ->
        word_count c = (count_tokens true a + count_tokens true b)%nat).
Proof.
  intros c.
  assert (word_count c = count_tokens true (content c)) as ->
    by apply wordCount_tokens.
  split; [apply count_tokens_blank|]. split.
  - destruct (content c) as [|ch s]; [done|]. intros _ [Hch Hs]%Forall_cons.
    simpl. rewrite Hch. by rewrite count_tokens_unbroken.
  - intros a w b -> Hw. by apply count_tokens_app.
Qed.

Lemma js_inj s1 s2 : js s1 = js s2 -> s1 = s2.
Proof.
  unfold js. intros H.
  rewrite <- (String.string_of_list_ascii_of_string s1),
          <- (String.string_of_list_ascii_of_string s2).
  f_equal. revert H. generalize (String.list_ascii_of_string s2).
  induction (String.list_ascii_of_string s1) as [|a l IH]; intros [|b k]; try done.
  intros [= Hab Hl]. f_equal; [|by apply IH].
  by rewrite <- (Ascii.ascii_N_embedding a), <- (Ascii.ascii_N_embedding b), Hab.
Qed.

Lemma title_of_untitled selectedBookId index row :
  ~ has_title row ->
  title (import_row selectedBookId index row)
  = chapter_prefix ++ js " " ++ String_of_Z (Z.of_nat index + 1).
Proof.
  intros Hn. unfold import_row, or_else. simpl.
  destruct (row_title row) as [s|] eqn:E; simpl; [|done].
  destruct (truthy (trim s)) eqn:Ht; [|done].
  exfalso. apply Hn. exists s. split; [done|]. by apply trim_truthy.
Qed.

(** X18.  Without a selected book nothing is imported.  With one, the import
    sends one record for each row of the file, in the order of the rows,
    each under the selected book; a row with a title keeps it, trimmed; and
    two rows without a title never get the same title. *)
Theorem import_sends_one_record_per_row selectedBookId (rows : list csv_row) :
  handleCSVImport "" rows = None
  /\ (selectedBookId <> "" ->
      exists chapters,
        handleCSVImport selectedBookId rows = Some chapters
        /\ length chapters = length rows
        /\ Forall (fun c => book_id c = selectedBookId) chapters
        /\ (forall i row s,
              rows !! i = Some row -> row_title row = Some s -> has_text s ->
              title <$> chapters !! i = Some (trim s))
        /\ (forall i j ri rj ci cj,
              rows !! i = Some ri -> rows !! j = Some rj ->
              ~ has_title ri -> ~ has_title rj ->
              chapters !! i = Some ci -> chapters !! j = Some cj ->
              title ci = title cj -> i = j)).
Proof.
  split; [done|]. intros Hbook. unfold handleCSVImport.
  rewrite decide_False by done. eexists. split; [done|].
  split; [by rewrite length_imap|]. split; [|split].
  - apply Forall_forall. intros c (i & row & -> & _)%elem_of_lookup_imap. done.
  - intros i row s Hi Ht Hs. rewrite list_lookup_imap, Hi. simpl.
    unfold or_else. rewrite Ht. simpl.
    by rewrite (proj2 (trim_truthy s) Hs).
  - intros i j ri rj ci cj Hi Hj Hni Hnj. rewrite !list_lookup_imap, Hi, Hj.
    simpl. intros [= <-] [= <-].
    rewrite !title_of_untitled by done.
    intros H%app_inv_head%app_inv_head. unfold String_of_Z in H.
    apply js_inj in H. apply (inj pretty) in H. lia.
Qed.

End ImportMoreFacts.

(** ** Numbers written and read back *)

Section NumberFacts.

Lemma is_decimal_digit c : is_decimal c -> digit_value 10 c = Some (Z.of_N c - 48).
Proof.
  unfold is_decimal, digit_value. intros H.
  destruct (N.leb_spec 48 c), (N.leb_spec c 57); try lia. simpl.
  destruct (Z.ltb_spec (Z.of_N c - 48) 10); [done|lia].
Qed.

Lemma is_decimal_not_ws c : is_decimal c -> is_ws c = false.
Proof.
  unfold is_decimal, is_ws. intros H.
  repeat match goal with
  | |- context [(?a <=? ?b)%N] => destruct (N.leb_spec a b); try lia
  | |- context [(?a =? ?b)%N] => destruct (N.eqb_spec a b); try lia
  end; done.
Qed.

Lemma take_digits_all ds :
  Forall is_decimal ds -> take_digits 10 ds = (ds, []).
Proof.
  induction 1 as [|c ds Hc _ IH]; simpl; [done|].
  unfold is_digit. rewrite (is_decimal_digit c Hc). by rewrite IH.
Qed.

Lemma trim_no_ws s : Forall (fun c => is_ws c = false) s -> trim s = s.
Proof.
  intros H. unfold trim.
  assert (trimStart s = s) as -> by (destruct H as [|c s Hc _]; simpl; [done|by rewrite Hc]).
  induction H as [|c s Hc _ IH]; simpl; [done|].
  rewrite IH, Hc. by destruct s.
Qed.

Lemma digits_value_from radix (a : Z) ds :
  foldl (fun acc c => acc * radix + default 0 (digit_value radix c)) a ds
  = a * radix ^ Z.of_nat (length ds) + digits_value radix ds.
Proof.
  unfold digits_value. revert a. induction ds as [|c ds IH]; intros a.
  - simpl. lia.
  - cbn [foldl length]. rewrite IH, (IH (0 * radix + _)).
    rewrite Nat2Z.inj_succ, Z.pow_succ_r by lia. lia.
Qed.

Lemma digits_value_cons radix c ds :
  digits_value radix (c :: ds)
  = default 0 (digit_value radix c) * radix ^ Z.of_nat (length ds)
    + digits_value radix ds.
Proof.
  unfold digits_value at 1. cbn [foldl]. rewrite digits_value_from. lia.
Qed.

Lemma pretty_N_char_code d :
  (d < 10)%N -> Ascii.N_of_ascii (pretty_N_char d) = (48 + d)%N.
Proof.
  intros H.
  assert (d = 0 \/ d = 1 \/ d = 2 \/ d = 3 \/ d = 4 \/ d = 5 \/ d = 6 \/ d = 7
          \/ d = 8 \/ d = 9)%N as Hd by lia.
  repeat destruct Hd as [->|Hd]; try reflexivity. by subst.
Qed.

(** The digits [pretty] puts before a text. *)
Lemma pretty_N_go_digits x s :
  Forall is_decimal (js s) ->
  Forall is_decimal (js (pretty_N_go x s))
  /\ digits_value 10 (js (pretty_N_go x s))
     = Z.of_N x * 10 ^ Z.of_nat (length (js s)) + digits_value 10 (js s)
  /\ ((0 < x)%N -> js (pretty_N_go x s) <> []).
Proof.
  revert s. induction (N.lt_wf_0 x) as [x _ IH]. intros s Hs.
  destruct (decide (x = 0%N)) as [->|Hx].
  { rewrite pretty_N_go_0. split; [done|]. split; [lia|]. lia. }
  rewrite pretty_N_go_step by lia.
  pose proof (N.mod_lt x 10 ltac:(done)) as Hmod.
  pose proof (N.div_mod x 10 ltac:(done)) as Hdm.
  assert (x `div` 10 < x)%N as Hlt by (apply N.div_lt; lia).
  revert Hmod Hdm Hlt. generalize (x `mod` 10)%N (x `div` 10)%N.
  intros d q Hmod Hdm Hlt.
  assert (js (String (pretty_N_char d) s) = (48 + d)%N :: js s) as Hjs.
  { unfold js. simpl. by rewrite pretty_N_char_code. }
  assert (is_decimal (48 + d)%N) as Hdec by (unfold is_decimal; lia).
  destruct (IH q Hlt (String (pretty_N_char d) s)) as (Hall & Hval & Hne).
  { rewrite Hjs. by constructor. }
  split; [done|]. split.
  - rewrite Hval, Hjs. cbn [length].
    rewrite digits_value_cons, (is_decimal_digit _ Hdec). simpl default.
    rewrite Nat2Z.inj_succ, Z.pow_succ_r by lia.
    generalize (10 ^ Z.of_nat (length (js s))). intros pw.
    generalize (digits_value 10 (js s)). intros v. nia.
  - intros _. destruct (decide (0 < q)%N) as [Hpos|Hz]; [by apply Hne|].
    assert (q = 0)%N as -> by lia. rewrite pretty_N_go_0, Hjs. done.
Qed.

Lemma pretty_N_digits x :
  Forall is_decimal (js (pretty x)) /\ js (pretty x) <> []
  /\ digits_value 10 (js (pretty x)) = Z.of_N x.
Proof.
  unfold pretty, pretty_N. case_decide as Hx.
  - subst. change (js "0") with [48%N]. split; [|done].
    repeat constructor; unfold is_decimal; lia.
  - destruct (pretty_N_go_digits x "") as (Hall & Hval & Hne); [constructor|].
    split; [done|]. split; [apply Hne; lia|]. rewrite Hval. simpl.
    unfold digits_value. simpl. lia.
Qed.

(** The text of an integer: digits, after a minus sign when negative. *)
Lemma String_of_Z_digits z :
  exists ds, Forall is_decimal ds /\ ds <> [] /\ digits_value 10 ds = Z.abs z
    /\ String_of_Z z = if decide (z < 0) then 45%N :: ds else ds.
Proof.
  unfold String_of_Z, pretty, pretty_Z. destruct z as [|x|x].
  - exists [48%N]. split; [|done].
    repeat constructor; unfold is_decimal; lia.
  - destruct (pretty_N_digits (Npos x)) as (Hall & Hne & Hval).
    exists (js (pretty (Npos x))). repeat split; try done.
  - destruct (pretty_N_digits (Npos x)) as (Hall & Hne & Hval).
    exists (js (pretty (Npos x))). repeat split; try done.
Qed.

End NumberFacts.

Section NumberRoundTrip.

Lemma number_of_exact z t : - 2 ^ 53 < z < 2 ^ 53 -> number_of z t = Int z.
Proof. intros H. unfold number_of. rewrite decide_True; [done|lia]. Qed.

Lemma nearest_double_exact z : - 2 ^ 53 < z < 2 ^ 53 -> nearest_double z = z.
Proof.
  intros H. unfold nearest_double.
  destruct (Z.ltb_spec (Z.abs z) (2 ^ 53)); [done|lia].
Qed.

Lemma prefix_radix_digits ds : Forall is_decimal ds -> prefix_radix ds = None.
Proof.
  intros H. unfold prefix_radix. destruct H as [|z ? Hz [|p ? Hp _]]; try done.
  destruct (z =? 48)%N; [|done]. unfold is_decimal in Hp.
  repeat match goal with
  | |- context [(?a =? ?b)%N] => destruct (N.eqb_spec a b); try lia
  end; done.
Qed.

Lemma signed_digits_no_ws (negative : bool) ds :
  Forall is_decimal ds ->
  Forall (fun c => is_ws c = false) (if negative then 45%N :: ds else ds).
Proof.
  intros H.
  assert (Forall (fun c => is_ws c = false) ds)
    by (eapply Forall_impl; [exact H|apply is_decimal_not_ws]).
  destruct negative; [by constructor|done].
Qed.

Lemma strip_sign_digits ds :
  Forall is_decimal ds -> strip_sign ds = (1, ds).
Proof.
  intros [|c ? Hc _]; [done|]. unfold strip_sign, is_decimal in *.
  destruct (N.eqb_spec c 45); [lia|]. by destruct (N.eqb_spec c 43); [lia|].
Qed.

Lemma StringToNumber_digits (negative : bool) ds :
  Forall is_decimal ds -> ds <> [] ->
  StringToNumber (if negative then 45%N :: ds else ds)
  = number_of ((if negative then -1 else 1) * digits_value 10 ds)
      (if negative then 45%N :: ds else ds).
Proof.
  intros Hds Hne. unfold StringToNumber.
  rewrite trim_no_ws by by apply signed_digits_no_ws.
  destruct ds as [|c ds]; [done|]. destruct negative.
  - cbv beta iota. unfold literal_value.
    change (radix_literal (45%N :: c :: ds)) with (@None Z).
    change (strip_sign (45%N :: c :: ds)) with (-1, c :: ds).
    cbv iota beta. by rewrite take_digits_all.
  - cbv beta iota. unfold literal_value, radix_literal.
    rewrite prefix_radix_digits by done.
    rewrite strip_sign_digits by done. cbv iota beta.
    by rewrite take_digits_all.
Qed.

Lemma parseInt_digits (negative : bool) ds :
  Forall is_decimal ds -> ds <> [] ->
  parseInt (if negative then 45%N :: ds else ds)
  = Some (nearest_double ((if negative then -1 else 1) * digits_value 10 ds)).
Proof.
  intros Hds Hne. unfold parseInt.
  assert (trimStart (if negative then 45%N :: ds else ds)
          = (if negative then 45%N :: ds else ds)) as ->.
  { pose proof (signed_digits_no_ws negative ds Hds) as [|c ? Hc _]; simpl;
      [done|by rewrite Hc]. }
  assert (strip_sign (if negative then 45%N :: ds else ds)
          = ((if negative then -1 else 1), ds)) as ->.
  { destruct negative; [done|by apply strip_sign_digits]. }
  cbv iota beta. rewrite prefix_radix_digits by done. cbv iota beta.
  rewrite take_digits_all by done. by destruct ds.
Qed.

Lemma String_of_Z_signed z :
  exists ds, Forall is_decimal ds /\ ds <> []
    /\ String_of_Z z = (if bool_decide (z < 0) then 45%N :: ds else ds)
    /\ (if bool_decide (z < 0) then -1 else 1) * digits_value 10 ds = z.
Proof.
  destruct (String_of_Z_digits z) as (ds & Hds & Hne & Hval & Htext).
  exists ds. split; [done|]. split; [done|]. split.
  - rewrite Htext. by case_bool_decide; case_decide.
  - rewrite Hval. case_bool_decide; lia.
Qed.

Lemma StringToNumber_String_of_Z z :
  - 2 ^ 53 < z < 2 ^ 53 -> StringToNumber (String_of_Z z) = Int z.
Proof.
  intros Hsafe. destruct (String_of_Z_signed z) as (ds & Hds & Hne & -> & Hz).
  by rewrite StringToNumber_digits, Hz, number_of_exact.
Qed.

Lemma parseInt_String_of_Z z :
  - 2 ^ 53 < z < 2 ^ 53 -> parseInt (String_of_Z z) = Some z.
Proof.
  intros Hsafe. destruct (String_of_Z_signed z) as (ds & Hds & Hne & -> & Hz).
  by rewrite parseInt_digits, Hz, nearest_double_exact.
Qed.

(** X19.  An integer that a number holds exactly (between -2^53 and 2^53),
    written out in decimal, is read back as it was: by [Number], so that a
    row of the import whose [order] field holds the text of n gets the order
    n; and by [parseInt], so that the text of n typed into the position field
    of a form stores n there. *)
Theorem integers_are_read_back z :
  - 2 ^ 53 < z < 2 ^ 53 ->
  StringToNumber (String_of_Z z) = Int z
  /\ parseInt (String_of_Z z) = Some z
  /\ (forall selectedBookId index row,
        Chapters.row_order row = Some (String_of_Z z) ->
        Chapters.order (Chapters.import_row selectedBookId index row) = Int z)
  /\ (forall (A : Type) (p : page A),
        data_sort_order (onChange (InputSortOrder (String_of_Z z)) p) = z).
Proof.
  intros Hsafe.
  pose proof (StringToNumber_String_of_Z z Hsafe) as HN.
  pose proof (parseInt_String_of_Z z Hsafe) as HP.
  split; [done|]. split; [done|]. split.
  - intros selectedBookId index row Hrow. simpl. by rewrite Hrow.
  - intros A p. simpl. unfold parseInt_or_0. by rewrite HP.
Qed.

End NumberRoundTrip.

(** ** The position of a new record *)

Section CreateFacts.
Context {A : Type} (kind : page_kind A).
Implicit Types (p : page A) (evs : list (input A)).

Lemma trimStart_ws ws rest :
  Forall (fun c => is_ws c = true) ws -> trimStart (ws ++ rest) = trimStart rest.
Proof. induction 1 as [|c ws Hc _ IH]; [done|]. simpl. by rewrite Hc. Qed.

Lemma not_decimal_digit c : ~ is_decimal c -> is_digit 10 c = false.
Proof.
  intros H. unfold is_digit, digit_value, is_decimal in *.
  repeat match goal with
  | |- context [(?a <=? ?b)%N] => destruct (N.leb_spec a b); simpl
  | |- context [?a <? ?b] => destruct (Z.ltb_spec a b); simpl
  end; try done; lia.
Qed.

Lemma parseInt_no_integer s : no_integer s -> parseInt s = None.
Proof.
  intros (ws & rest & -> & Hws & Hrest). unfold parseInt.
  rewrite trimStart_ws by done. destruct rest as [|c rest]; [done|].
  destruct Hrest as (Hc & Hd & Hplus & Hminus). simpl. rewrite Hc.
  unfold strip_sign.
  destruct (N.eqb_spec c 45); [done|]. destruct (N.eqb_spec c 43); [done|].
  assert (prefix_radix (c :: rest) = None) as ->.
  { unfold prefix_radix. destruct rest as [|x rest]; [done|].
    destruct (N.eqb_spec c 48) as [->|]; [|done].
    exfalso. apply Hd. unfold is_decimal. lia. }
  simpl. by rewrite (not_decimal_digit c Hd).
Qed.

(** The position field after the inputs: what the last input into it gave. *)
Lemma fill_sort_order evs1 s evs2 p :
  Forall (fun ev => is_field_input ev = true) evs2 ->
  data_sort_order (fill (evs1 ++ InputSortOrder s :: evs2) p) = parseInt_or_0 s.
Proof.
  intros H. unfold fill. rewrite foldl_app. cbn [foldl].
  destruct (fill_keeps evs2 (onChange (InputSortOrder s) (foldl (fun p ev => onChange ev p) p evs1)))
    as (_ & _ & _ & Hs).
  unfold fill in Hs. by rewrite Hs.
Qed.

(** C7, as the code has it.  The form for a new record opens with the number
    of rows the page has loaded in its position field.  When the checks pass
    and the backend accepts the insert, the table gains one row, with the
    rest of the form as its other columns and, as its position: that number
    when the operator has typed nothing into the position field; the integer
    whose decimal text was typed there last; 0 when the text typed there
    last holds no integer. *)
Theorem create_stores_the_position_of_the_form p evs rs new_id :
  let form := fill evs (openCreate kind p) in
  validate kind (data form) = None -> inserted rs = inr new_id ->
  data_sort_order (openCreate kind p) = Z.of_nat (length (categories p))
  /\ exists position,
       table (handleSubmit kind rs form)
       = table p ++ [Row new_id position (data form)]
       /\ (Forall (fun ev => is_field_input ev = true) evs ->
           position = Z.of_nat (length (categories p)))
       /\ (forall evs1 evs2 k,
             evs = evs1 ++ InputSortOrder (String_of_Z k) :: evs2 ->
             Forall (fun ev => is_field_input ev = true) evs2 ->
             - 2 ^ 53 < k < 2 ^ 53 -> position = k)
       /\ (forall evs1 evs2 s,
             evs = evs1 ++ InputSortOrder s :: evs2 ->
             Forall (fun ev => is_field_input ev = true) evs2 ->
             no_integer s -> position = 0).
Proof.
  intros form Hv Hi. subst form.
  destruct (openCreate_form kind p) as (Ht0 & He0 & Hs0). split; [done|].
  destruct (fill_keeps evs (openCreate kind p)) as (Ht & _ & He & Hs).
  exists (data_sort_order (fill evs (openCreate kind p))).
  split; [|split; [|split]].
  - rewrite (handleSubmit_insert kind rs _ new_id); [|by rewrite He|done..].
    by rewrite Ht, Ht0.
  - intros Hevs. by rewrite Hs, Hs0.
  - intros evs1 evs2 k -> Hevs2 Hk. rewrite fill_sort_order by done.
    unfold parseInt_or_0. by rewrite parseInt_String_of_Z.
  - intros evs1 evs2 s -> Hevs2 Hs'. rewrite fill_sort_order by done.
    unfold parseInt_or_0. by rewrite parseInt_no_integer.
Qed.

End CreateFacts.

(** C7 on the three banners: a new banner, the position field left alone. *)
Lemma create_stores_the_position_of_the_form_witness :
  let kind := HomepageBanners.kind in
  let form := fill Samples.typed_fields (openCreate kind Samples.banners) in
  data_sort_order (openCreate kind Samples.banners)
  = Z.of_nat (length (categories Samples.banners))
  /\ exists position,
       table (handleSubmit kind Samples.insert_accepted form)
       = table Samples.banners ++ [Row "d" position (data form)]
       /\ (Forall (fun ev => is_field_input ev = true) Samples.typed_fields ->
           position = Z.of_nat (length (categories Samples.banners)))
       /\ (forall evs1 evs2 k,
             Samples.typed_fields = evs1 ++ InputSortOrder (String_of_Z k) :: evs2 ->
             Forall (fun ev => is_field_input ev = true) evs2 ->
             - 2 ^ 53 < k < 2 ^ 53 -> position = k)
       /\ (forall evs1 evs2 s,
             Samples.typed_fields = evs1 ++ InputSortOrder s :: evs2 ->
             Forall (fun ev => is_field_input ev = true) evs2 ->
             no_integer s -> position = 0).
Proof.
  apply (create_stores_the_position_of_the_form HomepageBanners.kind
           Samples.banners Samples.typed_fields Samples.insert_accepted "d");
    reflexivity.
Defined.

(** The same with 7 typed into the position field of a new category: the row
    is stored at position 7. *)
Example create_with_typed_seven :
  table (handleSubmit (ForumCategories.kind true) Samples.insert_accepted
           (fill [InputField (fun _ => Samples.new_category); InputSortOrder (js "7")]
              (openCreate (ForumCategories.kind true) Samples.forum)))
  = table Samples.forum ++ [Row "d" 7 Samples.new_category].
Proof. reflexivity. Qed.

(** ** The exported text, read back *)

Section ExportReadBack.
Import Coins CsvReader.
Variable toLocaleString : string -> jsstring.
Variable inherited : jsstring -> option value.

Lemma read_in_quotes field record records s rest :
  read InQuoted field record records (escape s ++ quote :: rest)
  = read AfterQuote (field ++ s) record records rest.
Proof.
  revert field. induction s as [|c s IH]; intros field.
  - simpl. by rewrite app_nil_r.
  - cbn [escape]. change 34%N with quote.
    destruct (N.eqb_spec c quote) as [->|Hne].
    + cbn [app read]. rewrite !N.eqb_refl. rewrite IH. by rewrite <- app_assoc.
    + cbn [app read]. rewrite (proj2 (N.eqb_neq c quote) Hne).
      rewrite IH. by rewrite <- app_assoc.
Qed.

Lemma read_quoted record records s rest :
  read FieldStart [] record records (quoted s ++ rest)
  = read AfterQuote s record records rest.
Proof.
  unfold quoted. change 34%N with quote. cbn [app read].
  change (quote =? quote)%N with true.
  cbn iota. rewrite <- app_assoc. cbn [app]. by rewrite read_in_quotes.
Qed.

Lemma read_in_plain field record records ds rest :
  Forall plain ds ->
  read InPlain field record records (ds ++ rest)
  = read InPlain (field ++ ds) record records rest.
Proof.
  intros H. revert field. induction H as [|c ds (Hq & Hc & Hl) _ IH]; intros field.
  - by rewrite app_nil_r.
  - cbn [app read]. rewrite (proj2 (N.eqb_neq c comma) Hc).
    rewrite (proj2 (N.eqb_neq c line_feed) Hl). rewrite IH.
    by rewrite <- app_assoc.
Qed.

Lemma read_plain record records ds rest :
  Forall plain ds -> ds <> [] ->
  read FieldStart [] record records (ds ++ rest)
  = read InPlain ds record records rest.
Proof.
  intros H Hne. destruct H as [|c ds (Hq & Hc & Hl) Hds]; [done|].
  cbn [app read]. rewrite (proj2 (N.eqb_neq c quote) Hq).
  rewrite (proj2 (N.eqb_neq c comma) Hc), (proj2 (N.eqb_neq c line_feed) Hl).
  by rewrite read_in_plain.
Qed.

(** The text of an amount has plain characters only. *)
Lemma String_of_Z_plain z : Forall plain (String_of_Z z) /\ String_of_Z z <> [].
Proof.
  destruct (String_of_Z_digits z) as (ds & Hds & Hne & _ & ->).
  assert (Forall plain ds) as Hp.
  { eapply Forall_impl; [exact Hds|]. unfold is_decimal, plain, quote, comma, line_feed.
    intros c Hc. lia. }
  case_decide; [|done]. split; [|done]. constructor; [|done]. done.
Qed.

Lemma read_comma_after_quote field record records s :
  read AfterQuote field record records (44%N :: s)
  = read FieldStart [] (record ++ [field]) records s.
Proof. done. Qed.

Lemma read_comma_in_plain field record records s :
  read InPlain field record records (44%N :: s)
  = read FieldStart [] (record ++ [field]) records s.
Proof. done. Qed.

(** A transaction whose type is written as a string: one of the four types,
    or a name under which nothing is inherited. *)
Lemma exported_type_string t :
  (typeLabels !! type t = None -> inherited (type t) = None) ->
  exists s, exported_type inherited t = VString s.
Proof.
  intros H. unfold exported_type, typeLabels_at.
  destruct (typeLabels !! type t) as [label|].
  - simpl. destruct (truthy label); by eexists.
  - rewrite H by done. by eexists.
Qed.

(** A line of the export, read from the start of a record. *)
Lemma read_line records t rest :
  (typeLabels !! type t = None -> inherited (type t) = None) ->
  read FieldStart [] [] records (line toLocaleString inherited t ++ rest)
  = read AfterQuote (toLocaleString (created_at t))
      [ username (user t); String_of_Z (amount t);
        ToString (exported_type inherited t); description t ]
      records rest.
Proof.
  intros Ht. unfold line. destruct (String_of_Z_plain (amount t)) as [Hp Hne].
  destruct (exported_type_string t Ht) as [label ->]. cbn [field ToString].
  rewrite <- !app_assoc. cbn [app].
  rewrite read_quoted, read_comma_after_quote.
  rewrite read_plain, read_comma_in_plain by done.
  rewrite read_quoted, read_comma_after_quote.
  rewrite read_quoted, read_comma_after_quote.
  by rewrite read_quoted.
Qed.

(** The lines, read from the end of the line before. *)
Lemma read_lines (m : mode) field record records txs :
  m = InPlain \/ m = AfterQuote ->
  Forall (fun t => typeLabels !! type t = None -> inherited (type t) = None) txs ->
  read m field record records
    (concat ((fun t => 10%N :: line toLocaleString inherited t) <$> txs))
  = Some (records ++ (record ++ [field])
            :: (exported_values toLocaleString inherited <$> txs)).
Proof.
  intros Hm Hall. revert m field record records Hm.
  induction Hall as [|t txs Ht _ IH]; intros m field record records Hm.
  - by destruct Hm as [-> | ->].
  - rewrite fmap_cons. cbn [concat app].
    assert (forall s, read m field record records (10%N :: s)
                      = read FieldStart [] [] (records ++ [record ++ [field]]) s)
      as -> by (by destruct Hm as [-> | ->]).
    rewrite read_line by done. rewrite IH by (by right).
    by rewrite <- app_assoc.
Qed.

Lemma read_header s :
  read FieldStart [] [] []
    (js "Username,Amount,Type,Description,Transaction Date" ++ s)
  = read InPlain (js "Transaction Date")
      [js "Username"; js "Amount"; js "Type"; js "Description"] [] s.
Proof. done. Qed.

(** X20.  The exported text can be read back.  For transactions whose
    amounts are integers a number holds exactly and whose types are among
    the four of [typeLabels] or name no inherited property, a reader that
    follows the usual rules finds in the text the record of the five column
    names and then, for each transaction in order, the record of its five
    values as they were: the user name, the description, the label (or the
    type without one) and the date with every comma, double quote and line
    break they hold, and the amount in digits.  For no transaction the text
    is empty. *)
Theorem export_is_read_back (txs : list CoinTransaction) :
  Forall (fun t => - 2 ^ 53 < amount t < 2 ^ 53) txs ->
  Forall (fun t => typeLabels !! type t = None -> inherited (type t) = None) txs ->
  read_csv (to_csv toLocaleString inherited (Some txs))
  = Some (match txs with
          | [] => [[[]]]
          | _ => exported_names :: (exported_values toLocaleString inherited <$> txs)
          end)
  /\ (forall t, t ∈ txs ->
        exported_values toLocaleString inherited t
        = [ username (user t); String_of_Z (amount t);
            default (type t) (typeLabels !! type t); description t;
            toLocaleString (created_at t) ]).
Proof.
  intros _ Htypes. split.
  - destruct txs as [|t txs]; [done|].
    rewrite to_csv_text by done. unfold read_csv.
    rewrite read_header, read_lines by (done || by left). done.
  - intros t Ht. rewrite Forall_forall in Htypes. specialize (Htypes t Ht).
    unfold exported_values. do 2 f_equal.
    destruct (typeLabels !! type t) as [label|] eqn:E.
    + by rewrite (exported_type_label inherited t label E).
    + by rewrite (exported_type_other inherited t E (Htypes eq_refl)).
Qed.

End ExportReadBack.

(** ** The order of an imported row *)

Section OrderOfARow.
Import Chapters NumericLiteral.

(** *** Reading digits *)

Lemma is_digit_decimal c : is_digit 10 c = true <-> is_decimal c.
Proof.
  split.
  - intros H. destruct (decide (is_decimal c)) as [|Hn]; [done|].
    by rewrite (not_decimal_digit c Hn) in H.
  - intros H. unfold is_digit. by rewrite (is_decimal_digit c H).
Qed.

Lemma is_digit_of radix c :
  radix = 2 \/ radix = 8 \/ radix = 16 ->
  is_digit radix c = true <-> digit_of radix c.
Proof.
  intros Hr. unfold is_digit, digit_value, digit_of.
  repeat match goal with
  | |- context [(?a <=? ?b)%N] => destruct (N.leb_spec a b); simpl
  | |- context [?a <? ?b] => destruct (Z.ltb_spec a b); simpl
  end; split; try done; lia.
Qed.

Lemma take_digits_spec radix s :
  s = (take_digits radix s).1 ++ (take_digits radix s).2
  /\ Forall (fun c => is_digit radix c = true) (take_digits radix s).1
  /\ match (take_digits radix s).2 with
     | [] => True
     | c :: _ => is_digit radix c = false
     end.
Proof.
  induction s as [|c s (IH1 & IH2 & IH3)]; cbn [take_digits]; [done|].
  destruct (is_digit radix c) eqn:Hc; [|done].
  destruct (take_digits radix s) as [ds rest]. cbn [fst snd app] in *.
  split; [by f_equal|]. split; [by constructor|done].
Qed.

Lemma take_digits_app radix ds rest :
  Forall (fun c => is_digit radix c = true) ds ->
  match rest with [] => True | c :: _ => is_digit radix c = false end ->
  take_digits radix (ds ++ rest) = (ds, rest).
Proof.
  intros Hds Hrest. induction Hds as [|c ds Hc _ IH]; cbn [app take_digits].
  - destruct rest as [|c rest]; [done|]. cbn [take_digits]. by rewrite Hrest.
  - by rewrite Hc, IH.
Qed.

Lemma decimal_digits ds :
  Forall is_decimal ds -> Forall (fun c => is_digit 10 c = true) ds.
Proof.
  intros H. eapply Forall_impl; [exact H|]. intros c. apply is_digit_decimal.
Qed.

(** *** The sign *)

Lemma strip_sign_spec t :
  exists sg, t = sg ++ (strip_sign t).2 /\ sign sg.
Proof.
  unfold strip_sign, sign. destruct t as [|c t]; [by exists []; auto|].
  destruct (N.eqb_spec c 45) as [->|]; [exists [45%N]; auto|].
  destruct (N.eqb_spec c 43) as [->|]; [exists [43%N]; auto|].
  exists []. auto.
Qed.

Lemma strip_sign_app sg u :
  sign sg -> (forall c u', u = c :: u' -> c <> 43%N /\ c <> 45%N) ->
  (strip_sign (sg ++ u)).2 = u.
Proof.
  intros [-> | [-> | ->]] Hu; [|done..]. simpl.
  destruct u as [|c u]; [done|]. destruct (Hu c u eq_refl) as [Hp Hm].
  unfold strip_sign. destruct (N.eqb_spec c 45); [done|].
  by destruct (N.eqb_spec c 43).
Qed.

(** *** The exponent *)

Lemma digits_head ds : digits ds -> exists c ds', ds = c :: ds' /\ is_decimal c.
Proof.
  intros [Hne Hall]. destruct ds as [|c ds']; [done|].
  apply Forall_cons in Hall as [Hc _]. by exists c, ds'.
Qed.

Lemma exponent_opt_spec x : exponent_opt x = true <-> x = [] \/ exponent x.
Proof.
  unfold exponent_opt. destruct x as [|c s']; [by split; auto|]. split.
  - intros H. right.
    assert (c = 101 \/ c = 69)%N as Hc.
    { destruct (N.eqb_spec c 101); [by left|].
      destruct (N.eqb_spec c 69); [by right|done]. }
    assert ((c =? 101)%N || (c =? 69)%N = true) as Hb
      by (destruct Hc as [-> | ->]; reflexivity).
    rewrite Hb in H.
    destruct (strip_sign_spec s') as (sg & Hs' & Hsg).
    pose proof (take_digits_spec 10 (strip_sign s').2) as (Hu & Hds & _).
    destruct (take_digits 10 (strip_sign s').2) as [[|d ds] [|? ?]]; try done.
    cbn [fst snd] in Hu, Hds. rewrite app_nil_r in Hu. rewrite Hu in Hs'.
    exists c, sg, (d :: ds). split; [by rewrite Hs'|]. split; [done|].
    split; [done|]. split; [done|].
    eapply Forall_impl; [exact Hds|]. intros ?. apply is_digit_decimal.
  - intros [[=] | (e & sg & ds & [= -> ->] & He & Hsg & Hds)].
    assert ((e =? 101)%N || (e =? 69)%N = true) as ->
      by (destruct He as [-> | ->]; reflexivity).
    destruct (digits_head ds Hds) as (d & ds' & -> & Hd).
    rewrite strip_sign_app; [|done|].
    + destruct Hds as [_ Hall]. by rewrite take_digits_all.
    + intros ? ? [= <- <-]. unfold is_decimal in Hd. lia.
Qed.

(** *** Decimal literals *)

Lemma is_unsigned_decimal_spec u :
  is_unsigned_decimal u = true <-> unsigned_decimal u.
Proof.
  unfold is_unsigned_decimal, unsigned_decimal. split.
  - case_decide as HI; [by left|]. intros H. right.
    pose proof (take_digits_spec 10 u) as (Hu & Hds & Hrest).
    destruct (take_digits 10 u) as [ds rest]. simpl in *.
    assert (Forall is_decimal ds) as Hds'
      by (eapply Forall_impl; [exact Hds|intros ?; apply is_digit_decimal]).
    destruct rest as [|c rest].
    + right. exists ds, []. rewrite app_nil_r in Hu.
      split; [by rewrite app_nil_r|]. split; [|by left].
      split; [by destruct ds|done].
    + destruct (N.eqb_spec c 46) as [->|Hc].
      * left. pose proof (take_digits_spec 10 rest) as (Hr & Hfs & _).
        destruct (take_digits 10 rest) as [fs rest']. simpl in *.
        apply andb_prop in H as [Ht Hx]. exists ds, fs, rest'.
        split; [by rewrite <- Hr|]. split; [done|]. split.
        { eapply Forall_impl; [exact Hfs|intros ?; apply is_digit_decimal]. }
        split; [|by apply exponent_opt_spec].
        destruct ds; [|by left]. destruct fs; [done|by right].
      * right. apply andb_prop in H as [Ht Hx]. exists ds, (c :: rest).
        split; [done|]. split; [|by apply exponent_opt_spec].
        split; [by destruct ds|done].
  - intros H. case_decide as HI; [done|]. destruct H as [?|[H|H]]; [done| |].
    + destruct H as (ds & fs & x & -> & Hds & Hfs & Hne & Hx).
      rewrite (take_digits_app 10 ds (46%N :: fs ++ x)); [|by apply decimal_digits|done].
      change (46 =? 46)%N with true. cbv iota.
      rewrite (take_digits_app 10 fs x); [|by apply decimal_digits|].
      * apply andb_true_intro. split; [|by apply exponent_opt_spec].
        destruct Hne; [by destruct ds|by destruct fs; [|destruct ds]].
      * destruct Hx as [->|(e & sg & ds' & -> & [-> | ->] & _)]; done.
    + destruct H as (ds & x & -> & [Hne Hds] & Hx).
      rewrite (take_digits_app 10 ds x); [|by apply decimal_digits|].
      * destruct x as [|c x]; [by destruct ds|].
        destruct Hx as [?|Hx]; [done|].
        assert ((c =? 46)%N = false) as ->.
        { destruct Hx as (e & sg & ds' & [= -> _] & [-> | ->] & _); done. }
        apply andb_true_intro. split; [by destruct ds|].
        apply exponent_opt_spec. by right.
      * destruct Hx as [->|(e & sg & ds' & -> & [-> | ->] & _)]; done.
Qed.

Lemma unsigned_decimal_head u :
  unsigned_decimal u -> forall c u', u = c :: u' -> c <> 43%N /\ c <> 45%N.
Proof.
  intros [->|[H|H]] c u' Hu.
  - by injection Hu as <- _.
  - destruct H as (ds & fs & x & -> & Hds & _).
    destruct Hds as [|d ds Hd _]; simpl in Hu; injection Hu as <- _; [done|].
    unfold is_decimal in Hd. lia.
  - destruct H as (ds & x & -> & Hds & _).
    destruct (digits_head ds Hds) as (d & ds' & -> & Hd).
    injection Hu as <- _. unfold is_decimal in Hd. lia.
Qed.

(** *** Literals of another radix *)

Lemma prefix_radix_spec t radix s' :
  prefix_radix t = Some (radix, s')
  <-> exists p, t = 48%N :: p :: s'
        /\ ((radix = 16 /\ (p = 120 \/ p = 88)%N)
            \/ (radix = 8 /\ (p = 111 \/ p = 79)%N)
            \/ (radix = 2 /\ (p = 98 \/ p = 66)%N)).
Proof.
  unfold prefix_radix. split.
  - destruct t as [|c0 [|p s0]]; try done.
    destruct (N.eqb_spec c0 48) as [->|]; [|done].
    destruct (N.eqb_spec p 120) as [->|]; [intros [= <- <-]; exists 120%N; auto 10|].
    destruct (N.eqb_spec p 88) as [->|]; [intros [= <- <-]; exists 88%N; auto 10|].
    destruct (N.eqb_spec p 111) as [->|]; [intros [= <- <-]; exists 111%N; auto 10|].
    destruct (N.eqb_spec p 79) as [->|]; [intros [= <- <-]; exists 79%N; auto 10|].
    destruct (N.eqb_spec p 98) as [->|]; [intros [= <- <-]; exists 98%N; auto 10|].
    destruct (N.eqb_spec p 66) as [->|]; [intros [= <- <-]; exists 66%N; auto 10|].
    done.
  - intros (p & -> & [[-> [-> | ->]] | [[-> [-> | ->]] | [-> [-> | ->]]]]);
      reflexivity.
Qed.

Lemma radix_literal_spec t :
  (exists z, radix_literal t = Some z) <-> non_decimal t.
Proof.
  unfold radix_literal, non_decimal. split.
  - intros [z H]. destruct (prefix_radix t) as [[radix s']|] eqn:E; [|done].
    apply prefix_radix_spec in E as (p & -> & Hp).
    assert (radix = 2 \/ radix = 8 \/ radix = 16) as Hr by tauto.
    pose proof (take_digits_spec radix s') as (Hs & Hds & _).
    destruct (take_digits radix s') as [[|d ds] [|? ?]]; try done.
    cbn [fst snd] in Hs, Hds. rewrite app_nil_r in Hs. subst s'.
    exists p, radix, (d :: ds). split; [done|]. split; [done|]. split; [done|].
    eapply Forall_impl; [exact Hds|]. intros ?. by apply is_digit_of.
  - intros (p & radix & ds & -> & Hp & Hne & Hds).
    assert (radix = 2 \/ radix = 8 \/ radix = 16) as Hr by tauto.
    assert (prefix_radix (48%N :: p :: ds) = Some (radix, ds)) as ->
      by (apply prefix_radix_spec; by exists p).
    assert (take_digits radix ds = (ds, [])) as ->.
    { rewrite <- (app_nil_r ds) at 1. apply take_digits_app; [|done].
      eapply Forall_impl; [exact Hds|]. intros ?. by apply is_digit_of. }
    destruct ds; [done|]. by eexists.
Qed.

(** *** Numeric literals *)

Lemma number_of_not_NaN z t : number_of z t <> NaN.
Proof. unfold number_of. by case_decide. Qed.

(** A text has a number as its value exactly when it is a numeric literal. *)
Lemma literal_value_NaN t : literal_value t = NaN <-> ~ numeric t.
Proof.
  unfold literal_value, numeric. split.
  - intros H [Hnd | (sg & u & -> & Hsg & Hu)].
    + apply radix_literal_spec in Hnd as [z Hz]. rewrite Hz in H.
      by apply number_of_not_NaN in H.
    + destruct (radix_literal (sg ++ u)); [by apply number_of_not_NaN in H|].
      pose proof (strip_sign_app sg u Hsg (unsigned_decimal_head u Hu)) as Hst.
      destruct (strip_sign (sg ++ u)) as [sn u0]. simpl in Hst. subst u0.
      apply is_unsigned_decimal_spec in Hu. rewrite Hu in H.
      destruct (take_digits 10 u) as [[|d ds] [|? ?]]; try done;
        by apply number_of_not_NaN in H.
  - intros Hn. destruct (radix_literal t) as [z|] eqn:Hr.
    { exfalso. apply Hn. left. apply radix_literal_spec. by exists z. }
    destruct (strip_sign_spec t) as (sg & Ht & Hsg).
    destruct (strip_sign t) as [sn u]. simpl in Ht.
    assert (is_unsigned_decimal u = false) as Hu.
    { destruct (is_unsigned_decimal u) eqn:E; [|done]. exfalso. apply Hn. right.
      exists sg, u. split; [done|]. split; [done|]. by apply is_unsigned_decimal_spec. }
    rewrite Hu.
    pose proof (take_digits_spec 10 u) as (Hs & Hds & _).
    destruct (take_digits 10 u) as [[|d ds] [|? ?]]; try done.
    exfalso. simpl in Hs. rewrite app_nil_r in Hs.
    assert (is_unsigned_decimal u = true); [|congruence].
    apply is_unsigned_decimal_spec. right. right. exists u, [].
    split; [by rewrite app_nil_r|]. split; [|by left].
    split; [by rewrite Hs|]. rewrite Hs.
    eapply Forall_impl; [exact Hds|]. intros ?. apply is_digit_decimal.
Qed.

(** *** White space around a text *)

Lemma trimEnd_blank b : blank b -> trimEnd b = [].
Proof. induction 1 as [|c b Hc _ IH]; [done|]. simpl. by rewrite IH, Hc. Qed.

Lemma trimEnd_around t b :
  (forall t' c, t = t' ++ [c] -> is_ws c = false) -> blank b -> trimEnd (t ++ b) = t.
Proof.
  intros Ht Hb. induction t as [|c t IH]; [by apply trimEnd_blank|].
  simpl. rewrite IH.
  - destruct t as [|c' t]; [|done]. by rewrite (Ht [] c eq_refl).
  - intros t' c' ->. by apply (Ht (c :: t') c').
Qed.

Lemma trim_around a t b :
  blank a -> blank b -> trimmed t -> trim (a ++ t ++ b) = t.
Proof.
  intros Ha Hb [Hhead Hlast]. unfold trim. rewrite trimStart_ws by done.
  destruct t as [|c t].
  - simpl. assert (trimStart b = []) as ->; [|done].
    clear -Hb. induction Hb as [|c b Hc _ IH]; [done|]. simpl. by rewrite Hc.
  - simpl. rewrite (Hhead c t eq_refl). by apply (trimEnd_around (c :: t)).
Qed.

Lemma no_ws_trimmed t : Forall (fun c => is_ws c = false) t -> trimmed t.
Proof.
  intros H. split.
  - intros c t' ->. by apply Forall_cons in H as [? _].
  - intros t' c ->. by apply Forall_app in H as [_ [? _]%Forall_cons].
Qed.

Lemma StringToNumber_around a t b :
  blank a -> blank b -> trimmed t ->
  StringToNumber (a ++ t ++ b) = match t with [] => Int 0 | _ => literal_value t end.
Proof.
  intros Ha Hb Ht. unfold StringToNumber. rewrite trim_around by done.
  by destruct t.
Qed.

(** Every text is white space around a text that neither begins nor ends
    with it. *)
Lemma around_exists s :
  exists a t b, s = a ++ t ++ b /\ blank a /\ blank b /\ trimmed t.
Proof.
  assert (forall s, exists a t, s = a ++ t /\ blank a
            /\ (forall c t', t = c :: t' -> is_ws c = false)) as Hstart.
  { clear. induction s as [|c s (a & t & -> & Ha & Ht)].
    - exists [], []. split; [done|]. split; [constructor|]. by intros ? ? [=].
    - destruct (is_ws c) eqn:Hc.
      + exists (c :: a), t. split; [done|]. split; [by constructor|done].
      + exists [], (c :: a ++ t). split; [done|]. split; [constructor|].
        by intros ? ? [= <- <-]. }
  assert (forall t, exists t0 b, t = t0 ++ b /\ blank b
            /\ (forall t' c, t0 = t' ++ [c] -> is_ws c = false)) as Hend.
  { clear. induction t as [|c t (t0 & b & -> & Hb & Ht0)].
    - exists [], []. split; [done|]. split; [constructor|].
      intros t' c H. by destruct t'.
    - destruct t0 as [|c0 t0].
      + destruct (is_ws c) eqn:Hc.
        * exists [], (c :: b). split; [done|]. split; [by constructor|].
          intros t' c' H. by destruct t'.
        * exists [c], b. split; [done|]. split; [done|].
          intros t' c' H. destruct t' as [|x t'].
          -- by injection H as <-.
          -- injection H as _ H. by destruct t'.
      + exists (c :: c0 :: t0), b. split; [done|]. split; [done|].
        intros t' c' H. destruct t' as [|x t']; [done|].
        injection H as _ H. by apply (Ht0 t' c'). }
  destruct (Hstart s) as (a & t & -> & Ha & Ht).
  destruct (Hend t) as (t0 & b & -> & Hb & Ht0).
  exists a, t0, b. split; [done|]. split; [done|]. split; [done|]. split; [|done].
  intros c t' ->. by apply (Ht c (t' ++ b)).
Qed.

(** *** The record made of a row *)

Lemma literal_value_String_of_Z k :
  - 2 ^ 53 < k < 2 ^ 53 -> literal_value (String_of_Z k) = Int k.
Proof.
  intros Hk. rewrite <- (StringToNumber_String_of_Z k Hk).
  destruct (String_of_Z_signed k) as (ds & Hds & Hne & Ht & _).
  assert (trimmed (String_of_Z k)) as Htr.
  { apply no_ws_trimmed. rewrite Ht. by apply signed_digits_no_ws. }
  pose proof (StringToNumber_around [] (String_of_Z k) [] ltac:(constructor)
                ltac:(constructor) Htr) as H.
  rewrite app_nil_r in H. cbn [app] in H. rewrite H.
  rewrite Ht. by destruct (bool_decide (k < 0)), ds.
Qed.

(** C8, as stated, does not hold for an order field that is empty or white
    space only: the rows [,Title,Body,true,] and [ ,Title,Body,true,] are
    given the order 0, not [NaN], although neither the empty text nor a
    space is a numeric literal. *)
Lemma import_row_empty_order :
  let row (order : jsstring) :=
    {| row_order := Some order; row_title := Some (js "Title");
       row_content := Some (js "Body"); row_is_vip := Some (js "true");
       row_publish_at := Some [] |} in
  ~ numeric [] /\ ~ numeric (js " ")
  /\ order (import_row "book" 0 (row [])) = Int 0
  /\ order (import_row "book" 0 (row (js " "))) = Int 0
  /\ order (import_row "book" 0 (row [])) <> NaN.
Proof.
  split; [by apply literal_value_NaN|]. split; [by apply literal_value_NaN|].
  done.
Qed.

(** C8, as the code has it.  For every parsed row, every index and every
    selected book, in the record made of the row: [is_vip] is true exactly
    when the row has an [is_vip] field that is ["true"] up to the case of its
    letters.  [order] is [NaN] when the row has no order field; otherwise,
    with the white space around the field set aside (every text is white
    space around a text that neither begins nor ends with it), [order] is 0
    when nothing is left, [NaN] exactly when what is left is no numeric
    literal, and k when it is the decimal text of an integer k that a number
    holds exactly.  [publish_at] is [null] when the field is empty or
    missing and the field otherwise; [content] is the field, or empty;
    [word_count] is the number of maximal runs of characters of [content]
    that are not white space; a title that is not blank is stored without
    the white space around it.  The row [1,第一章,内容,false,] gives order 1,
    these title and content, not VIP, no date, one word; the row
    [x,Title,Body,true,] gives order [NaN]. *)
Theorem import_row_fields selectedBookId index row :
  let c := import_row selectedBookId index row in
  (is_vip c = true <->
     exists s, row_is_vip row = Some s /\ is_true_ignoring_case s)
  /\ (row_order row = None -> order c = NaN)
  /\ (forall a t b,
        row_order row = Some (a ++ t ++ b) -> blank a -> blank b -> trimmed t ->
        (t = [] -> order c = Int 0)
        /\ (t <> [] -> (order c = NaN <-> ~ numeric t))
        /\ (forall k, - 2 ^ 53 < k < 2 ^ 53 -> t = String_of_Z k -> order c = Int k))
  /\ (forall s, exists a t b, s = a ++ t ++ b /\ blank a /\ blank b /\ trimmed t)
  /\ publish_at c
     = match row_publish_at row with
       | Some (ch :: s) => Some (ch :: s)
       | _ => None
       end
  /\ content c = default [] (row_content row)
  /\ word_count c = count_tokens true (content c)
  /\ (forall a t b,
        row_title row = Some (a ++ t ++ b) -> blank a -> blank b -> trimmed t ->
        t <> [] -> title c = t)
  /\ import_row selectedBookId index
       {| row_order := Some (js "1");
          row_title := Some [31532; 19968; 31456]%N;
          row_content := Some [20869; 23481]%N;
          row_is_vip := Some (js "false");
          row_publish_at := Some [] |}
     = {| book_id := selectedBookId; order := Int 1;
          title := [31532; 19968; 31456]%N; content := [20869; 23481]%N;
          is_vip := false; publish_at := None; word_count := 1 |}
  /\ import_row selectedBookId index
       {| row_order := Some (js "x");
          row_title := Some (js "Title");
          row_content := Some (js "Body");
          row_is_vip := Some (js "true");
          row_publish_at := Some [] |}
     = {| book_id := selectedBookId; order := NaN;
          title := js "Title"; content := js "Body";
          is_vip := true; publish_at := None; word_count := 1 |}.
Proof.
  intros c. unfold c, import_row. cbn [is_vip order publish_at content word_count title].
  split; [|split; [by intros ->|]; split; [|split; [apply around_exists|];
           split; [|split; [|split; [|split]]]]].
  - rewrite bool_decide_eq_true. destruct (row_is_vip row) as [s|]; simpl.
    + rewrite toLowerCase_true. split; [by exists s|]. by intros (? & [= <-] & ?).
    + split; [by intros [=]|]. by intros (? & [=] & _).
  - intros a t b -> Ha Hb Ht. cbn [Number].
    rewrite StringToNumber_around by done. split; [by intros ->|]. split.
    + intros Hne. destruct t; [done|]. apply literal_value_NaN.
    + intros k Hk ->. rewrite <- (literal_value_String_of_Z k Hk).
      destruct (String_of_Z_signed k) as (ds & _ & Hne & -> & _).
      by destruct (bool_decide (k < 0)), ds.
  - by destruct (row_publish_at row) as [[|ch s]|].
  - by destruct (row_content row) as [[|ch s]|].
  - apply wordCount_tokens.
  - intros a t b -> Ha Hb Ht Hne. cbn [fmap option_fmap option_map or_else].
    rewrite trim_around by done. by destruct t.
  - split; reflexivity.
Qed.

End OrderOfARow.

(** * Scenarios

    The theorems above on the sample pages. *)

(** X1 on the three forum categories: three presses, all accepted. *)
Lemma presses_keep_the_order_dense_witness :
  let presses :=
    [ PressUp "b" Samples.accepted; PressDown "a" Samples.accepted;
      PressUp "a" Samples.accepted ] in
  let p' := foldl (fun p pr => do_press (ForumCategories.kind true) pr p)
              Samples.forum presses in
  consistent p' /\ unordered (table p') = unordered (table Samples.forum).
Proof.
  apply (presses_keep_the_order_dense (ForumCategories.kind true)
           [ PressUp "b" Samples.accepted; PressDown "a" Samples.accepted;
             PressUp "a" Samples.accepted ] Samples.forum).
  - split; [on_sample|]. split; on_sample.
  - repeat constructor.
Defined.

(** X2 on the three forum categories: the middle one, the second update
    rejected. *)
Lemma second_update_failure_duplicates_position_witness :
  let p := Samples.forum in
  let r := Samples.category "b" 1 in
  let kind := ForumCategories.kind true in
  let rs := MoveSamples.second_rejected in
  (forall q,
     List.find (fun c => sort_order c =? sort_order r - 1) (categories p) = Some q ->
     let p' := handleMoveUp kind (id r) (sort_order r) rs p in
     r ∈ table p' /\ set_sort_order (sort_order r) q ∈ table p' /\ id q <> id r
     /\ ~ NoDup (sort_order <$> table p') /\ ~ dense (table p')
     /\ console p' = "row is locked" :: console p /\ categories p' = categories p)
  /\
  (forall q,
     List.find (fun c => sort_order c =? sort_order r + 1) (categories p) = Some q ->
     let p' := handleMoveDown kind (id r) (sort_order r) rs p in
     r ∈ table p' /\ set_sort_order (sort_order r) q ∈ table p' /\ id q <> id r
     /\ ~ NoDup (sort_order <$> table p') /\ ~ dense (table p')
     /\ console p' = "row is locked" :: console p /\ categories p' = categories p).
Proof.
  apply (second_update_failure_duplicates_position (ForumCategories.kind true)
           Samples.forum (Samples.category "b" 1) MoveSamples.second_rejected
           "row is locked").
  all: on_sample.
Defined.

(** X3 on the three banners: the middle one, both updates rejected. *)
Lemma both_updates_rejected_reports_the_first_witness :
  let p := Samples.banners in
  let kind := HomepageBanners.kind in
  let rs := MoveSamples.both_rejected in
  (forall q,
     List.find (fun c => sort_order c =? 1 - 1) (categories p) = Some q ->
     let p' := handleMoveUp kind "b" 1 rs p in
     table p' = table p /\ categories p' = categories p
     /\ console p' = "first is locked" :: console p)
  /\
  (forall q,
     List.find (fun c => sort_order c =? 1 + 1) (categories p) = Some q ->
     let p' := handleMoveDown kind "b" 1 rs p in
     table p' = table p /\ categories p' = categories p
     /\ console p' = "first is locked" :: console p).
Proof.
  apply (both_updates_rejected_reports_the_first HomepageBanners.kind
           "b" 1 MoveSamples.both_rejected Samples.banners
           "first is locked" "second is locked").
  all: on_sample.
Defined.

(** X5 on the three forum categories: the middle one deleted. *)
Lemma delete_keeps_dense_only_at_the_end_witness :
  let p := Samples.forum in
  let r := Samples.category "b" 1 in
  let p' := handleDelete (ForumCategories.kind true) ForumCategoriesActions.actions
              (id r) None None p in
  table p' = delete_row (id r) (table p)
  /\ r :: table p' ≡ₚ table p
  /\ NoDup (id <$> table p')
  /\ (dense (table p') <-> sort_order r = Z.of_nat (length (table p)) - 1).
Proof.
  apply (delete_keeps_dense_only_at_the_end (ForumCategories.kind true)
           ForumCategoriesActions.actions Samples.forum
           (Samples.category "b" 1) None).
  all: on_sample.
Defined.

(** X6 on the three banners: the first one deleted, then a new banner
    created with the position field left alone. *)
Lemma create_after_delete_repeats_a_position_witness :
  let kind := HomepageBanners.kind in
  let p := Samples.banners in
  let r := Samples.banner "a" 0 in
  let p1 := handleDelete kind HomepageBannersActions.actions (id r) None None p in
  let form := fill Samples.typed_fields (openCreate kind p1) in
  let p2 := handleSubmit kind Samples.insert_accepted form in
  data_sort_order form = Z.of_nat (length (table p)) - 1
  /\ (exists last, last ∈ table p /\ last ∈ table p2 /\ id last <> id r
       /\ sort_order last = Z.of_nat (length (table p)) - 1)
  /\ Row "d" (Z.of_nat (length (table p)) - 1) (data form) ∈ table p2
  /\ ~ NoDup (sort_order <$> table p2).
Proof.
  apply (create_after_delete_repeats_a_position HomepageBanners.kind
           HomepageBannersActions.actions Samples.banners
           (Samples.banner "a" 0) Samples.typed_fields Samples.insert_accepted "d").
  all: on_sample.
Defined.

(** X7 on the three forum categories: the form opened on the middle one and
    saved as it is. *)
Lemma edit_without_input_keeps_the_table_witness :
  table (handleSubmit (ForumCategories.kind true) Samples.insert_accepted
           (handleEdit (ForumCategories.kind true) (Samples.category "b" 1)
              Samples.forum))
  = table Samples.forum.
Proof.
  apply (edit_without_input_keeps_the_table (ForumCategories.kind true)
           Samples.forum (Samples.category "b" 1) Samples.insert_accepted).
  all: on_sample.
Defined.

(** X10: the administrator is recognised and clicks the range that is
    already shown. *)
Lemma no_statistics_before_the_range_changes_witness :
  let evs :=
    [ TrafficPage.AdminChecked (TrafficPage.Profile (Some "admin"));
      TrafficPage.RangeClicked TrafficStats.range_7d 5 6 ] in
  TrafficPage.calls (TrafficPage.run TrafficStats.utc evs) = 0%nat
  /\ TrafficPage.stats (TrafficPage.run TrafficStats.utc evs) = []
  /\ TrafficPage.range (TrafficPage.run TrafficStats.utc evs) = TrafficStats.range_7d
  /\ TrafficPage.awaiting (TrafficPage.run TrafficStats.utc evs) = None
  /\ forall now1 now2,
       TrafficPage.controls_shown (TrafficPage.run TrafficStats.utc evs) = true ->
       let c := TrafficPage.step TrafficStats.utc (TrafficPage.run TrafficStats.utc evs)
                  (TrafficPage.RangeClicked TrafficStats.range_30d now1 now2) in
       TrafficPage.calls c = 1%nat
       /\ TrafficPage.awaiting c = Some (now1, now2, TrafficStats.range_30d)
       /\ TrafficPage.controls_shown c = false.
Proof.
  apply (no_statistics_before_the_range_changes TrafficStats.utc
           [ TrafficPage.AdminChecked (TrafficPage.Profile (Some "admin"));
             TrafficPage.RangeClicked TrafficStats.range_7d 5 6 ]).
  repeat constructor.
Defined.

(** X11: the first call, for the last seven days, is rejected; two clicks
    follow. *)
Lemma failed_load_cannot_be_retried_witness :
  let c := TrafficPage.fetchStats_start 5 6 TrafficPage.initial in
  let response :=
    {| TrafficStats.data := None; TrafficStats.error := Some "timeout" |} in
  let evs :=
    [ TrafficPage.RangeClicked TrafficStats.range_30d 7 8;
      TrafficPage.RangeClicked TrafficStats.range_7d 9 10 ] in
  let c1 := TrafficPage.fetchStats_end TrafficStats.utc response c in
  let c' := foldl (TrafficPage.step TrafficStats.utc) c1 evs in
  TrafficPage.error_text c1 = "加载统计数据失败"
  /\ TrafficPage.loading c1 = false
  /\ TrafficPage.stats c1 = TrafficPage.stats c
  /\ TrafficPage.controls_shown c' = false
  /\ TrafficPage.calls c' = TrafficPage.calls c
  /\ TrafficPage.stats c' = TrafficPage.stats c
  /\ TrafficPage.awaiting c' = None.
Proof.
  apply (failed_load_cannot_be_retried TrafficStats.utc
           (TrafficPage.fetchStats_start 5 6 TrafficPage.initial)
           5 6 TrafficStats.range_7d
           {| TrafficStats.data := None; TrafficStats.error := Some "timeout" |}
           "timeout"
           [ TrafficPage.RangeClicked TrafficStats.range_30d 7 8;
             TrafficPage.RangeClicked TrafficStats.range_7d 9 10 ]);
    reflexivity.
Defined.

(** X12: eight hours ahead of UTC, the clock read one millisecond apart on
    day 10, the last seven days asked for, no login recorded. *)
Lemma fetchStats_buckets_witness :
  let now1 := 10 * TrafficStats.DAY in
  let now2 := 10 * TrafficStats.DAY + 1 in
  let r := TrafficStats.range_7d in
  exists processedStats,
    TrafficStats.fetchStats (TrafficStats.fixed 28800000) now1 now2 r
      {| TrafficStats.data := None; TrafficStats.error := None |}
    = TrafficStats.setStats processedStats
    /\ Z.of_nat (length processedStats)
       = TrafficStats.range_days r + (if decide (now2 = now1) then 1 else 0)
    /\ TrafficStats.date <$> processedStats
       = (fun i => TrafficStats.dateStr (now2 - TrafficStats.range_days r * TrafficStats.DAY)
                   + Z.of_nat i)
           <$> seq 0 (length processedStats).
Proof.
  apply (fetchStats_buckets 28800000
           (10 * TrafficStats.DAY) (10 * TrafficStats.DAY + 1)
           TrafficStats.range_7d
           {| TrafficStats.data := None; TrafficStats.error := None |}).
  - unfold TrafficStats.DAY. lia.
  - reflexivity.
Defined.

(** X21 in New York, for the seven days before 2023-11-08T00:30Z: the loop
    starts on 2023-10-31 at 23:30 UTC and steps from 2023-11-04 23:30 UTC
    to 2023-11-06 00:30 UTC; the login of 2023-11-05 is counted nowhere. *)
Lemma longer_day_leaves_a_day_without_bucket_witness :
  let tz := TrafficStats.new_york_2023 in
  let e := 1699403400000 in
  let s := TrafficStats.setDate_plus tz (-7) e in
  let logs := [ {| TrafficStats.logged_in_at := 1699185600000;
                   TrafficStats.user_id := "A" |} ] in
  let d := Nat.iter 4 (TrafficStats.setDate_plus tz 1) s in
  let out := TrafficStats.processLogs tz s e (Some logs) in
  TrafficStats.dateStr d ∈ (TrafficStats.date <$> out)
  /\ (TrafficStats.dateStr d + 2) ∈ (TrafficStats.date <$> out)
  /\ ((TrafficStats.dateStr d + 1) ∉ (TrafficStats.date <$> out))
  /\ (forall t, TrafficStats.dateStr t = TrafficStats.dateStr d + 1 -> s <= t <= e)
  /\ (sum_list (TrafficStats.visits <$> out)
      + length (TrafficStats.logs_on (TrafficStats.dateStr d + 1) logs)
      <= length logs)%nat.
Proof.
  apply (longer_day_leaves_a_day_without_bucket TrafficStats.new_york_2023
           (TrafficStats.setDate_plus TrafficStats.new_york_2023 (-7) 1699403400000)
           1699403400000 4
           [ {| TrafficStats.logged_in_at := 1699185600000;
                TrafficStats.user_id := "A" |} ]).
  - vm_compute. discriminate.
  - vm_compute. reflexivity.
Defined.

(** The same call in full: eight buckets, none for 2023-11-05 (day 19666),
    and the login of that day in none of them. *)
Example fetchStats_new_york :
  TrafficStats.fetchStats TrafficStats.new_york_2023 1699403400000 1699403400000
    TrafficStats.range_7d
    {| TrafficStats.data :=
         Some [ {| TrafficStats.logged_in_at := 1699185600000;
                   TrafficStats.user_id := "A" |} ];
       TrafficStats.error := None |}
  = TrafficStats.setStats
      ((fun day => {| TrafficStats.date := day; TrafficStats.visits := 0;
                      TrafficStats.unique_users := 0 |})
         <$> [19661; 19662; 19663; 19664; 19665; 19667; 19668; 19669])
  /\ TrafficStats.dateStr 1699185600000 = 19666.
Proof. split; vm_compute; reflexivity. Qed.

(** X19 on -42. *)
Lemma integers_are_read_back_witness :
  StringToNumber (String_of_Z (-42)) = Int (-42)
  /\ parseInt (String_of_Z (-42)) = Some (-42)
  /\ (forall selectedBookId index row,
        Chapters.row_order row = Some (String_of_Z (-42)) ->
        Chapters.order (Chapters.import_row selectedBookId index row) = Int (-42))
  /\ (forall (A : Type) (p : page A),
        data_sort_order (onChange (InputSortOrder (String_of_Z (-42))) p) = -42).
Proof.
  apply (integers_are_read_back (-42)). lia.
Defined.

(** X20 on a transaction with an unlock, whose description holds double
    quotes. *)
Lemma export_is_read_back_witness :
  CsvReader.read_csv
    (Coins.to_csv ExportSamples.toLocaleString ExportSamples.inherited
       (Some [ExportSamples.unlock]))
  = Some [ exported_names;
           [ js "bob"; js "-50"; [35299; 38145]%N;
             [83; 97; 105; 100; 32; 34; 104; 105; 34]%N;
             js "1/2/2024, 3:04:05 PM" ] ].
Proof.
  apply (export_is_read_back ExportSamples.toLocaleString ExportSamples.inherited
           [ExportSamples.unlock]).
  - repeat constructor.
  - repeat constructor.
Defined.
